(** * LoadTestPostmanTool: a shallow embedding of [loadtest.js]

    The definitions follow the source file:
    - [F64]       rounding to binary64, on rationals;
    - [Js]        the fragment of JavaScript values the program manipulates
                  (values produced by [JSON.parse], property reads,
                  truthiness, property keys, numeric results of divisions);
    - [Executor]  [runRequest]: the synchronous resolution of a raw template
                  and the classification of the outcome of the HTTP call;
    - [Progress]  [updateProgress];
    - [Summary]   [showSummary];
    - [Load]      [loadCollection] and [simulateLoad], the latter as a
                  transition system driven by the event loop, with the
                  invariant of its runs;
    - [Config]    [DEFAULT_CONFIG] and [loadConfig];
    - [Ieee]      the numeric expressions on machine floats;
    - [Samples]   a few inputs.
    The properties come after, one module of facts per module of
    definitions, then further properties of the same code ([...More]).

    Modelling conventions.
    - The numbers the program handles are integers (lengths, counters,
      differences of [Date.now()] in milliseconds, HTTP status codes) and
      are represented in [Z].
    - [(a / b) * 100] is evaluated as the engine evaluates it: the
      quotient is rounded to the nearest double, so is its product by
      100, and [Math.round] is applied to that double.  [F64] defines
      the rounding on rationals (53 significant bits, ties to even);
      the exponent is not bounded, which makes no difference for
      quotients of integers below 2^53 in absolute value.
    - [Math.round(a / b)] is the rounding of the exact quotient, which
      is what the engine computes for a dividend below 2^52
      ([F64Facts.round_div_double]).  [Math.floor(0.95 * n)] is the
      integer part of 19 n / 20.
    - The module [Ieee] evaluates all these expressions on the floats
      of the machine, and [IeeeFacts] compares the results on ranges of
      inputs.  A division by zero yields [NaN] or an infinity as in
      JavaScript: it never throws.
    - A string is the sequence of the bytes of its UTF-8 encoding.
    - Exceptions are values of an error monad ([Throw]).
    - The event loop is single-threaded: the code between two [await]s
      runs atomically.  A run is a sequence of events (a timer fires, a
      pending request settles) chosen by the environment.  Timers may
      fire in any order, which covers the order of [setTimeout] with the
      delays [i * delayMsBetweenUsers]. *)

From stdpp Require Import gmap strings list fin_maps sorting pretty.
From Stdlib Require Import ZArith NArith Lia QArith Qround Qpower Lqa Ascii.
From Stdlib Require PrimFloat FloatOps SpecFloat Uint63.

Set Warnings "-register-all".

Open Scope Z_scope.

(** ** The error monad *)

Inductive js_error := TypeError | RangeError.

Inductive exc (A : Type) :=
  | Ok (a : A)
  | Throw (e : js_error).
Arguments Ok {A} a.
Arguments Throw {A} e.

Definition exc_bind {A B} (m : exc A) (k : A → exc B) : exc B :=
  match m with
  | Ok a => k a
  | Throw e => Throw e
  end.

Notation "'let!' x ':=' m 'in' k" := (exc_bind m (λ x, k))
  (at level 10, x name, m at level 100, k at level 200).

Definition returns {A} (m : exc A) : Prop := ∃ a, m = Ok a.

Global Instance js_error_eq_dec : EqDecision js_error.
Proof. solve_decision. Defined.

Global Instance exc_eq_dec {A} `{EqDecision A} : EqDecision (exc A).
Proof. solve_decision. Defined.

(** ** Doubles

    The Number values that matter here are rationals.  [fl x] is the
    double nearest to [x]: [x] is scaled by a power of two into
    [2^52, 2^53), rounded to the nearest integer, the even one when two
    are equally near, and scaled back. *)

Module F64.
Local Open Scope Q_scope.

Definition pow2 (e : Z) : Q := 2 ^ e.

(** The exponent [k] with [2^k <= x < 2^(k+1)], for [x > 0]. *)
Definition ilog2 (x : Q) : Z :=
  let s := (Z.log2 (Zpos (Qden x)) + 1)%Z in
  (Z.log2 ((Qnum x * 2 ^ s) / Zpos (Qden x)) - s)%Z.

Definition rne (u : Q) : Z :=
  let q := Qfloor u in
  match Qcompare (u - inject_Z q) (1 # 2) with
  | Lt => q
  | Gt => (q + 1)%Z
  | Eq => if Z.even q then q else (q + 1)%Z
  end.

Definition rn (x : Q) : Q :=
  let e := (ilog2 x - 52)%Z in inject_Z (rne (x / pow2 e)) * pow2 e.

Definition fl (x : Q) : Q :=
  match Qcompare x 0 with
  | Eq => 0
  | Gt => rn x
  | Lt => - rn (- x)
  end.

(** The Number value of an integer. *)
Definition of_Z (z : Z) : Q := fl (inject_Z z).

(** [a / b] for [b] other than zero, and [a * b]. *)
Definition div (a b : Q) : Q := fl (a / b).
Definition mul (a b : Q) : Q := fl (a * b).

(** [Math.round]: the nearest integer, ties towards +infinity. *)
Definition round (x : Q) : Z := Qfloor (x + (1 # 2)).

(** The relative error of one rounding is at most 2^-53. *)
Definition eps : Q := 1 # 9007199254740992.

End F64.

(** ** JavaScript values *)

Module Js.

(** The values [JSON.parse] produces, plus [undefined] (the result of
    reading an absent property).  [VNum z] is an integer number. *)
Inductive jsval :=
  | VUndef
  | VNull
  | VBool (b : bool)
  | VNum (z : Z)
  | VStr (s : string)
  | VArr (l : list jsval)
  | VObj (m : gmap string jsval).

(** [v.k] for the property names this program reads ([request], [url],
    [raw], [method], [header], [body], [key], [value], [name], [item]);
    none of them is defined on a built-in prototype, so only own
    properties of objects answer.  Reading a property of [undefined] or
    [null] throws a [TypeError]. *)
Definition get (v : jsval) (k : string) : exc jsval :=
  match v with
  | VUndef | VNull => Throw TypeError
  | VObj m => Ok (default VUndef (m !! k))
  | _ => Ok VUndef
  end.

(** ToBoolean. *)
Definition truthy (v : jsval) : bool :=
  match v with
  | VUndef | VNull | VBool false | VNum 0 | VStr "" => false
  | _ => true
  end.

(** [a || b] *)
Definition or_else (a b : jsval) : jsval := if truthy a then a else b.

Definition join_comma (l : list string) : string :=
  match l with
  | [] => ""
  | s :: l => foldl (λ acc x, acc +:+ "," +:+ x) s l
  end.

(** *** Number::toString

    The integer [z] stands for the double nearest to it, [x].  Below
    2^53 that is [z] itself and its decimal digits are printed.  Above,
    the digits printed are those of the decimal [v] with the fewest
    significant digits that still reads back as [x] (the nearest to
    [x] among those): in full when [v] is below 10^21, in exponent
    notation from there on. *)

Definition is_double (v x : Z) : bool := Qeq_bool (F64.of_Z v) (inject_Z x).

(** The decimals with [k] significant digits next to [x], which has
    [n0] digits. *)
Definition shortest_at (x n0 k : Z) : option Z :=
  let p := 10 ^ (n0 - k) in
  let lo := x `div` p * p in
  let hi := lo + p in
  match is_double lo x, is_double hi x with
  | true, true =>
      Some (if decide (x - lo < hi - x) then lo
            else if decide (hi - x < x - lo) then hi
            else if Z.even (x `div` p) then lo else hi)
  | true, false => Some lo
  | false, true => Some hi
  | false, false => None
  end.

Fixpoint shortest_from (fuel : nat) (x n0 k : Z) : Z :=
  match fuel with
  | O => x
  | S fuel =>
      if decide (n0 < k) then x
      else match shortest_at x n0 k with
           | Some v => v
           | None => shortest_from fuel x n0 (k + 1)
           end
  end.

(** Seventeen significant digits always suffice. *)
Definition shortest (x : Z) : Z :=
  shortest_from 17 x (Z.of_nat (String.length (pretty x))) 1.

Fixpoint strip_zeros (s : string) : string :=
  match s with
  | EmptyString => EmptyString
  | String a s' =>
      match strip_zeros s' with
      | EmptyString =>
          if decide (a = "0"%char) then EmptyString else String a EmptyString
      | r => String a r
      end
  end.

(** [d.ddd...e+n] *)
Definition exponential (v : Z) : string :=
  let ds := pretty v in
  let n := pretty (Z.of_nat (String.length ds) - 1) in
  match strip_zeros ds with
  | EmptyString => "0"
  | String d EmptyString => String d EmptyString +:+ "e+" +:+ n
  | String d rest => String d EmptyString +:+ "." +:+ rest +:+ "e+" +:+ n
  end.

Definition print_nat (z : Z) : string :=
  if decide (z < 2 ^ 53) then pretty z
  else
    let x := Qfloor (F64.of_Z z) in
    if decide (2 ^ 1024 ≤ x) then "Infinity"
    else
      let v := shortest x in
      if decide (v < 10 ^ 21) then pretty v else exponential v.

Definition number_toString (z : Z) : string :=
  if decide (z < 0) then "-" +:+ print_nat (- z) else print_nat z.

(** *** ToString

    An object is converted by its [toString] method.  An array has
    [Array.prototype.toString], which joins the conversions of the
    elements, [null] and [undefined] printing as the empty string.  An
    object without a property [toString] of its own has
    [Object.prototype.toString].  An own property [toString] of a
    parsed object hides that method and is not callable; [valueOf],
    own or inherited, gives no primitive either: the conversion throws
    a [TypeError]. *)
Fixpoint toString (v : jsval) : exc string :=
  match v with
  | VUndef => Ok "undefined"
  | VNull => Ok "null"
  | VBool true => Ok "true"
  | VBool false => Ok "false"
  | VNum z => Ok (number_toString z)
  | VStr s => Ok s
  | VArr l =>
      let! parts :=
        (fix join (l : list jsval) : exc (list string) :=
           match l with
           | [] => Ok []
           | e :: l =>
               let! s := match e with
                         | VUndef | VNull => Ok ""
                         | _ => toString e
                         end in
               let! r := join l in
               Ok (s :: r)
           end) l in
      Ok (join_comma parts)
  | VObj m =>
      match m !! "toString" with
      | Some _ => Throw TypeError
      | None => Ok "[object Object]"
      end
  end.

(** ToPropertyKey, as applied by a computed property name [[e]] and by
    an index expression [o[e]]. *)
Definition toPropertyKey (v : jsval) : exc string := toString v.

(** The result of a division followed by [Math.round]: an integer, or
    what JavaScript gives when the divisor is zero. *)
Inductive jsnum :=
  | Finite (z : Z)
  | NaN
  | PosInf
  | NegInf.

Global Instance jsnum_eq_dec : EqDecision jsnum.
Proof. solve_decision. Defined.

(** [Math.round(a / b)]: the integer nearest to the quotient, ties
    towards +infinity.  The quotient is taken exactly; rounding it to a
    double first makes no difference for a dividend below 2^52.  The
    divisor is a length, so it is never negative zero. *)
Definition round_div (a b : Z) : jsnum :=
  if decide (b = 0) then
    if decide (a = 0) then NaN
    else if decide (0 < a) then PosInf else NegInf
  else if decide (0 < b) then Finite ((2 * a + b) `div` (2 * b))
  else Finite ((2 * (- a) + (- b)) `div` (2 * (- b))).

(** [Math.round((a / b) * 100)] on doubles.  With a divisor 0 the
    quotient is [NaN] or an infinity, and so is the result (the zero is
    taken to be +0; with -0 the two infinities are exchanged). *)
Definition round_pct (a b : Z) : jsnum :=
  if decide (b = 0) then
    if decide (a = 0) then NaN
    else if decide (0 < a) then PosInf else NegInf
  else
    Finite (F64.round (F64.mul (F64.div (F64.of_Z a) (F64.of_Z b)) 100%Q)).

End Js.
Export Js.

(** ** [runRequest] *)

Module Executor.

(** What is handed to [axios]. *)
Record request := {
  method : jsval;
  url : jsval;
  headers : gmap string jsval;
  data : jsval;
}.

(** The callback of [reduce]: [(acc, h) => ({ ...acc, [h.key]: h.value })].
    The computed name is converted to a property key before the value
    is read. *)
Definition header_step (acc : gmap string jsval) (h : jsval)
  : exc (gmap string jsval) :=
  let! kv := get h "key" in
  let! k := toPropertyKey kv in
  let! v := get h "value" in
  Ok (<[k := v]> acc).

Fixpoint reduce (l : list jsval) (acc : gmap string jsval)
  : exc (gmap string jsval) :=
  match l with
  | [] => Ok acc
  | h :: l => let! acc' := header_step acc h in reduce l acc'
  end.

(** [(req.header || []).reduce(..., {})].  A truthy [header] that is not
    an array has no [reduce] method: calling it is a [TypeError]. *)
Definition reduce_headers (header : jsval) : exc (gmap string jsval) :=
  match or_else header (VArr []) with
  | VArr l => reduce l ∅
  | _ => Throw TypeError
  end.

(** The statements of [runRequest] before [Date.now()]: they run
    outside the [try] block. *)
Definition resolve (item : jsval) : exc request :=
  let! req := get item "request" in
  let! u := get req "url" in
  let! url := match u with VStr _ => Ok u | _ => get u "raw" end in
  let! m := get req "method" in
  let! h := get req "header" in
  let! headers := reduce_headers h in
  let! b := get req "body" in
  let! raw := match b with VUndef | VNull => Ok VUndef | _ => get b "raw" end in
  Ok {| method := or_else m (VStr "GET");
        url := url;
        headers := headers;
        data := or_else raw VNull |}.

(** How the promise returned by [axios] settles.  With
    [validateStatus: () => true] every received response resolves it,
    whatever its status; a timeout, a refused connection, a DNS or TLS
    failure rejects it. *)
Inductive settled :=
  | Responded (status : Z)
  | Rejected.

Record result := {
  name : jsval;
  status : Z;
  duration : Z;
  success : bool;
}.

(** The [try] / [catch] of [runRequest], given the readings [start] and
    [now] of [Date.now()] before the call and after it settled. *)
Definition settle (item_name : jsval) (o : settled) (start now : Z) : result :=
  match o with
  | Responded st =>
      {| name := item_name;
         status := st;
         duration := now - start;
         success := bool_decide (200 ≤ st) && bool_decide (st < 400) |}
  | Rejected =>
      {| name := item_name;
         status := 0;
         duration := now - start;
         success := false |}
  end.

Definition runRequest (item : jsval) (o : settled) (start now : Z) : exc result :=
  let! _ := resolve item in
  let! n := get item "name" in
  Ok (settle n o start now).

(** The property name under which the fold files the entry [h]. *)
Definition filed_under (h : jsval) (k : string) : Prop :=
  ∃ kv, get h "key" = Ok kv ∧ toPropertyKey kv = Ok k.

(** An entry the fold can file: its [key] can be read and converts to
    a property name. *)
Definition fileable (h : jsval) : Prop := ∃ k, filed_under h k.

(** [undefined] and [null]: the two values no property can be read of. *)
Definition nullish (v : jsval) : Prop := v = VUndef ∨ v = VNull.

(** The property name under which [showSummary] files the results of
    the template [item]: the key of its [name], when it has one. *)
Definition key_of (item : jsval) : exc string :=
  let! n := get item "name" in toPropertyKey n.

End Executor.

(** ** [updateProgress] *)

Module Progress.

(** One line written on [process.stdout]. *)
Record line := {
  percentage : jsnum;
  filled : nat;          (* number of full blocks in the bar *)
  remaining : nat;       (* number of light blocks in the bar *)
  shown_completed : Z;
  shown_total : Z;
  last_line : bool;      (* [completedRequests === totalRequests] *)
}.

(** [Math.round((completedRequests / totalRequests) * 100)] *)
Definition percent (completedRequests totalRequests : Z) : jsnum :=
  round_pct completedRequests totalRequests.

(** [Math.floor(percentage / 2)] *)
Definition half (p : jsnum) : jsnum :=
  match p with
  | Finite z => Finite (z `div` 2)
  | other => other
  end.

(** [50 - x] *)
Definition fifty_minus (x : jsnum) : jsnum :=
  match x with
  | Finite z => Finite (50 - z)
  | NaN => NaN
  | PosInf => NegInf
  | NegInf => PosInf
  end.

(** [String.prototype.repeat(count)]: only the length of the result is
    kept.  A negative or infinite count is a [RangeError]; [NaN] counts
    as 0. *)
Definition repeat_count (count : jsnum) : exc nat :=
  match count with
  | Finite z => if decide (z < 0) then Throw RangeError else Ok (Z.to_nat z)
  | NaN => Ok 0%nat
  | PosInf | NegInf => Throw RangeError
  end.

Definition updateProgress (completedRequests totalRequests : Z) : exc line :=
  let percentage := percent completedRequests totalRequests in
  let! completed := repeat_count (half percentage) in
  let! remaining := repeat_count (fifty_minus (half percentage)) in
  Ok {| percentage := percentage;
        filled := completed;
        remaining := remaining;
        shown_completed := completedRequests;
        shown_total := totalRequests;
        last_line := bool_decide (completedRequests = totalRequests) |}.

End Progress.

(** ** [showSummary] *)

Module Summary.
Import Executor.

(** An entry of the [summary] object. *)
Record group := {
  times : list Z;
  errors : Z;
}.

(** [summary] is created by the literal [{}], so [summary[k]] also sees
    the properties of [Object.prototype].  All of them are truthy and
    none has a [times] array. *)
Definition inherited : list string :=
  [ "constructor"; "__proto__"; "hasOwnProperty"; "isPrototypeOf";
    "propertyIsEnumerable"; "toLocaleString"; "toString"; "valueOf";
    "__defineGetter__"; "__defineSetter__"; "__lookupGetter__";
    "__lookupSetter__" ].

(** The body of the first loop of [showSummary].  [summary[r.name]]
    converts the name to a property key; under an inherited key it finds
    a value without a [times] array, and [push] is called on
    [undefined]. *)
Definition tally (summary : gmap string group) (r : result)
  : exc (gmap string group) :=
  let! k := toPropertyKey (name r) in
  if decide (k ∈ inherited) then Throw TypeError
  else
    let g := default {| times := []; errors := 0 |} (summary !! k) in
    Ok (<[k := {| times := times g ++ [duration r];
                  errors := if success r then errors g else errors g + 1 |}]>
          summary).

Fixpoint tally_all (results : list result) (summary : gmap string group)
  : exc (gmap string group) :=
  match results with
  | [] => Ok summary
  | r :: results => let! summary' := tally summary r in tally_all results summary'
  end.

(** A line of the table. *)
Record row := {
  count : Z;
  row_errors : Z;
  avg : jsnum;
  max : jsnum;
  min : jsnum;
  p95 : option Z;        (* [None] is [undefined] *)
  successRate : jsnum;
}.

Definition sum (l : list Z) : Z := foldl Z.add 0 l.

(** [Math.max(...l)] and [Math.min(...l)].  The limit an engine puts
    on the number of arguments of a call is not modelled. *)
Definition maximum (l : list Z) : jsnum :=
  match l with
  | [] => NegInf
  | x :: l => Finite (foldl Z.max x l)
  end.

Definition minimum (l : list Z) : jsnum :=
  match l with
  | [] => PosInf
  | x :: l => Finite (foldl Z.min x l)
  end.

(** [[...l].sort((a, b) => a - b)] *)
Definition sort (l : list Z) : list Z := merge_sort Z.le l.

(** [Math.floor(0.95 * n)] *)
Definition p95_index (n : nat) : nat := Z.to_nat ((19 * Z.of_nat n) `div` 20).

(** The body of the second loop of [showSummary]. *)
Definition row_of (data : group) : row :=
  let count := Z.of_nat (length (times data)) in
  let total := sum (times data) in
  let sorted := sort (times data) in
  {| count := count;
     row_errors := errors data;
     avg := round_div total count;
     max := maximum (times data);
     min := minimum (times data);
     p95 := sorted !! p95_index (length sorted);
     successRate := round_pct (count - errors data) count |}.

Record report := {
  rows : gmap string row;
  totalRequests : Z;
  totalErrors : Z;
  globalSuccessRate : jsnum;
  globalAvgTime : jsnum;
}.

Definition showSummary (results : list result) : exc report :=
  let! summary := tally_all results ∅ in
  let totalRequests := Z.of_nat (length results) in
  let totalErrors := map_fold (λ _ data acc, acc + errors data) 0 summary in
  let allTimes := duration <$> results in
  Ok {| rows := row_of <$> summary;
        totalRequests := totalRequests;
        totalErrors := totalErrors;
        globalSuccessRate := round_pct (totalRequests - totalErrors) totalRequests;
        globalAvgTime := round_div (sum allTimes) (Z.of_nat (length allTimes)) |}.

(** The results filed under the property name [k], in arrival order. *)
Definition named (k : string) (results : list result) : list result :=
  filter (λ r, toPropertyKey (name r) = Ok k) results.

(** A name under which no result can be filed: it does not convert to
    a property key, or to one that [Object.prototype] defines. *)
Definition unfileable (v : jsval) : Prop :=
  ∀ k, toPropertyKey v = Ok k → k ∈ inherited.

Definition failures (rs : list result) : Z :=
  Z.of_nat (length (filter (λ r, success r = false) rs)).

(** The entry of [summary] once the results [rs] were added to it. *)
Definition extend (g : option group) (rs : list result) : option group :=
  match rs with
  | [] => g
  | _ =>
      let g0 := default {| times := []; errors := 0 |} g in
      Some {| times := times g0 ++ (duration <$> rs);
              errors := errors g0 + failures rs |}
  end.

(** The report of a run without results. *)
Definition empty_report : report :=
  {| rows := ∅;
     totalRequests := 0;
     totalErrors := 0;
     globalSuccessRate := NaN;
     globalAvgTime := NaN |}.

End Summary.

(** ** [simulateLoad] *)

Module Load.
Import Executor Progress Summary.

(** The configuration as [simulateLoad] reads it: three numbers. *)
Record RunConfig := {
  collectionPath : string;
  users : Z;
  repetitions : Z;
  delayMsBetweenUsers : Z;
}.

(** [json.item || []] *)
Definition loadCollection (json : jsval) : exc jsval :=
  let! item := get json "item" in
  Ok (or_else item (VArr [])).

(** Where the callback of one virtual user stands. *)
Inductive task :=
  | Waiting                     (* its timer has not fired *)
  | Awaiting (r : nat) (i : nat)
      (* suspended at [await runRequest(item)], in repetition [r], on
         the item of index [i] *)
  | Done                        (* [resolve()] was called *)
  | Failed (e : js_error).
      (* the callback threw: its promise is rejected and [resolve()] is
         never called *)

Record state := {
  results : list result;
  completedRequests : Z;
  console : list line;
  tasks : list task;
}.

(** What the environment decides: which timer fires, which pending
    request settles, how, and what [Date.now()] read before and after. *)
Inductive event :=
  | Timer (u : nat)
  | Settles (u : nat) (o : settled) (start now : Z).

(** The engine, for a configuration and the array of templates that
    [loadCollection] returned. *)
Section engine.
Variable config : RunConfig.
Variable collection : list jsval.

Definition totalRequests : Z :=
  users config * repetitions config * Z.of_nat (length collection).

(** [Array.from({ length: config.users })]: a negative length is 0. *)
Definition init : state :=
  {| results := [];
     completedRequests := 0;
     console := [];
     tasks := replicate (Z.to_nat (users config)) Waiting |}.

(** Control reaches [await runRequest(item)]: the statements of
    [runRequest] before the call to [axios] run at once. *)
Definition issue (item : jsval) (r i : nat) : task :=
  match resolve item with
  | Ok _ => Awaiting r i
  | Throw e => Failed e
  end.

(** The timer of a user fires: the two [for] loops are entered. *)
Definition enter : task :=
  if decide (0 < repetitions config) then
    match collection with
    | [] => Done
    | item :: _ => issue item 0 0
    end
  else Done.

(** The loops after the request on item [i] in repetition [r]. *)
Definition next (r i : nat) : task :=
  match collection !! S i with
  | Some item => issue item r (S i)
  | None =>
      if decide (Z.of_nat (S r) < repetitions config) then
        match collection with
        | [] => Done
        | item :: _ => issue item (S r) 0
        end
      else Done
  end.

(** The body of the inner loop once the awaited request settled:
    [results.push(result); completedRequests++; updateProgress()]. *)
Definition resume (s : state) (u r i : nat) (res : result) : state :=
  let completed := completedRequests s + 1 in
  match updateProgress completed totalRequests with
  | Ok l =>
      {| results := results s ++ [res];
         completedRequests := completed;
         console := console s ++ [l];
         tasks := <[u := next r i]> (tasks s) |}
  | Throw e =>
      {| results := results s ++ [res];
         completedRequests := completed;
         console := console s;
         tasks := <[u := Failed e]> (tasks s) |}
  end.

(** One turn of the event loop.  An event that is not enabled (no such
    user, timer already fired, no pending request) changes nothing. *)
Definition step (s : state) (ev : event) : state :=
  match ev with
  | Timer u =>
      match tasks s !! u with
      | Some Waiting =>
          {| results := results s;
             completedRequests := completedRequests s;
             console := console s;
             tasks := <[u := enter]> (tasks s) |}
      | _ => s
      end
  | Settles u o start now =>
      match tasks s !! u with
      | Some (Awaiting r i) =>
          match collection !! i with
          | Some item =>
              match runRequest item o start now with
              | Ok res => resume s u r i res
              | Throw _ => s
              end
          | None => s
          end
      | _ => s
      end
  end.

Definition run (evs : list event) : state := foldl step init evs.

(** [await Promise.all(tasks)] returns: every user called [resolve()]. *)
Definition all_done (s : state) : bool :=
  forallb (λ t, match t with Done => true | _ => false end) (tasks s).

(** [simulateLoad]: [None] while [Promise.all] is still pending at the
    end of the schedule. *)
Definition simulateLoad (evs : list event) : option (exc report) :=
  let s := run evs in
  if all_done s then Some (showSummary (results s)) else None.

(** *** The invariant of the engine

    [n] users, [R] repetitions and [L] templates, as natural numbers. *)

Local Abbreviation n := (Z.to_nat (users config)).
Local Abbreviation R := (Z.to_nat (repetitions config)).
Local Abbreviation L := (length collection).

(** Every item up to index [i] passes the resolution of [runRequest]. *)
Definition resolves_upto (i : nat) : Prop :=
  ∀ j item, (j ≤ i)%nat → collection !! j = Some item → returns (resolve item).

(** [ok t c]: a user standing at [t] has had [c] requests settled. *)
Definition ok (t : task) (c : nat) : Prop :=
  match t with
  | Waiting => c = 0%nat
  | Awaiting r i =>
      c = (r * L + i)%nat ∧ (r < R)%nat ∧ (i < L)%nat ∧ resolves_upto i
  | Done =>
      c = (R * L)%nat
      ∧ ((0 < R)%nat → Forall (λ item, returns (resolve item)) collection)
  | Failed _ => (c < R * L)%nat
  end.

(** What holds between any two turns of the event loop. *)
Record inv (s : state) : Prop := {
  inv_completed : completedRequests s = Z.of_nat (length (results s));
  inv_console : length (console s) = length (results s);
  inv_lines : ∀ k l, console s !! k = Some l →
    updateProgress (Z.of_nat (S k)) totalRequests = Ok l;
  inv_tasks : length (tasks s) = n;
  inv_count : ∃ cnt, Forall2 ok (tasks s) cnt
    ∧ length (results s) = sum_list cnt;
  inv_names : ∀ res, res ∈ results s →
    ∃ item, item ∈ collection ∧ get item "name" = Ok (name res)
      ∧ returns (resolve item);
}.

(** A user that is running or has finished. *)
Definition live (t : task) : Prop :=
  match t with
  | Awaiting _ _ | Done => True
  | Waiting | Failed _ => False
  end.

Definition session (u : nat) : list event :=
  Timer u :: replicate (R * L) (Settles u (Responded 200) 0 0).

Definition one_by_one : list event := concat (session <$> seq 0 n).

(** *** Counting per name

    [hits k l]: how many templates of [l] have their results filed
    under [k]. *)
Definition hits (k : string) (l : list jsval) : nat :=
  length (filter (λ item, key_of item = Ok k) l).

(** [filed k t c]: a user standing at [t] has had [c] results filed
    under [k]. *)
Definition filed (k : string) (t : task) (c : nat) : Prop :=
  match t with
  | Waiting => c = 0%nat
  | Awaiting r i => c = (r * hits k collection + hits k (take i collection))%nat
  | Done => c = (R * hits k collection)%nat
  | Failed _ => True
  end.

(** The results filed under [k] are those the users account for. *)
Definition tallied (k : string) (s : state) : Prop :=
  ∃ cnt, Forall2 (filed k) (tasks s) cnt
    ∧ length (named k (results s)) = sum_list cnt.

(** Every failed user failed with a [TypeError], and some template
    does not resolve. *)
Definition blamed (s : state) : Prop :=
  ∀ u e, tasks s !! u = Some (Failed e) →
    e = TypeError ∧ ∃ item, item ∈ collection ∧ resolve item = Throw TypeError.

End engine.

End Load.

(** ** [loadConfig] *)

Module Config.

Definition DEFAULT_CONFIG : gmap string jsval :=
  {[ "collectionPath" := VStr "./collection.json";
     "users" := VNum 10;
     "repetitions" := VNum 1;
     "delayMsBetweenUsers" := VNum 10 ]}.

(** What [loadConfig] finds at [./config.json]. *)
Inductive config_file :=
  | Missing                      (* [fs.existsSync] is false *)
  | Unusable                     (* reading or [JSON.parse] throws *)
  | Parsed (userConfig : jsval).

(** *** The elements of a string

    A spread string gives one property per UTF-16 code unit.  A
    character encoded on one, two or three bytes is one unit; a
    character encoded on four bytes is a pair of surrogates, two units,
    each of which is a string on its own, held as the three bytes of
    its generalised encoding.  A byte that begins no well-formed
    sequence (no string read from a file has one) counts as a unit. *)

Definition continuation (b : N) : bool := bool_decide (128 ≤ b < 192)%N.

Definition encode3 (u : N) : list N :=
  [ N.lor 224 (N.shiftr u 12);
    N.lor 128 (N.land (N.shiftr u 6) 63);
    N.lor 128 (N.land u 63) ]%N.

Fixpoint code_units (bs : list N) : list (list N) :=
  match bs with
  | [] => []
  | b0 :: bs1 =>
      match bs1 with
      | b1 :: bs2 =>
          if bool_decide (194 ≤ b0 < 224)%N && continuation b1
          then [b0; b1] :: code_units bs2
          else
            match bs2 with
            | b2 :: bs3 =>
                if bool_decide (224 ≤ b0 < 240)%N && continuation b1
                   && continuation b2
                then [b0; b1; b2] :: code_units bs3
                else
                  match bs3 with
                  | b3 :: bs4 =>
                      if bool_decide (240 ≤ b0 < 245)%N && continuation b1
                         && continuation b2 && continuation b3
                      then
                        let cp :=
                          (N.lor (N.shiftl (N.land b0 7) 18)
                             (N.lor (N.shiftl (N.land b1 63) 12)
                                (N.lor (N.shiftl (N.land b2 63) 6)
                                   (N.land b3 63))))%N in
                        let v := (cp - 65536)%N in
                        encode3 (55296 + N.shiftr v 10)%N
                          :: encode3 (56320 + N.land v 1023)%N
                          :: code_units bs4
                      else [b0] :: code_units bs1
                  | [] => [b0] :: code_units bs1
                  end
            | [] => [b0] :: code_units bs1
            end
      | [] => [[b0]]
      end
  end.

Definition bytes (s : string) : list N :=
  N_of_ascii <$> String.list_ascii_of_string s.

Definition of_bytes (bs : list N) : string :=
  String.string_of_list_ascii (ascii_of_N <$> bs).

Definition chars (s : string) : list jsval :=
  (λ u, VStr (of_bytes u)) <$> code_units (bytes s).

Definition indexed (l : list jsval) : gmap string jsval :=
  list_to_map (imap (λ i v, (pretty (Z.of_nat i), v)) l).

(** The own enumerable properties that [...v] copies. *)
Definition spread (v : jsval) : gmap string jsval :=
  match v with
  | VObj m => m
  | VArr l => indexed l
  | VStr s => indexed (chars s)
  | _ => ∅
  end.

(** [{ ...DEFAULT_CONFIG, ...userConfig }]: later properties win. *)
Definition loadConfig (f : config_file) : gmap string jsval :=
  match f with
  | Parsed userConfig => spread userConfig ∪ DEFAULT_CONFIG
  | Missing | Unusable => DEFAULT_CONFIG
  end.

(** The numeric view of a configuration object. *)
Definition as_run_config (c : gmap string jsval) : option Load.RunConfig :=
  match c !! "collectionPath", c !! "users", c !! "repetitions",
        c !! "delayMsBetweenUsers" with
  | Some (VStr p), Some (VNum u), Some (VNum r), Some (VNum d) =>
      Some {| Load.collectionPath := p; Load.users := u;
              Load.repetitions := r; Load.delayMsBetweenUsers := d |}
  | _, _, _, _ => None
  end.

End Config.

(** ** Evaluation on machine floats

    The same numeric expressions evaluated on the binary64 floats of
    the machine, as the JavaScript engine evaluates them, so that the
    definitions above can be compared with them on concrete inputs.
    Integers below 2^53 in absolute value convert exactly. *)

Module Ieee.
Import PrimFloat FloatOps SpecFloat.

Definition of_Z (z : Z) : float :=
  if decide (0 ≤ z) then PrimFloat.of_uint63 (Uint63.of_Z z)
  else PrimFloat.opp (PrimFloat.of_uint63 (Uint63.of_Z (- z))).

Definition signed (s : bool) (m : positive) : Z :=
  if s then Z.neg m else Z.pos m.

(** [Math.floor] *)
Definition floor (x : float) : jsnum :=
  match Prim2SF x with
  | S754_zero _ => Finite 0
  | S754_infinity false => PosInf
  | S754_infinity true => NegInf
  | S754_nan => NaN
  | S754_finite s m e =>
      Finite (if decide (0 ≤ e) then signed s m * 2 ^ e
              else signed s m `div` 2 ^ (- e))
  end.

(** [Math.round]: the nearest integer, ties towards +infinity. *)
Definition round (x : float) : jsnum :=
  match Prim2SF x with
  | S754_zero _ => Finite 0
  | S754_infinity false => PosInf
  | S754_infinity true => NegInf
  | S754_nan => NaN
  | S754_finite s m e =>
      Finite (if decide (0 ≤ e) then signed s m * 2 ^ e
              else (2 * signed s m + 2 ^ (- e)) `div` 2 ^ (1 - e))
  end.

(** [Math.round((completedRequests / totalRequests) * 100)] *)
Definition percent_f64 (completedRequests totalRequests : Z) : jsnum :=
  round (PrimFloat.mul
           (PrimFloat.div (of_Z completedRequests) (of_Z totalRequests))
           (of_Z 100)).

(** The double nearest to 0.95. *)
Definition c095 : float := 0x1.e666666666666p-1%float.

(** [Math.floor(0.95 * n)] *)
Definition p95_index_f64 (n : nat) : jsnum :=
  floor (PrimFloat.mul c095 (of_Z (Z.of_nat n))).

(** [Math.round(a / b)] *)
Definition round_div_f64 (a b : Z) : jsnum :=
  round (PrimFloat.div (of_Z a) (of_Z b)).

(** Comparisons with the definitions above, as checks that compute. *)

Definition p95_index_agrees (n : nat) : bool :=
  bool_decide (p95_index_f64 n = Finite (Z.of_nat (Summary.p95_index n))).

Definition percent_agrees (c t : Z) : bool :=
  bool_decide (percent_f64 c t = Progress.percent c t).

(** For the total [t]: every count from 0 to [t + 5]. *)
Definition percent_agrees_upto (t : nat) : bool :=
  forallb (λ c : nat, percent_agrees (Z.of_nat c) (Z.of_nat t)) (seq 0 (t + 6)).

(** For the divisor [b]: every dividend from 0 to 5 [b]. *)
Definition round_div_agrees_upto (b : nat) : bool :=
  forallb
    (λ a : nat,
       bool_decide (round_div_f64 (Z.of_nat a) (Z.of_nat b)
                    = round_div (Z.of_nat a) (Z.of_nat b)))
    (seq 0 (5 * b + 1)).

(** The rational a finite machine float stands for. *)
Definition to_Q (x : float) : option Q :=
  match Prim2SF x with
  | S754_zero _ => Some 0%Q
  | S754_finite s m e => Some (inject_Z (signed s m) * F64.pow2 e)%Q
  | _ => None
  end.

Definition same (x : float) (q : Q) : bool :=
  match to_Q x with
  | Some r => Qeq_bool r q
  | None => false
  end.

(** The quotient [a / b] and the product [(a / b) * 100], before
    [Math.round]. *)
Definition quotient_agrees (a b : Z) : bool :=
  same (PrimFloat.div (of_Z a) (of_Z b)) (F64.div (F64.of_Z a) (F64.of_Z b))
  && same (PrimFloat.mul (PrimFloat.div (of_Z a) (of_Z b)) (of_Z 100))
          (F64.mul (F64.div (F64.of_Z a) (F64.of_Z b)) 100%Q).

Definition quotient_agrees_upto (b : nat) : bool :=
  forallb (λ a : nat, quotient_agrees (Z.of_nat a) (Z.of_nat b)) (seq 0 41).

(** Larger counts, and counts out of range. *)
Definition percent_points : list (Z * Z) :=
  [ (999999, 1000000); (123456789, 987654321); (2 ^ 40 + 1, 2 ^ 41 + 3);
    (2 ^ 52 - 1, 2 ^ 52 + 1); (7, 2 ^ 53 - 1); (203, 200); (2003, 2000);
    (-1, 200); (-3, 200); (-29, 200); (5, -7); (-5, -7); (1, 0); (-1, 0) ].

End Ieee.

(** ** Sample inputs *)

Module Samples.

Definition ping : jsval :=
  VObj {[ "name" := VStr "ping";
          "request" := VObj {[ "method" := VStr "GET";
                               "url" := VStr "http://example.test/ok" ]} ]}.

Definition header (k v : string) : jsval :=
  VObj {[ "key" := VStr k; "value" := VStr v ]}.

Definition unkeyed (v : string) : jsval := VObj {[ "value" := VStr v ]}.

(** An object that cannot be converted to a string, and a header entry
    with any key. *)
Definition stringly : jsval := VObj {[ "toString" := VStr "x" ]}.

Definition keyed (k : jsval) (v : string) : jsval :=
  VObj {[ "key" := k; "value" := VStr v ]}.

Definition out_of_range : gmap string jsval :=
  {[ "users" := VNum (-5); "repetitions" := VNum 0;
     "delayMsBetweenUsers" := VNum (-1) ]}.

(** A template without a [request] field. *)
Definition norequest : jsval := VObj {[ "name" := VStr "broken" ]}.

Definition users_times (u r : Z) : Load.RunConfig :=
  {| Load.collectionPath := "./collection.json";
     Load.users := u;
     Load.repetitions := r;
     Load.delayMsBetweenUsers := 0 |}.

(** Two users, one request each, answered in the reverse order. *)
Definition both_answer : list Load.event :=
  [ Load.Timer 0; Load.Timer 1;
    Load.Settles 1 (Executor.Responded 200) 0 50;
    Load.Settles 0 (Executor.Responded 200) 0 50 ].

(** Three users started, two of them answered. *)
Definition two_of_three : list Load.event :=
  [ Load.Timer 0; Load.Timer 1; Load.Timer 2;
    Load.Settles 0 (Executor.Responded 200) 0 50;
    Load.Settles 1 (Executor.Responded 200) 0 50 ].

(** Two results of one template: a success and a transport failure. *)
Definition two_pings : list Executor.result :=
  [ {| Executor.name := VStr "ping"; Executor.status := 200;
       Executor.duration := 50; Executor.success := true |};
    {| Executor.name := VStr "ping"; Executor.status := 0;
       Executor.duration := 70; Executor.success := false |} ].

(** Two templates with the same name and one with another. *)
Definition pong : jsval :=
  VObj {[ "name" := VStr "pong";
          "request" := VObj {[ "url" := VObj {[ "raw" := VStr "http://example.test/pong" ]} ]} ]}.

Definition ping_pong_ping : list jsval := [ping; pong; ping].

End Samples.

(** * Properties *)

(** ** Rounding to doubles *)

Module F64Facts.
Import F64.
Local Open Scope Q_scope.

Lemma pow2_pos e : 0 < pow2 e.
Proof. apply Qpower_0_lt. reflexivity. Qed.

Lemma pow2_succ e : pow2 (e + 1) == 2 * pow2 e.
Proof. unfold pow2. rewrite Qpower_plus by discriminate. simpl. ring. Qed.

Lemma pow2_lt a b : (a < b)%Z -> pow2 a < pow2 b.
Proof. intros. apply Qpower_lt_compat_l; [assumption|reflexivity]. Qed.

Lemma pow2_le a b : (a <= b)%Z -> pow2 a <= pow2 b.
Proof. intros. apply Qpower_le_compat_l; [assumption|discriminate]. Qed.

Lemma pow2_lt_inv a b : pow2 a < pow2 b -> (a < b)%Z.
Proof.
  intros H. destruct (Z_lt_le_dec a b) as [|Hle]; [assumption|].
  apply pow2_le in Hle. lra.
Qed.

Lemma pow2_Z n : (0 <= n)%Z -> pow2 n == inject_Z (2 ^ n).
Proof. intros. unfold pow2. rewrite Zpower_Qpower by assumption. reflexivity. Qed.

Lemma pow2_sub a b : pow2 (a - b) == pow2 a / pow2 b.
Proof. unfold pow2. apply Qpower_minus. discriminate. Qed.

Lemma pow2_add a b : pow2 (a + b) == pow2 a * pow2 b.
Proof. unfold pow2. apply Qpower_plus. discriminate. Qed.

Lemma frac_le (A B C D : Z) :
  (0 < B)%Z -> (0 < D)%Z -> (A * D <= C * B)%Z ->
  inject_Z A / inject_Z B <= inject_Z C / inject_Z D.
Proof.
  intros HB HD H.
  assert (0 < inject_Z B) by (rewrite <- (Zlt_Qlt 0); assumption).
  assert (0 < inject_Z D) by (rewrite <- (Zlt_Qlt 0); assumption).
  apply Qle_shift_div_r; [assumption|].
  unfold Qdiv. rewrite <- Qmult_assoc, (Qmult_comm (/ _)), Qmult_assoc.
  apply Qle_shift_div_l; [assumption|].
  rewrite <- !inject_Z_mult, <- Zle_Qle. assumption.
Qed.

Lemma frac_lt (A B C D : Z) :
  (0 < B)%Z -> (0 < D)%Z -> (A * D < C * B)%Z ->
  inject_Z A / inject_Z B < inject_Z C / inject_Z D.
Proof.
  intros HB HD H.
  assert (0 < inject_Z B) by (rewrite <- (Zlt_Qlt 0); assumption).
  assert (0 < inject_Z D) by (rewrite <- (Zlt_Qlt 0); assumption).
  apply Qlt_shift_div_r; [assumption|].
  unfold Qdiv. rewrite <- Qmult_assoc, (Qmult_comm (/ _)), Qmult_assoc.
  apply Qlt_shift_div_l; [assumption|].
  rewrite <- !inject_Z_mult, <- Zlt_Qlt. assumption.
Qed.

Lemma ilog2_spec x : 0 < x -> pow2 (ilog2 x) <= x /\ x < pow2 (ilog2 x + 1).
Proof.
  destruct x as [n d]. intros Hx. unfold ilog2. simpl Qnum. simpl Qden.
  assert (0 < n)%Z as Hn.
  { unfold Qlt in Hx. simpl in Hx. lia. }
  set (s := (Z.log2 (Z.pos d) + 1)%Z).
  set (u := (n * 2 ^ s / Z.pos d)%Z).
  assert (0 <= Z.log2 (Z.pos d))%Z as Hld by apply Z.log2_nonneg.
  assert (0 < s)%Z as Hs by (subst s; lia).
  destruct (Z.log2_spec (Z.pos d)) as [_ Hd]; [lia|].
  replace (Z.succ (Z.log2 (Z.pos d))) with s in Hd by (subst s; lia).
  assert (0 < 2 ^ s)%Z as H2s by (apply Z.pow_pos_nonneg; lia).
  assert (u * Z.pos d <= n * 2 ^ s)%Z as Hu1.
  { subst u. rewrite Z.mul_comm. apply Z.mul_div_le. lia. }
  assert (n * 2 ^ s < (u + 1) * Z.pos d)%Z as Hu2.
  { subst u.
    pose proof (Z.mul_succ_div_gt (n * 2 ^ s) (Z.pos d) ltac:(lia)) as Hg.
    rewrite <- Z.add_1_r in Hg. lia. }
  assert (1 <= u)%Z as Hu.
  { destruct (Z_lt_le_dec u 1) as [Hlt|]; [|assumption]. nia. }
  destruct (Z.log2_spec u) as [Hl1 Hl2]; [lia|].
  set (l := Z.log2 u) in *.
  assert (0 <= l)%Z as Hl by apply Z.log2_nonneg.
  replace (Z.succ l) with (l + 1)%Z in Hl2 by lia.
  assert (0 < 2 ^ l)%Z by (apply Z.pow_pos_nonneg; lia).
  assert (0 < 2 ^ (l + 1))%Z by (apply Z.pow_pos_nonneg; lia).
  assert (n # d == inject_Z n / inject_Z (Z.pos d)) as -> by apply Qmake_Qdiv.
  replace (l - s + 1)%Z with (l + 1 - s)%Z by lia.
  rewrite !pow2_sub, !pow2_Z by lia. split.
  - apply frac_le; [lia|lia|nia].
  - apply frac_lt; [lia|lia|nia].
Qed.

Lemma ilog2_unique x k :
  0 < x -> pow2 k <= x -> x < pow2 (k + 1) -> ilog2 x = k.
Proof.
  intros Hx H1 H2. destruct (ilog2_spec x Hx) as [H3 H4].
  assert (pow2 k < pow2 (ilog2 x + 1)) as Ha by lra.
  assert (pow2 (ilog2 x) < pow2 (k + 1)) as Hb by lra.
  apply pow2_lt_inv in Ha, Hb. lia.
Qed.

Lemma ilog2_comp x y : 0 < x -> x == y -> ilog2 x = ilog2 y.
Proof.
  intros Hx Hxy. symmetry. destruct (ilog2_spec x Hx) as [H1 H2].
  apply ilog2_unique; lra.
Qed.

Lemma ilog2_mono x y : 0 < x -> x <= y -> (ilog2 x <= ilog2 y)%Z.
Proof.
  intros Hx Hxy. destruct (ilog2_spec x Hx) as [H1 _].
  destruct (ilog2_spec y) as [_ H2]; [lra|].
  assert (pow2 (ilog2 x) < pow2 (ilog2 y + 1)) as H by lra.
  apply pow2_lt_inv in H. lia.
Qed.

(** *** Rounding to the nearest integer, ties to even *)

Lemma floor_spec u : inject_Z (Qfloor u) <= u /\ u < inject_Z (Qfloor u) + 1.
Proof.
  split; [apply Qfloor_le|].
  pose proof (Qlt_floor u) as H. rewrite inject_Z_plus in H. exact H.
Qed.

Lemma rne_floor u : (Qfloor u <= rne u <= Qfloor u + 1)%Z.
Proof.
  unfold rne. destruct (Qcompare _ _); [destruct (Z.even _)| |]; lia.
Qed.

Lemma rne_ge_int u k : inject_Z k <= u -> (k <= rne u)%Z.
Proof.
  intros H. apply Qfloor_resp_le in H. rewrite Qfloor_Z in H.
  pose proof (rne_floor u). lia.
Qed.

Lemma rne_le_int u k : u <= inject_Z k -> (rne u <= k)%Z.
Proof.
  intros H. pose proof (Qfloor_resp_le _ _ H) as Hf. rewrite Qfloor_Z in Hf.
  pose proof (rne_floor u) as Hr.
  destruct (Z_lt_le_dec (Qfloor u) k) as [Hlt|Hge]; [lia|].
  assert (Qfloor u = k) as Hq by lia.
  destruct (floor_spec u) as [H1 H2]. rewrite Hq in H1.
  unfold rne. rewrite Hq.
  destruct (Qcompare_spec (u - inject_Z k) (1 # 2)) as [He|Hl|Hg]; [lra|lia|lra].
Qed.

Lemma rne_int k : rne (inject_Z k) = k.
Proof.
  pose proof (rne_ge_int (inject_Z k) k ltac:(lra)).
  pose proof (rne_le_int (inject_Z k) k ltac:(lra)). lia.
Qed.

Lemma rne_mono u v : u <= v -> (rne u <= rne v)%Z.
Proof.
  intros H. pose proof (Qfloor_resp_le _ _ H) as Hf.
  pose proof (rne_floor u) as Hu. pose proof (rne_floor v) as Hv.
  destruct (Z_lt_le_dec (Qfloor u) (Qfloor v)) as [Hlt|Hge]; [lia|].
  assert (Qfloor v = Qfloor u) as Hq by lia.
  unfold rne. rewrite Hq.
  destruct (Qcompare_spec (u - inject_Z (Qfloor u)) (1 # 2)) as [He|Hl|Hg];
    destruct (Qcompare_spec (v - inject_Z (Qfloor u)) (1 # 2)) as [He'|Hl'|Hg'];
    try lra; try lia; destruct (Z.even (Qfloor u)); lia.
Qed.

Lemma rne_comp u v : u == v -> rne u = rne v.
Proof.
  intros H. pose proof (rne_mono u v ltac:(lra)).
  pose proof (rne_mono v u ltac:(lra)). lia.
Qed.

Lemma rne_err u :
  inject_Z (rne u) - u <= 1 # 2 /\ u - inject_Z (rne u) <= 1 # 2.
Proof.
  destruct (floor_spec u) as [H1 H2]. unfold rne.
  destruct (Qcompare_spec (u - inject_Z (Qfloor u)) (1 # 2)) as [He|Hl|Hg].
  - destruct (Z.even (Qfloor u)); rewrite ?inject_Z_plus;
      change (inject_Z 1) with 1; split; lra.
  - split; lra.
  - rewrite inject_Z_plus. change (inject_Z 1) with 1. split; lra.
Qed.

(** *** Rounding to 53 significant bits *)

Lemma scaled x :
  0 < x ->
  pow2 52 <= x / pow2 (ilog2 x - 52) /\ x / pow2 (ilog2 x - 52) < pow2 53.
Proof.
  intros Hx. destruct (ilog2_spec x Hx) as [H1 H2].
  pose proof (pow2_pos (ilog2 x - 52)) as He.
  assert (pow2 (ilog2 x) == pow2 52 * pow2 (ilog2 x - 52)) as Ha.
  { rewrite <- pow2_add. f_equiv. lia. }
  assert (pow2 (ilog2 x + 1) == pow2 53 * pow2 (ilog2 x - 52)) as Hb.
  { rewrite <- pow2_add. f_equiv. lia. }
  split.
  - apply Qle_shift_div_l; [assumption|]. rewrite <- Ha. assumption.
  - apply Qlt_shift_div_r; [assumption|]. rewrite <- Hb. assumption.
Qed.

Lemma rn_bounds x :
  0 < x -> pow2 (ilog2 x) <= rn x /\ rn x <= pow2 (ilog2 x + 1).
Proof.
  intros Hx. destruct (scaled x Hx) as [H1 H2].
  pose proof (pow2_pos (ilog2 x - 52)) as He.
  assert (pow2 (ilog2 x) == pow2 52 * pow2 (ilog2 x - 52)) as Ha.
  { rewrite <- pow2_add. f_equiv. lia. }
  assert (pow2 (ilog2 x + 1) == pow2 53 * pow2 (ilog2 x - 52)) as Hb.
  { rewrite <- pow2_add. f_equiv. lia. }
  unfold rn. cbv zeta. rewrite Ha, Hb.
  rewrite (pow2_Z 52), (pow2_Z 53) in * by lia.
  split; apply Qmult_le_compat_r; try lra; rewrite <- Zle_Qle.
  - apply rne_ge_int. assumption.
  - apply rne_le_int. lra.
Qed.

Lemma rn_pos x : 0 < x -> 0 < rn x.
Proof.
  intros Hx. destruct (rn_bounds x Hx) as [H _].
  pose proof (pow2_pos (ilog2 x)). lra.
Qed.

Lemma rn_mono x y : 0 < x -> x <= y -> rn x <= rn y.
Proof.
  intros Hx Hxy. assert (0 < y) as Hy by lra.
  pose proof (ilog2_mono x y Hx Hxy) as Hl.
  destruct (Z_lt_le_dec (ilog2 x) (ilog2 y)) as [Hlt|Hge].
  - destruct (rn_bounds x Hx) as [_ H1]. destruct (rn_bounds y Hy) as [H2 _].
    pose proof (pow2_le (ilog2 x + 1) (ilog2 y) ltac:(lia)). lra.
  - assert (ilog2 y = ilog2 x) as Heq by lia.
    unfold rn. cbv zeta. rewrite Heq.
    pose proof (pow2_pos (ilog2 x - 52)) as He.
    apply Qmult_le_compat_r; [|lra]. rewrite <- Zle_Qle. apply rne_mono.
    apply Qmult_le_compat_r; [assumption|].
    apply Qlt_le_weak, Qinv_lt_0_compat. assumption.
Qed.

Lemma rn_comp x y : 0 < x -> x == y -> rn x == rn y.
Proof.
  intros Hx Hxy.
  pose proof (rn_mono x y Hx ltac:(lra)).
  pose proof (rn_mono y x ltac:(lra) ltac:(lra)). lra.
Qed.

(** *** [fl] *)

Lemma fl_pos_eq x : 0 < x -> fl x = rn x.
Proof.
  intros Hx. unfold fl.
  destruct (Qcompare_spec x 0) as [H|H|H]; [lra|lra|reflexivity].
Qed.

Lemma fl_neg_eq x : x < 0 -> fl x = - rn (- x).
Proof.
  intros Hx. unfold fl.
  destruct (Qcompare_spec x 0) as [H|H|H]; [lra|reflexivity|lra].
Qed.

Lemma fl_zero x : x == 0 -> fl x = 0.
Proof.
  intros Hx. unfold fl.
  destruct (Qcompare_spec x 0) as [H|H|H]; [reflexivity|lra|lra].
Qed.

Lemma fl_pos x : 0 < x -> 0 < fl x.
Proof. intros Hx. rewrite (fl_pos_eq x Hx). apply rn_pos. assumption. Qed.

Lemma fl_neg x : x < 0 -> fl x < 0.
Proof.
  intros Hx. rewrite (fl_neg_eq x Hx).
  pose proof (rn_pos (- x) ltac:(lra)). lra.
Qed.

Lemma fl_mono x y : x <= y -> fl x <= fl y.
Proof.
  intros Hxy.
  destruct (Qlt_le_dec 0 x) as [Hx|Hx].
  - rewrite (fl_pos_eq x Hx), (fl_pos_eq y) by lra. apply rn_mono; assumption.
  - destruct (Qlt_le_dec x 0) as [Hx'|Hx'].
    + pose proof (fl_neg x Hx') as Hfx.
      destruct (Qlt_le_dec 0 y) as [Hy|Hy].
      * pose proof (fl_pos y Hy). lra.
      * destruct (Qlt_le_dec y 0) as [Hy'|Hy'].
        -- rewrite (fl_neg_eq x Hx'), (fl_neg_eq y Hy').
           pose proof (rn_mono (- y) (- x) ltac:(lra) ltac:(lra)). lra.
        -- rewrite (fl_zero y) by lra. lra.
    + rewrite (fl_zero x) by lra.
      destruct (Qlt_le_dec 0 y) as [Hy|Hy].
      * pose proof (fl_pos y Hy). lra.
      * rewrite (fl_zero y) by lra. lra.
Qed.

Lemma fl_comp x y : x == y -> fl x == fl y.
Proof.
  intros Hxy. pose proof (fl_mono x y ltac:(lra)).
  pose proof (fl_mono y x ltac:(lra)). lra.
Qed.

Lemma round_mono x y : x <= y -> (round x <= round y)%Z.
Proof. intros H. apply Qfloor_resp_le. lra. Qed.

Lemma round_comp x y : x == y -> round x = round y.
Proof. intros H. unfold round. rewrite H. reflexivity. Qed.

Lemma round_int k : round (inject_Z k) = k.
Proof.
  unfold round. destruct (floor_spec (inject_Z k + (1 # 2))) as [H1 H2].
  set (q := Qfloor (inject_Z k + (1 # 2))) in *.
  assert (inject_Z q < inject_Z (k + 1)) as Ha.
  { rewrite inject_Z_plus. change (inject_Z 1) with 1. lra. }
  assert (inject_Z (k - 1) < inject_Z q) as Hb.
  { unfold Z.sub. rewrite inject_Z_plus. change (inject_Z (- (1))) with (- (1)). lra. }
  rewrite <- Zlt_Qlt in Ha, Hb. lia.
Qed.

Lemma inj_pos n : (0 < n)%Z -> 0 < inject_Z n.
Proof. intros H. change 0 with (inject_Z 0). rewrite <- Zlt_Qlt. assumption. Qed.

Lemma inj_neg n : (n < 0)%Z -> inject_Z n < 0.
Proof. intros H. change 0 with (inject_Z 0). rewrite <- Zlt_Qlt. assumption. Qed.

Lemma inj_nonneg n : (0 <= n)%Z -> 0 <= inject_Z n.
Proof. intros H. change 0 with (inject_Z 0). rewrite <- Zle_Qle. assumption. Qed.

(** *** The relative error of a rounding *)

Lemma rn_err x :
  0 < x -> x * (1 - eps) <= rn x /\ rn x <= x * (1 + eps).
Proof.
  intros Hx. destruct (ilog2_spec x Hx) as [Hl _].
  set (e := (ilog2 x - 52)%Z).
  pose proof (pow2_pos e) as He.
  set (u := x / pow2 e).
  assert (x == u * pow2 e) as Hxu.
  { subst u. field. lra. }
  destruct (rne_err u) as [H1 H2].
  assert (pow2 (ilog2 x) == pow2 52 * pow2 e) as Ha.
  { rewrite <- pow2_add. f_equiv. subst e. lia. }
  assert (pow2 52 == 4503599627370496) as H52 by (vm_compute; reflexivity).
  assert (pow2 e <= 2 * eps * x) as Hb.
  { rewrite H52 in Ha. unfold eps. lra. }
  unfold rn. cbv zeta. fold e. fold u.
  assert ((inject_Z (rne u) - u) * pow2 e <= (1 # 2) * pow2 e) as Hc.
  { apply Qmult_le_compat_r; lra. }
  assert ((u - inject_Z (rne u)) * pow2 e <= (1 # 2) * pow2 e) as Hd.
  { apply Qmult_le_compat_r; lra. }
  split; lra.
Qed.

Lemma fl_err x :
  0 <= x -> x * (1 - eps) <= fl x /\ fl x <= x * (1 + eps).
Proof.
  intros Hx. destruct (Qlt_le_dec 0 x) as [Hpos|Hz].
  - rewrite (fl_pos_eq x Hpos). apply rn_err. assumption.
  - rewrite (fl_zero x) by lra. unfold eps. split; lra.
Qed.

Lemma pow2_neg e : pow2 (- e) == / pow2 e.
Proof. unfold pow2. apply Qpower_opp. Qed.

(** Numbers of at most 53 significant bits are doubles. *)
Lemma rn_dyadic m k :
  (0 < m < 2 ^ 53)%Z -> rn (inject_Z m * pow2 k) == inject_Z m * pow2 k.
Proof.
  intros Hm. set (x := inject_Z m * pow2 k).
  pose proof (pow2_pos k) as Hk. pose proof (inj_pos m ltac:(lia)) as Hm0.
  assert (0 < x) as Hx by (subst x; apply Qmult_lt_0_compat; assumption).
  destruct (ilog2_spec x Hx) as [H1 _].
  assert (x < pow2 (53 + k)) as Hhi.
  { rewrite pow2_add, (pow2_Z 53) by lia. subst x.
    apply Qmult_lt_compat_r; [assumption|]. rewrite <- Zlt_Qlt. lia. }
  assert (pow2 (ilog2 x) < pow2 (53 + k)) as Ha by lra.
  apply pow2_lt_inv in Ha.
  unfold rn. cbv zeta. set (e := (ilog2 x - 52)%Z).
  pose proof (pow2_pos e) as He.
  assert (pow2 k == pow2 (k - e) * pow2 e) as Hke.
  { rewrite <- pow2_add. f_equiv. lia. }
  assert (x / pow2 e == inject_Z (m * 2 ^ (k - e))) as Hu.
  { rewrite inject_Z_mult, <- pow2_Z by (subst e; lia).
    subst x. rewrite Hke. field. lra. }
  rewrite (rne_comp _ _ Hu), rne_int.
  rewrite inject_Z_mult, <- pow2_Z by (subst e; lia).
  subst x. rewrite Hke. ring.
Qed.

Lemma rn_int n :
  (0 < n < 2 ^ 53)%Z -> rn (inject_Z n) == inject_Z n.
Proof.
  intros Hn. pose proof (inj_pos n ltac:(lia)) as Hpos.
  assert (inject_Z n == inject_Z n * pow2 0) as Hx by (unfold pow2; simpl; ring).
  rewrite (rn_comp _ _ Hpos Hx) at 1. rewrite rn_dyadic by assumption.
  symmetry. exact Hx.
Qed.

Lemma of_Z_exact n : (Z.abs n < 2 ^ 53)%Z -> of_Z n == inject_Z n.
Proof.
  intros Hn. unfold of_Z.
  destruct (Z.lt_trichotomy n 0) as [Hlt|[->|Hgt]].
  - assert (inject_Z n < 0) as Hx by (apply inj_neg; lia).
    rewrite (fl_neg_eq _ Hx), <- inject_Z_opp, rn_int by lia.
    rewrite inject_Z_opp. ring.
  - reflexivity.
  - assert (0 < inject_Z n) as Hx by (apply inj_pos; lia).
    rewrite (fl_pos_eq _ Hx). apply rn_int. lia.
Qed.

Lemma of_Z_mono a b : (a <= b)%Z -> of_Z a <= of_Z b.
Proof. intros H. apply fl_mono. rewrite <- Zle_Qle. assumption. Qed.

Lemma of_Z_pos a : (0 < a)%Z -> 0 < of_Z a.
Proof. intros H. apply fl_pos, inj_pos. assumption. Qed.

Lemma of_Z_neg a : (a < 0)%Z -> of_Z a < 0.
Proof. intros H. apply fl_neg, inj_neg. assumption. Qed.

Lemma fl_1 : fl 1 == 1.
Proof. vm_compute. reflexivity. Qed.

Lemma fl_100 : fl 100 == 100.
Proof. vm_compute. reflexivity. Qed.

(** *** [Math.round((a / b) * 100)] *)

Lemma round_pct_finite (a b : Z) :
  b <> 0%Z ->
  round_pct a b = Finite (round (mul (div (of_Z a) (of_Z b)) 100)).
Proof. intros Hb. unfold round_pct. destruct (decide (b = 0%Z)); [lia|reflexivity]. Qed.

Lemma round_pct_full (b : Z) : b <> 0%Z -> round_pct b b = Finite 100.
Proof.
  intros Hb. rewrite round_pct_finite by assumption. f_equal.
  assert (~ of_Z b == 0) as Hnz.
  { destruct (Z.lt_trichotomy b 0) as [Hlt|[->|Hgt]]; [|lia|].
    - pose proof (of_Z_neg b Hlt). lra.
    - pose proof (of_Z_pos b Hgt). lra. }
  assert (div (of_Z b) (of_Z b) == 1) as Hq.
  { unfold div. transitivity (fl 1); [|apply fl_1]. apply fl_comp.
    field. assumption. }
  assert (mul (div (of_Z b) (of_Z b)) 100 == 100) as Hm.
  { unfold mul. transitivity (fl 100); [|apply fl_100]. apply fl_comp.
    rewrite Hq. ring. }
  rewrite (round_comp _ _ Hm). apply (round_int 100).
Qed.

Lemma round_pct_zero (b : Z) : b <> 0%Z -> round_pct 0 b = Finite 0.
Proof. intros Hb. rewrite round_pct_finite by assumption. reflexivity. Qed.

Lemma round_pct_mono (a a' b p p' : Z) :
  (0 < b)%Z -> (a <= a')%Z ->
  round_pct a b = Finite p -> round_pct a' b = Finite p' -> (p <= p')%Z.
Proof.
  intros Hb Ha. rewrite !round_pct_finite by lia. intros [= <-] [= <-].
  pose proof (of_Z_pos b Hb) as Hpos. pose proof (of_Z_mono a a' Ha) as Hle.
  apply round_mono, fl_mono.
  apply Qmult_le_compat_r; [|lra].
  apply fl_mono. apply Qmult_le_compat_r; [assumption|].
  apply Qlt_le_weak, Qinv_lt_0_compat. assumption.
Qed.

(** For counts that binary64 holds exactly, and up to 2^44 of them, the
    two roundings of the quotient and of the product do not move the
    result across a half-integer: the percentage is an integer nearest
    to 100 a / b.  (At an exact tie either neighbour is nearest.) *)
Lemma round_pct_nearest (a b p : Z) :
  (0 <= a < 2 ^ 44)%Z -> (0 < b < 2 ^ 53)%Z ->
  round_pct a b = Finite p ->
  (200 * a - b <= 2 * b * p <= 200 * a + b)%Z.
Proof.
  intros Ha Hb. rewrite round_pct_finite by lia. intros [= <-].
  set (A := inject_Z a). set (B := inject_Z b).
  assert (0 <= A) as HA by (subst A; apply inj_nonneg; lia).
  assert (A <= 17592186044416) as HA'.
  { subst A. change 17592186044416 with (inject_Z (2 ^ 44)).
    rewrite <- Zle_Qle. lia. }
  assert (0 < B) as HB by (subst B; apply inj_pos; lia).
  assert (of_Z a == A) as Hoa by (apply of_Z_exact; lia).
  assert (of_Z b == B) as Hob by (apply of_Z_exact; lia).
  set (x := A / B).
  assert (x * B == A) as Hx by (subst x; field; lra).
  assert (0 <= x) as Hx0.
  { subst x. apply Qle_shift_div_l; [assumption|]. lra. }
  assert (div (of_Z a) (of_Z b) == fl x) as Hq.
  { unfold div. apply fl_comp. rewrite Hoa, Hob. reflexivity. }
  destruct (fl_err x Hx0) as [Hq1 Hq2].
  set (q := fl x) in *.
  assert (0 <= q) as Hq0.
  { pose proof (fl_mono 0 x Hx0) as H. rewrite (fl_zero 0) in H by reflexivity.
    exact H. }
  assert (mul (div (of_Z a) (of_Z b)) 100 == fl (q * 100)) as Hm.
  { unfold mul. apply fl_comp. rewrite Hq. reflexivity. }
  rewrite (round_comp _ _ Hm).
  destruct (fl_err (q * 100) ltac:(lra)) as [Hy1 Hy2].
  set (y := fl (q * 100)) in *.
  destruct (floor_spec (y + (1 # 2))) as [Hp1 Hp2].
  unfold round. set (p := Qfloor (y + (1 # 2))) in *.
  set (P := inject_Z p) in *.
  unfold eps in *.
  assert ((P - (1 # 2)) * B <= (100 * (1 + (1 # 9007199254740992))
             * (1 + (1 # 9007199254740992)) * x) * B) as Hup.
  { apply Qmult_le_compat_r; lra. }
  assert ((100 * (1 - (1 # 9007199254740992))
             * (1 - (1 # 9007199254740992)) * x) * B
          <= (P + (1 # 2)) * B) as Hdn.
  { apply Qmult_le_compat_r; lra. }
  assert (inject_Z (2 * b * p) < inject_Z (200 * a + b + 1)) as H1.
  { rewrite !inject_Z_plus, !inject_Z_mult. fold A B P.
    change (inject_Z 2) with 2. change (inject_Z 200) with 200.
    change (inject_Z 1) with 1.
    assert (100 * (1 + (1 # 9007199254740992))
             * (1 + (1 # 9007199254740992)) * x * B
            == 100 * (1 + (1 # 9007199254740992))
             * (1 + (1 # 9007199254740992)) * A) as Hr
      by (rewrite <- Hx; ring).
    rewrite Hr in Hup. lra. }
  assert (inject_Z (200 * a - b - 1) < inject_Z (2 * b * p)) as H2.
  { unfold Z.sub. rewrite !inject_Z_plus, !inject_Z_mult, inject_Z_opp.
    fold A B P.
    change (inject_Z 2) with 2. change (inject_Z 200) with 200.
    change (inject_Z (- (1))) with (- (1)).
    assert (100 * (1 - (1 # 9007199254740992))
             * (1 - (1 # 9007199254740992)) * x * B
            == 100 * (1 - (1 # 9007199254740992))
             * (1 - (1 # 9007199254740992)) * A) as Hr
      by (rewrite <- Hx; ring).
    rewrite Hr in Hdn. lra. }
  rewrite <- Zlt_Qlt in H1, H2. lia.
Qed.

Lemma floor_unique (y : Q) (p : Z) :
  inject_Z p <= y -> y < inject_Z p + 1 -> Qfloor y = p.
Proof.
  intros H1 H2. destruct (floor_spec y) as [H3 H4].
  assert (inject_Z p < inject_Z (Qfloor y + 1)) as Ha.
  { rewrite inject_Z_plus. change (inject_Z 1) with 1. lra. }
  assert (inject_Z (Qfloor y) < inject_Z (p + 1)) as Hb.
  { rewrite inject_Z_plus. change (inject_Z 1) with 1. lra. }
  rewrite <- Zlt_Qlt in Ha, Hb. lia.
Qed.

(** [Math.round(a / b)] on doubles is the rounding of the exact
    quotient: a dividend below 2^52 leaves the rounding of the quotient
    no room to cross a half-integer, and a quotient that is a
    half-integer is a double. *)
Lemma round_div_double (a b p : Z) :
  (0 <= a < 2 ^ 52)%Z -> (0 < b < 2 ^ 53)%Z ->
  round_div a b = Finite p ->
  round (div (of_Z a) (of_Z b)) = p.
Proof.
  intros Ha Hb. unfold round_div.
  destruct (decide (b = 0%Z)); [lia|]. destruct (decide (0 < b)%Z); [|lia].
  intros [= <-]. set (p := ((2 * a + b) / (2 * b))%Z).
  pose proof (Z.mul_div_le (2 * a + b) (2 * b) ltac:(lia)) as Hp1.
  pose proof (Z.mul_succ_div_gt (2 * a + b) (2 * b) ltac:(lia)) as Hp2.
  fold p in Hp1, Hp2.
  set (A := inject_Z a). set (B := inject_Z b). set (P := inject_Z p).
  assert (0 <= A) as HA by (subst A; apply inj_nonneg; lia).
  assert (A < 4503599627370496) as HA'.
  { subst A. change 4503599627370496 with (inject_Z (2 ^ 52)).
    rewrite <- Zlt_Qlt. lia. }
  assert (0 < B) as HB by (subst B; apply inj_pos; lia).
  assert (of_Z a == A) as Hoa by (apply of_Z_exact; lia).
  assert (of_Z b == B) as Hob by (apply of_Z_exact; lia).
  set (x := A / B).
  assert (x * B == A) as Hx by (subst x; field; lra).
  assert (0 <= x) as Hx0.
  { subst x. apply Qle_shift_div_l; [assumption|]. lra. }
  assert (div (of_Z a) (of_Z b) == fl x) as Hq.
  { unfold div. apply fl_comp. rewrite Hoa, Hob. reflexivity. }
  rewrite (round_comp _ _ Hq). unfold round.
  destruct (Z.eq_dec (2 * b * p) (2 * a + b)) as [Htie|Hne].
  - assert (0 < 2 * p - 1 < 2 ^ 53)%Z as Hodd by nia.
    assert (x == inject_Z (2 * p - 1) * pow2 (-1)) as Hhalf.
    { apply (Qmult_inj_r _ _ B); [lra|]. rewrite Hx.
      unfold Z.sub. rewrite inject_Z_plus, inject_Z_mult.
      change (inject_Z 2) with 2. change (inject_Z (- (1))) with (- (1)).
      change (pow2 (-1)) with (1 # 2). fold P.
      assert (2 * B * P == 2 * A + B) as Ht.
      { subst A B P. change 2 with (inject_Z 2).
        rewrite <- !inject_Z_mult, <- inject_Z_plus. f_equiv. exact Htie. }
      lra. }
    assert (fl x == x) as Hfx.
    { assert (0 < x) as Hxpos.
      { rewrite Hhalf. apply Qmult_lt_0_compat; [apply inj_pos; lia|reflexivity]. }
      rewrite (fl_pos_eq x Hxpos), (rn_comp _ _ Hxpos Hhalf).
      rewrite rn_dyadic by lia. symmetry. exact Hhalf. }
    apply floor_unique; rewrite Hfx, Hhalf; unfold Z.sub;
      rewrite inject_Z_plus, inject_Z_mult;
      change (inject_Z 2) with 2; change (inject_Z (- (1))) with (- (1));
      change (pow2 (-1)) with (1 # 2); fold P; lra.
  - destruct (fl_err x Hx0) as [Hq1 Hq2]. unfold eps in *.
    set (q := fl x) in *.
    assert (2 * B * P + 1 <= 2 * A + B) as Hlo.
    { subst A B P. change 2 with (inject_Z 2). change 1 with (inject_Z 1).
      rewrite <- !inject_Z_mult, <- !inject_Z_plus, <- Zle_Qle. lia. }
    assert (2 * A + B + 1 <= 2 * B * (P + 1)) as Hhi.
    { subst A B P. change 2 with (inject_Z 2). change 1 with (inject_Z 1).
      rewrite <- !inject_Z_plus, <- !inject_Z_mult, <- !inject_Z_plus,
        <- Zle_Qle. lia. }
    assert (x * (1 - (1 # 9007199254740992)) * B <= q * B) as Hd
      by (apply Qmult_le_compat_r; lra).
    assert (q * B <= x * (1 + (1 # 9007199254740992)) * B) as Hu
      by (apply Qmult_le_compat_r; lra).
    assert (x * (1 - (1 # 9007199254740992)) * B
            == A * (1 - (1 # 9007199254740992))) as Hr1
      by (rewrite <- Hx; ring).
    assert (x * (1 + (1 # 9007199254740992)) * B
            == A * (1 + (1 # 9007199254740992))) as Hr2
      by (rewrite <- Hx; ring).
    rewrite Hr1 in Hd. rewrite Hr2 in Hu.
    apply floor_unique.
    + apply (Qmult_le_r _ _ (2 * B)); [lra|]. fold P. lra.
    + apply (Qmult_lt_r _ _ (2 * B)); [lra|]. fold P. lra.
Qed.

Lemma fl_opp x : fl (- x) == - fl x.
Proof.
  destruct (Qlt_le_dec 0 x) as [Hx|Hx].
  - rewrite (fl_neg_eq (- x)), (fl_pos_eq x) by lra.
    rewrite (rn_comp (- - x) x) by lra. reflexivity.
  - destruct (Qlt_le_dec x 0) as [Hx'|Hx'].
    + rewrite (fl_pos_eq (- x)), (fl_neg_eq x) by lra. ring.
    + rewrite (fl_zero x), (fl_zero (- x)) by lra. reflexivity.
Qed.

Lemma fl_err_neg x :
  x <= 0 -> x * (1 + eps) <= fl x /\ fl x <= x * (1 - eps).
Proof.
  intros Hx. destruct (fl_err (- x) ltac:(lra)) as [H1 H2].
  rewrite fl_opp in H1, H2. split; lra.
Qed.

(** Counts two percent above the total, or one percent below zero, are
    far enough for the roundings not to matter. *)
Lemma round_pct_high (a b : Z) :
  (0 < b)%Z -> (102 * b <= 100 * a)%Z ->
  exists p, round_pct a b = Finite p /\ (102 <= p)%Z.
Proof.
  intros Hb Ha. rewrite round_pct_finite by lia. eexists. split; [reflexivity|].
  pose proof (inj_pos b Hb) as HB.
  assert (102 * inject_Z b <= 100 * inject_Z a) as Hab.
  { change 102 with (inject_Z 102). change 100 with (inject_Z 100).
    rewrite <- !inject_Z_mult, <- Zle_Qle. assumption. }
  destruct (fl_err (inject_Z a) ltac:(lra)) as [HA1 _].
  destruct (fl_err (inject_Z b) ltac:(lra)) as [_ HB2].
  pose proof (of_Z_pos b Hb) as HB0. fold (of_Z a) in HA1. fold (of_Z b) in HB2.
  unfold eps in *.
  assert ((10199 # 10000) <= of_Z a / of_Z b) as Hq.
  { apply Qle_shift_div_l; [assumption|]. lra. }
  apply fl_mono in Hq. fold (div (of_Z a) (of_Z b)) in Hq.
  assert (fl (10199 # 10000) * 100 <= div (of_Z a) (of_Z b) * 100) as Hm by lra.
  apply fl_mono, round_mono in Hm.
  assert (round (fl (fl (10199 # 10000) * 100)) = 102%Z) as Hc
    by (vm_compute; reflexivity).
  unfold mul. lia.
Qed.

Lemma round_pct_low (a b : Z) :
  (0 < b)%Z -> (100 * a <= - b)%Z ->
  exists p, round_pct a b = Finite p /\ (p <= -1)%Z.
Proof.
  intros Hb Ha. rewrite round_pct_finite by lia. eexists. split; [reflexivity|].
  pose proof (inj_pos b Hb) as HB.
  assert (100 * inject_Z a <= - inject_Z b) as Hab.
  { change 100 with (inject_Z 100).
    rewrite <- inject_Z_opp, <- !inject_Z_mult, <- Zle_Qle. assumption. }
  destruct (fl_err_neg (inject_Z a) ltac:(lra)) as [_ HA2].
  destruct (fl_err (inject_Z b) ltac:(lra)) as [_ HB2].
  pose proof (of_Z_pos b Hb) as HB0. fold (of_Z a) in HA2. fold (of_Z b) in HB2.
  unfold eps in *.
  assert (of_Z a / of_Z b <= - (99 # 10000)) as Hq.
  { apply Qle_shift_div_r; [assumption|]. lra. }
  apply fl_mono in Hq. fold (div (of_Z a) (of_Z b)) in Hq.
  assert (div (of_Z a) (of_Z b) * 100 <= fl (- (99 # 10000)) * 100) as Hm by lra.
  apply fl_mono, round_mono in Hm.
  assert (round (fl (fl (- (99 # 10000)) * 100)) = (-1)%Z) as Hc
    by (vm_compute; reflexivity).
  unfold mul. lia.
Qed.

End F64Facts.

Module ExecutorFacts.
Import Executor Samples.

Lemma exc_bind_Ok {A B} (m : exc A) (k : A → exc B) (b : B) :
  exc_bind m k = Ok b → ∃ a, m = Ok a ∧ k a = Ok b.
Proof. destruct m as [a|e]; simpl; [eauto | discriminate]. Qed.

Lemma get_defined (v : jsval) (k k' : string) :
  returns (get v k) → returns (get v k').
Proof. destruct v; simpl; intros [a Ha]; try discriminate; eexists; eauto. Qed.

Lemma resolve_item_defined (item : jsval) (k : string) :
  returns (resolve item) → returns (get item k).
Proof.
  intros [req Hreq]. unfold resolve in Hreq.
  apply exc_bind_Ok in Hreq as (r & Hr & _).
  apply (get_defined item "request"). by exists r.
Qed.

Lemma settle_success (n : jsval) (o : settled) (start now : Z) :
  success (settle n o start now) = true ↔ 200 ≤ status (settle n o start now) < 400.
Proof.
  destruct o as [st|]; simpl.
  - rewrite andb_true_iff, !bool_decide_eq_true. lia.
  - split; [discriminate | lia].
Qed.

Lemma runRequest_returns (item : jsval) (o : settled) (start now : Z) :
  returns (resolve item) →
  ∃ n, get item "name" = Ok n
    ∧ runRequest item o start now = Ok (settle n o start now).
Proof.
  intros Hres.
  destruct (resolve_item_defined item "name" Hres) as [n Hn].
  destruct Hres as [req Hreq].
  exists n. split; [done|]. unfold runRequest. by rewrite Hreq, Hn.
Qed.

(** C2.  Whenever a request is executed (the template resolved, so the
    call to axios is made), [runRequest] returns a result and does not
    throw, however the call settles.  The result is a success exactly
    when its status code lies in [200, 400); a received response keeps
    its status code; a transport failure gives status 0 and no success. *)
Theorem runRequest_classifies (item : jsval) (o : settled) (start now : Z) :
  returns (resolve item) →
  ∃ res, runRequest item o start now = Ok res
    ∧ (success res = true ↔ 200 ≤ status res < 400)
    ∧ (∀ st, o = Responded st → status res = st)
    ∧ (o = Rejected → status res = 0 ∧ success res = false)
    ∧ duration res = now - start.
Proof.
  intros Hres.
  destruct (runRequest_returns item o start now Hres) as (n & _ & Hrun).
  exists (settle n o start now).
  split; [done|]. split; [apply settle_success|].
  destruct o as [st|]; simpl; repeat split; intros; simplify_eq; done.
Qed.

Lemma runRequest_classifies_witness :
  ∃ res, runRequest ping (Responded 404) 1000 1050 = Ok res
    ∧ (success res = true ↔ 200 ≤ status res < 400)
    ∧ (∀ st, Responded 404 = Responded st → status res = st)
    ∧ (Responded 404 = Rejected → status res = 0 ∧ success res = false)
    ∧ duration res = 1050 - 1000.
Proof.
  apply (runRequest_classifies ping (Responded 404) 1000 1050).
  eexists. vm_compute. reflexivity.
Defined.

(** *** Failures *)

Lemma exc_bind_Throw {A B} (m : exc A) (f : A → exc B) (e : js_error) :
  exc_bind m f = Throw e → m = Throw e ∨ ∃ a, m = Ok a ∧ f a = Throw e.
Proof. destruct m as [a|e']; simpl; intros H; [right; eauto|left; congruence]. Qed.

Lemma get_throws (v : jsval) (k : string) (e : js_error) :
  get v k = Throw e → e = TypeError.
Proof. destruct v; simpl; intros H; by simplify_eq. Qed.

(** Induction on values, through the elements of arrays. *)
Lemma jsval_array_ind (P : jsval → Prop) :
  (∀ v, (∀ l, v ≠ VArr l) → P v) →
  (∀ l, Forall P l → P (VArr l)) →
  ∀ v, P v.
Proof.
  intros Hother Harr. fix F 1.
  intros [| |b|z|s|l|m]; try (apply Hother; discriminate).
  apply Harr. revert l. fix go 1.
  intros [|x l]; constructor; [apply F|apply go].
Qed.

(** A conversion to a string fails with a [TypeError] only. *)
Lemma toString_throws (v : jsval) :
  ∀ e : js_error, toString v = Throw e → e = TypeError.
Proof.
  induction v as [v Hv|l IH] using jsval_array_ind.
  - destruct v as [| |[]| | |l|m]; simpl; try (intros; discriminate).
    + by destruct (Hv l).
    + destruct (m !! "toString"); intros e H; by simplify_eq.
  - intros e H. simpl in H.
    apply exc_bind_Throw in H as [H|(parts & _ & H)]; [|discriminate].
    revert e H. induction IH as [|x l Hx _ IHl]; intros e H; [discriminate|].
    apply exc_bind_Throw in H as [H|(s & _ & H)].
    + destruct x; try discriminate; apply (Hx _ H).
    + apply exc_bind_Throw in H as [H|(r & _ & H)]; [|discriminate].
      apply (IHl _ H).
Qed.

(** Primitive values convert; an object converts exactly when it has no
    property [toString] of its own. *)
Lemma toPropertyKey_returns (v : jsval) :
  match v with
  | VArr _ => True
  | VObj m => returns (toPropertyKey v) ↔ m !! "toString" = None
  | _ => returns (toPropertyKey v)
  end.
Proof.
  destruct v as [| |[]| | |l|m]; try (by eexists); try done.
  unfold toPropertyKey. simpl. destruct (m !! "toString").
  - split; [by intros [? ?]|done].
  - split; [done|]. intros _. by eexists.
Qed.

(** *** The header fold *)

Lemma filed_under_inj (h : jsval) (k k' : string) :
  filed_under h k → filed_under h k' → k = k'.
Proof. intros (kv & Hk & H1) (kv' & Hk' & H2). rewrite Hk in Hk'. congruence. Qed.

Lemma header_step_defined (acc : gmap string jsval) (h : jsval) (k : string) :
  filed_under h k →
  ∃ v, get h "value" = Ok v ∧ header_step acc h = Ok (<[k := v]> acc).
Proof.
  intros (kv & Hk & Hkey).
  destruct (get_defined h "key" "value") as [v Hv]; [by eexists|].
  exists v. split; [done|]. unfold header_step.
  rewrite Hk. simpl. rewrite Hkey. simpl. by rewrite Hv.
Qed.

Lemma header_step_inv (acc m : gmap string jsval) (h : jsval) :
  header_step acc h = Ok m →
  ∃ k v, filed_under h k ∧ get h "value" = Ok v ∧ m = <[k := v]> acc.
Proof.
  unfold header_step. intros H.
  apply exc_bind_Ok in H as (kv & Hk & H).
  apply exc_bind_Ok in H as (k & Hkey & H).
  apply exc_bind_Ok in H as (v & Hv & H). simplify_eq.
  exists k, v. split; [by exists kv|done].
Qed.

Lemma header_step_throws (acc : gmap string jsval) (h : jsval) (e : js_error) :
  header_step acc h = Throw e → e = TypeError.
Proof.
  unfold header_step. intros H.
  apply exc_bind_Throw in H as [H|(kv & _ & H)]; [by eapply get_throws|].
  apply exc_bind_Throw in H as [H|(k & _ & H)]; [by eapply toString_throws|].
  apply exc_bind_Throw in H as [H|(v & _ & H)]; [by eapply get_throws|done].
Qed.

(** The fold goes through exactly when every entry can be filed. *)
Lemma reduce_returns_iff (l : list jsval) : ∀ acc : gmap string jsval,
  returns (reduce l acc) ↔ Forall fileable l.
Proof.
  induction l as [|h l IH]; intros acc; simpl.
  - split; [constructor|]. intros _. by eexists.
  - rewrite Forall_cons. split.
    + intros [m Hm]. apply exc_bind_Ok in Hm as (acc' & Hstep & Hm).
      apply header_step_inv in Hstep as (k & v & Hk & _ & _).
      split; [by exists k|]. apply (IH acc'). by eexists.
    + intros [[k Hk] Hl].
      destruct (header_step_defined acc h k Hk) as (v & _ & ->).
      simpl. by apply IH.
Qed.

Lemma reduce_throws (l : list jsval) : ∀ (acc : gmap string jsval) e,
  reduce l acc = Throw e → e = TypeError.
Proof.
  induction l as [|h l IH]; intros acc e; simpl; [discriminate|].
  intros H. apply exc_bind_Throw in H as [H|(acc' & _ & H)]; [|by eapply IH].
  by eapply header_step_throws.
Qed.

(** The fold from any accumulator: a key takes the value of the last
    entry filed under it, any other key keeps what the accumulator had. *)
Lemma reduce_spec (l : list jsval) : ∀ acc m : gmap string jsval,
  reduce l acc = Ok m →
  (∀ l1 h l2 k v, l = l1 ++ h :: l2 →
     filed_under h k → get h "value" = Ok v →
     Forall (λ h', ¬ filed_under h' k) l2 →
     m !! k = Some v)
  ∧ (∀ k, Forall (λ h, ¬ filed_under h k) l → m !! k = acc !! k)
  ∧ (∀ k, is_Some (acc !! k) ∨ Exists (λ h, filed_under h k) l →
       is_Some (m !! k)).
Proof.
  induction l as [|h l IH]; intros acc m Hm; simpl in Hm.
  - simplify_eq. split; [|split; [done|]].
    + intros [|??] ?????; discriminate.
    + intros k [?|Hex]; [done|]. by apply Exists_nil in Hex.
  - apply exc_bind_Ok in Hm as (acc' & Hstep & Hm).
    apply header_step_inv in Hstep as (k0 & v0 & Hk0 & Hv0 & ->).
    destruct (IH _ _ Hm) as (Hlast & Hrest & Hpresent).
    split; [|split].
    + intros l1 h' l2 k v Heq Hk Hv Hnone.
      destruct l1 as [|h0 l1]; simplify_eq/=.
      * rewrite (filed_under_inj _ _ _ Hk Hk0).
        rewrite Hv in Hv0. simplify_eq.
        rewrite Hrest; [apply lookup_insert_eq|].
        by rewrite <- (filed_under_inj _ _ _ Hk Hk0).
      * by eapply Hlast.
    + intros k Hnone. apply Forall_cons in Hnone as [Hnk Hnone].
      rewrite (Hrest _ Hnone). apply lookup_insert_ne.
      by intros <-.
    + intros k Hk. apply Hpresent.
      destruct Hk as [Hacc|Hex].
      * left. destruct (decide (k0 = k)) as [<-|Hne].
        -- rewrite lookup_insert_eq. by eexists.
        -- by rewrite lookup_insert_ne.
      * apply Exists_cons in Hex as [Hk|Hex]; [|by right].
        left. rewrite (filed_under_inj _ _ _ Hk Hk0).
        rewrite lookup_insert_eq. by eexists.
Qed.

(** C5, as the code has it.  The fold over a header list returns a
    mapping exactly when every entry can be filed: none is [null], and
    every key converts to a property name (an object with a property
    [toString] of its own does not).  In the mapping every name holds
    the value of the last entry filed under it (last write wins) and no
    other name is present.  An entry without a [key] is not skipped: it
    is filed under the property name "undefined", like any entry whose
    key prints so. *)
Theorem reduce_headers_last_write_wins (l : list jsval) :
  (returns (reduce_headers (VArr l)) ↔ Forall fileable l)
  ∧ ∀ m : gmap string jsval, reduce_headers (VArr l) = Ok m →
      (∀ l1 h l2 k v, l = l1 ++ h :: l2 →
         filed_under h k → get h "value" = Ok v →
         Forall (λ h', ¬ filed_under h' k) l2 →
         m !! k = Some v)
      ∧ (∀ k, Forall (λ h, ¬ filed_under h k) l → m !! k = None)
      ∧ (∀ (o : gmap string jsval), VObj o ∈ l → o !! "key" = None →
           is_Some (m !! "undefined")).
Proof.
  split; [apply (reduce_returns_iff l ∅)|].
  intros m Hm.
  destruct (reduce_spec l ∅ m Hm) as (Hlast & Hrest & Hpresent).
  split; [done|]. split.
  - intros k Hk. by rewrite (Hrest k Hk).
  - intros o Ho Hkey. apply Hpresent. right.
    apply Exists_exists. exists (VObj o). split; [done|].
    exists VUndef. simpl. by rewrite Hkey.
Qed.

Lemma reduce_headers_last_write_wins_witness :
  ∃ m : gmap string jsval,
    reduce_headers (VArr [header "a" "1"; unkeyed "x"; header "a" "2"]) = Ok m
    ∧ m !! "a" = Some (VStr "2")
    ∧ is_Some (m !! "undefined").
Proof.
  destruct (reduce_headers_last_write_wins
              [header "a" "1"; unkeyed "x"; header "a" "2"])
    as [Hret Hmap].
  destruct (proj2 Hret) as [m Hm].
  { repeat (apply Forall_cons_2;
              [eexists; eexists; split; [vm_compute; reflexivity|reflexivity]|]).
    apply Forall_nil_2. }
  destruct (Hmap m Hm) as (Hlast & _ & Hundef).
  exists m. split; [exact Hm|]. split.
  - apply (Hlast [header "a" "1"; unkeyed "x"] (header "a" "2") []
             "a" (VStr "2")); [reflexivity| |reflexivity|constructor].
    exists (VStr "a"). split; reflexivity.
  - apply (Hundef {[ "value" := VStr "x" ]}); [|reflexivity].
    apply list_elem_of_In. right. left. reflexivity.
Defined.

(** C5 as stated fails: an entry without a key contributes the
    property "undefined" to the mapping. *)
Lemma unkeyed_header_not_skipped :
  get (unkeyed "x") "key" = Ok VUndef
  ∧ reduce_headers (VArr [unkeyed "x"]) = Ok {[ "undefined" := VStr "x" ]}
  ∧ reduce_headers (VArr [unkeyed "x"]) ≠ reduce_headers (VArr []).
Proof.
  split; [reflexivity|]. split; [reflexivity|].
  intros H. apply (f_equal (λ r, match r with
                                 | Ok m => m !! "undefined"
                                 | Throw _ => None
                                 end)) in H.
  vm_compute in H. discriminate.
Qed.

(** A [null] entry is not skipped either: the fold throws.  So does an
    entry whose key is an object with a property [toString]. *)
Lemma null_header_throws (l : list jsval) :
  reduce_headers (VArr (VNull :: l)) = Throw TypeError.
Proof. reflexivity. Qed.

Lemma object_key_throws (l : list jsval) :
  reduce_headers (VArr (keyed stringly "x" :: l)) = Throw TypeError.
Proof. reflexivity. Qed.

(** Keys are printed as the engine prints them. *)
Lemma number_keys :
  toPropertyKey (VNum 12300) = Ok "12300"
  ∧ toPropertyKey (VNum (-5)) = Ok "-5"
  ∧ toPropertyKey (VNum (10 ^ 21)) = Ok "1e+21"
  ∧ toPropertyKey (VNum (2 ^ 64)) = Ok "18446744073709552000"
  ∧ toPropertyKey (VNum (2 ^ 70)) = Ok "1.1805916207174113e+21"
  ∧ toPropertyKey (VArr [VNum 1; VNull; VStr "a"]) = Ok "1,,a"
  ∧ toPropertyKey (VObj ∅) = Ok "[object Object]"
  ∧ toPropertyKey (VArr [VNum 1; stringly]) = Throw TypeError.
Proof. repeat split; vm_compute; reflexivity. Qed.

End ExecutorFacts.

Module ConfigFacts.
Import Config Samples.

Lemma loadConfig_lookup (o : gmap string jsval) (k : string) :
  loadConfig (Parsed (VObj o)) !! k =
    match o !! k with
    | Some v => Some v
    | None => DEFAULT_CONFIG !! k
    end.
Proof.
  simpl. rewrite lookup_union. destruct (o !! k) as [v|]; simpl.
  - by destruct (DEFAULT_CONFIG !! k).
  - by destruct (DEFAULT_CONFIG !! k).
Qed.

(** C10.  [loadConfig] lays the parsed object over the defaults key by
    key: a key present in the file keeps the value of the file, whatever
    it is, a key absent from it takes the default.  In particular any
    three integers given for [users], [repetitions] and
    [delayMsBetweenUsers], zero and negative ones included, are the
    numbers of the run configuration. *)
Theorem loadConfig_no_validation (o : gmap string jsval) :
  (∀ k v, o !! k = Some v → loadConfig (Parsed (VObj o)) !! k = Some v)
  ∧ (∀ k, o !! k = None →
       loadConfig (Parsed (VObj o)) !! k = DEFAULT_CONFIG !! k)
  ∧ (∀ u r d : Z,
       o !! "users" = Some (VNum u) →
       o !! "repetitions" = Some (VNum r) →
       o !! "delayMsBetweenUsers" = Some (VNum d) →
       o !! "collectionPath" = None →
       as_run_config (loadConfig (Parsed (VObj o))) =
         Some {| Load.collectionPath := "./collection.json";
                 Load.users := u;
                 Load.repetitions := r;
                 Load.delayMsBetweenUsers := d |}).
Proof.
  split; [|split].
  - intros k v Hk. by rewrite loadConfig_lookup, Hk.
  - intros k Hk. by rewrite loadConfig_lookup, Hk.
  - intros u r d Hu Hr Hd Hp. unfold as_run_config.
    rewrite !loadConfig_lookup, Hu, Hr, Hd, Hp. reflexivity.
Qed.


Lemma loadConfig_no_validation_witness :
  loadConfig (Parsed (VObj out_of_range)) !! "users" = Some (VNum (-5))
  ∧ loadConfig (Parsed (VObj out_of_range)) !! "collectionPath"
      = DEFAULT_CONFIG !! "collectionPath"
  ∧ as_run_config (loadConfig (Parsed (VObj out_of_range))) =
      Some {| Load.collectionPath := "./collection.json";
              Load.users := -5;
              Load.repetitions := 0;
              Load.delayMsBetweenUsers := -1 |}.
Proof.
  destruct (loadConfig_no_validation out_of_range) as (Hin & Hout & Hnum).
  split; [|split].
  - apply Hin. reflexivity.
  - apply Hout. reflexivity.
  - apply Hnum; reflexivity.
Defined.

(** Without a usable file the defaults are returned as they are. *)
Lemma loadConfig_defaults :
  loadConfig Missing = DEFAULT_CONFIG ∧ loadConfig Unusable = DEFAULT_CONFIG.
Proof. done. Qed.

(** The elements of a spread string are its UTF-16 code units: one for
    U+0061, U+00E9 and U+20AC, the two surrogates D83D and DE00 for
    U+1F600. *)
Lemma chars_code_units :
  spread (VStr "ab") = {[ "0" := VStr "a"; "1" := VStr "b" ]}
  ∧ chars (of_bytes [195; 169]%N) = [VStr (of_bytes [195; 169]%N)]
  ∧ chars (of_bytes [226; 130; 172]%N) = [VStr (of_bytes [226; 130; 172]%N)]
  ∧ chars (of_bytes [240; 159; 152; 128]%N) =
      [VStr (of_bytes [237; 160; 189]%N); VStr (of_bytes [237; 184; 128]%N)].
Proof. repeat split; vm_compute; reflexivity. Qed.

End ConfigFacts.

Module ProgressFacts.
Import Progress F64Facts.

Lemma round_div_pos (a b : Z) :
  0 < b → round_div a b = Finite ((2 * a + b) `div` (2 * b)).
Proof.
  intros Hb. unfold round_div.
  destruct (decide (b = 0)); [lia|]. destruct (decide (0 < b)); [done|lia].
Qed.

(** For a positive divisor the result is an integer nearest to the
    quotient; an exact tie goes up. *)
Lemma round_div_nearest (a b p : Z) :
  0 < b → round_div a b = Finite p → 2 * a - b < 2 * b * p ≤ 2 * a + b.
Proof.
  intros Hb. rewrite round_div_pos by done. intros [= <-].
  pose proof (Z.mul_div_le (2 * a + b) (2 * b)).
  pose proof (Z.mul_succ_div_gt (2 * a + b) (2 * b)). lia.
Qed.

Lemma round_div_mono (a a' b p p' : Z) :
  0 < b → a ≤ a' →
  round_div a b = Finite p → round_div a' b = Finite p' → p ≤ p'.
Proof.
  intros Hb Ha. rewrite !round_div_pos by done. intros [= <-] [= <-].
  apply Z.div_le_mono; lia.
Qed.

Lemma percent_finite (c t : Z) : t ≠ 0 → ∃ p, percent c t = Finite p.
Proof. intros Ht. unfold percent. rewrite round_pct_finite by done. by eexists. Qed.

Lemma percent_full (t : Z) : 0 < t → percent t t = Finite 100.
Proof. intros Ht. apply round_pct_full. lia. Qed.

Lemma percent_zero (t : Z) : 0 < t → percent 0 t = Finite 0.
Proof. intros Ht. apply round_pct_zero. lia. Qed.

Lemma percent_mono (c c' t p p' : Z) :
  0 < t → c ≤ c' →
  percent c t = Finite p → percent c' t = Finite p' → p ≤ p'.
Proof. apply round_pct_mono. Qed.

Lemma percent_range (c t p : Z) :
  0 < t → 0 ≤ c ≤ t → percent c t = Finite p → 0 ≤ p ≤ 100.
Proof.
  intros Ht Hc Hp. split.
  - apply (percent_mono 0 c t 0 p); [lia..| |done]. by apply percent_zero.
  - apply (percent_mono c t t p 100); [lia..|done|]. by apply percent_full.
Qed.

(** In range the two [repeat] calls get counts between 0 and 50: the
    bar is drawn and nothing is thrown. *)
Lemma updateProgress_returns (c t : Z) :
  0 < t → 0 ≤ c ≤ t →
  ∃ p l, percent c t = Finite p ∧ updateProgress c t = Ok l
    ∧ percentage l = Finite p
    ∧ shown_completed l = c ∧ shown_total l = t
    ∧ last_line l = bool_decide (c = t)
    ∧ (filled l + remaining l = 50)%nat.
Proof.
  intros Ht Hc.
  destruct (percent_finite c t) as [p Hp]; [lia|].
  pose proof (percent_range c t p Ht Hc Hp) as Hr.
  assert (0 ≤ p `div` 2 ≤ 50) as Hh.
  { split; [apply Z.div_pos; lia|]. apply Z.div_le_upper_bound; lia. }
  exists p. unfold updateProgress. rewrite Hp. simpl.
  destruct (decide (p `div` 2 < 0)); [lia|]. simpl.
  destruct (decide (50 - p `div` 2 < 0)); [lia|]. simpl.
  eexists. split; [done|]. split; [done|]. simpl.
  repeat split. lia.
Qed.

End ProgressFacts.

Module SummaryFacts.
Import Executor Summary.


Lemma failures_cons (r : result) (rs : list result) :
  failures (r :: rs) = (if success r then 0 else 1) + failures rs.
Proof.
  unfold failures. destruct (success r) eqn:Hs.
  - rewrite filter_cons_False by (rewrite Hs; done). lia.
  - rewrite filter_cons_True by done. simpl length. lia.
Qed.

(** A step of the first loop that goes through. *)
Lemma tally_inv (summary m : gmap string group) (r : result)
    (k : gmap string group → exc (gmap string group)) :
  exc_bind (tally summary r) k = Ok m →
  ∃ kr m', toPropertyKey (name r) = Ok kr ∧ (kr ∉ inherited)
    ∧ m' = (<[kr := {| times := times (default {| times := []; errors := 0 |}
                                         (summary !! kr)) ++ [duration r];
                       errors := if success r
                                 then errors (default {| times := []; errors := 0 |}
                                                (summary !! kr))
                                 else errors (default {| times := []; errors := 0 |}
                                                (summary !! kr)) + 1 |}]> summary)
    ∧ k m' = Ok m.
Proof.
  intros H. apply ExecutorFacts.exc_bind_Ok in H as (m' & Ht & Hk).
  unfold tally in Ht.
  apply ExecutorFacts.exc_bind_Ok in Ht as (kr & Hkr & Ht).
  destruct (decide (kr ∈ inherited)); [discriminate|]. simplify_eq.
  by eexists kr, _.
Qed.

Lemma tally_all_spec (results : list result) :
  ∀ (summary m : gmap string group),
    tally_all results summary = Ok m →
    ∀ k, m !! k = extend (summary !! k) (named k results).
Proof.
  induction results as [|r rs IH]; intros summary m Hm k.
  - simpl in Hm. by simplify_eq.
  - simpl in Hm. apply tally_inv in Hm as (kr & m' & Hkr & _ & -> & Hm).
    rewrite (IH _ _ Hm k). unfold named.
    destruct (decide (kr = k)) as [<-|Hne].
    + rewrite lookup_insert_eq, filter_cons_True by done.
      fold (named kr rs).
      destruct (named kr rs) as [|r' rs'] eqn:Hrs; simpl.
      * f_equal. f_equal. rewrite failures_cons. unfold failures. simpl.
        destruct (success r); lia.
      * f_equal. rewrite <- app_assoc. simpl. f_equal.
        rewrite (failures_cons r). destruct (success r); lia.
    + rewrite lookup_insert_ne, filter_cons_False by congruence. done.
Qed.

(** Every row of the report is computed from the non-empty group of the
    results of its name. *)
Lemma report_rows (results : list result) (rep : report) (k : string) (r : row) :
  showSummary results = Ok rep → rows rep !! k = Some r →
  ∃ data, r = row_of data
    ∧ times data = duration <$> named k results
    ∧ errors data = failures (named k results)
    ∧ times data ≠ [].
Proof.
  unfold showSummary. intros Hrep Hrow.
  destruct (tally_all results ∅) as [summary|] eqn:Hsum; [|discriminate].
  simpl in Hrep. simplify_eq. simpl in Hrow.
  rewrite lookup_fmap in Hrow.
  rewrite (tally_all_spec _ _ _ Hsum k), lookup_empty in Hrow.
  destruct (named k results) as [|r0 rs]; [discriminate|].
  simpl in Hrow. simplify_eq. eexists. split; [done|]. simpl.
  split; [done|]. split; [lia|done].
Qed.

Lemma p95_index_lt (n : nat) : (1 ≤ n)%nat → (p95_index n < n)%nat.
Proof.
  intros Hn. unfold p95_index.
  assert ((19 * Z.of_nat n) `div` 20 < Z.of_nat n).
  { apply Z.div_lt_upper_bound; lia. }
  assert (0 ≤ (19 * Z.of_nat n) `div` 20) by (apply Z.div_pos; lia).
  lia.
Qed.

(** [p95_index n] is the integer part of 0.95 × n. *)
Lemma p95_index_floor (n : nat) :
  20 * Z.of_nat (p95_index n) ≤ 19 * Z.of_nat n
    < 20 * (Z.of_nat (p95_index n) + 1).
Proof.
  unfold p95_index.
  assert (0 ≤ (19 * Z.of_nat n) `div` 20) by (apply Z.div_pos; lia).
  rewrite Z2Nat.id by done.
  pose proof (Z.mul_div_le (19 * Z.of_nat n) 20).
  pose proof (Z.mul_succ_div_gt (19 * Z.of_nat n) 20). lia.
Qed.

Lemma sort_unique (l s : list Z) : s ≡ₚ l → Sorted Z.le s → s = sort l.
Proof.
  intros Hp Hs. apply (Sorted_unique Z.le); [done|apply Sorted_merge_sort; apply _|].
  unfold sort. by rewrite merge_sort_Permutation.
Qed.

Lemma length_sort (l : list Z) : length (sort l) = length l.
Proof. unfold sort. by rewrite merge_sort_Permutation. Qed.

Lemma p95_of_group (data : group) (s : list Z) :
  times data ≠ [] → s ≡ₚ times data → Sorted Z.le s →
  ∃ (i : nat) (v : Z),
    20 * Z.of_nat i ≤ 19 * Z.of_nat (length (times data)) < 20 * (Z.of_nat i + 1)
    ∧ (i < length (times data))%nat
    ∧ s !! i = Some v
    ∧ p95 (row_of data) = Some v.
Proof.
  intros Hne Hp Hs. rewrite (sort_unique _ _ Hp Hs).
  set (n := length (times data)).
  assert (1 ≤ n)%nat as Hn.
  { subst n. destruct (times data); [done|simpl; lia]. }
  destruct (lookup_lt_is_Some_2 (sort (times data)) (p95_index n)) as [v Hv].
  { rewrite length_sort. by apply p95_index_lt. }
  exists (p95_index n), v. split; [apply p95_index_floor|].
  split; [by apply p95_index_lt|]. split; [done|].
  simpl. by rewrite length_sort.
Qed.

(** C3.  The p95 of a row is the element of index floor(0.95 × N) of
    the N durations of its group sorted in ascending order, whatever
    sorted arrangement [s] of them one takes: for the rows of a report,
    and for the row of any non-empty group.  A single duration is its
    own p95, and the durations 1..20 have p95 20. *)
Theorem p95_nearest_rank :
  (∀ (results : list result) (rep : report) (k : string) (r : row) (s : list Z),
     showSummary results = Ok rep → rows rep !! k = Some r →
     s ≡ₚ duration <$> named k results → Sorted Z.le s →
     ∃ (i : nat) (v : Z),
       20 * Z.of_nat i ≤ 19 * Z.of_nat (length s) < 20 * (Z.of_nat i + 1)
       ∧ s !! i = Some v ∧ p95 r = Some v)
  ∧ (∀ (data : group) (s : list Z),
       times data ≠ [] → s ≡ₚ times data → Sorted Z.le s →
       ∃ (i : nat) (v : Z),
         20 * Z.of_nat i ≤ 19 * Z.of_nat (length s) < 20 * (Z.of_nat i + 1)
         ∧ s !! i = Some v ∧ p95 (row_of data) = Some v)
  ∧ (∀ d e : Z, p95 (row_of {| times := [d]; errors := e |}) = Some d)
  ∧ (∀ e : Z,
       p95 (row_of {| times := Z.of_nat <$> seq 1 20; errors := e |}) = Some 20).
Proof.
  assert (∀ (data : group) (s : list Z),
       times data ≠ [] → s ≡ₚ times data → Sorted Z.le s →
       ∃ (i : nat) (v : Z),
         20 * Z.of_nat i ≤ 19 * Z.of_nat (length s) < 20 * (Z.of_nat i + 1)
         ∧ s !! i = Some v ∧ p95 (row_of data) = Some v) as Hgroup.
  { intros data s Hne Hp Hs.
    destruct (p95_of_group data s Hne Hp Hs) as (i & v & Hi & _ & Hv & Hrow).
    exists i, v. rewrite (Permutation_length Hp). done. }
  split; [|split; [exact Hgroup|split]].
  - intros results rep k r s Hrep Hrow Hp Hs.
    destruct (report_rows _ _ _ _ Hrep Hrow) as (data & -> & Ht & _ & Hne).
    apply Hgroup; [done| |done]. by rewrite Ht.
  - intros d e. reflexivity.
  - intros e. vm_compute. reflexivity.
Qed.

Lemma p95_nearest_rank_witness :
  ∃ (i : nat) (v : Z),
    20 * Z.of_nat i ≤ 19 * Z.of_nat (length [10; 30]) < 20 * (Z.of_nat i + 1)
    ∧ [10; 30] !! i = Some v
    ∧ p95 (row_of {| times := [30; 10]; errors := 0 |}) = Some v.
Proof.
  destruct p95_nearest_rank as (_ & Hgroup & _).
  apply (Hgroup {| times := [30; 10]; errors := 0 |} [10; 30]).
  - simpl. discriminate.
  - simpl. apply perm_swap.
  - repeat constructor. lia.
Defined.

(** C8.  For N ≥ 1 the index floor(0.95 × N) is below N, so the read
    of the sorted durations is in bounds: the p95 of a non-empty group is
    defined and is one of its durations, and every row of a report has a
    defined p95. *)
Theorem p95_index_in_bounds :
  (∀ n : nat, (1 ≤ n)%nat → (p95_index n < n)%nat)
  ∧ (∀ data : group, times data ≠ [] →
       ∃ v, p95 (row_of data) = Some v ∧ v ∈ times data)
  ∧ (∀ (results : list result) (rep : report) (k : string) (r : row),
       showSummary results = Ok rep → rows rep !! k = Some r →
       ∃ v, p95 r = Some v ∧ v ∈ duration <$> named k results).
Proof.
  assert (∀ data : group, times data ≠ [] →
       ∃ v, p95 (row_of data) = Some v ∧ v ∈ times data) as Hgroup.
  { intros data Hne.
    destruct (p95_of_group data (sort (times data)) Hne)
      as (i & v & _ & _ & Hv & Hrow).
    - apply merge_sort_Permutation.
    - apply Sorted_merge_sort. apply _.
    - exists v. split; [done|].
      apply list_elem_of_lookup_2 in Hv. unfold sort in Hv.
      by rewrite merge_sort_Permutation in Hv. }
  split; [exact p95_index_lt|split; [exact Hgroup|]].
  intros results rep k r Hrep Hrow.
  destruct (report_rows _ _ _ _ Hrep Hrow) as (data & -> & Ht & _ & Hne).
  rewrite <- Ht. by apply Hgroup.
Qed.

Lemma p95_index_in_bounds_witness :
  (p95_index 20 < 20)%nat
  ∧ ∃ v, p95 (row_of {| times := [30; 10]; errors := 0 |}) = Some v
      ∧ v ∈ [30; 10].
Proof.
  destruct p95_index_in_bounds as (Hidx & Hgroup & _).
  split.
  - apply (Hidx 20%nat). lia.
  - apply (Hgroup {| times := [30; 10]; errors := 0 |}). simpl. discriminate.
Defined.

(** The average of a row is what the engine computes on doubles, for
    durations that sum to less than 2^52 milliseconds. *)
Lemma avg_on_doubles (data : group) :
  0 ≤ sum (times data) < 2 ^ 52 →
  0 < Z.of_nat (length (times data)) < 2 ^ 53 →
  avg (row_of data) =
    Finite (F64.round (F64.div (F64.of_Z (sum (times data)))
                         (F64.of_Z (Z.of_nat (length (times data)))))).
Proof.
  intros Hsum Hlen. simpl.
  destruct (round_div (sum (times data)) (Z.of_nat (length (times data))))
    as [p| | |] eqn:Hp;
    try (rewrite ProgressFacts.round_div_pos in Hp by lia; discriminate).
  f_equal. symmetry. by apply F64Facts.round_div_double.
Qed.

(** The report of an empty result list: no row, and both global
    figures are 0 / 0, that is [NaN]. *)
Lemma showSummary_empty :
  showSummary [] =
    Ok {| rows := ∅;
          totalRequests := 0;
          totalErrors := 0;
          globalSuccessRate := NaN;
          globalAvgTime := NaN |}.
Proof. reflexivity. Qed.

(** A name that [Object.prototype] defines makes [showSummary] throw. *)
Lemma showSummary_inherited_name :
  showSummary [ {| name := VStr "constructor"; status := 200;
                   duration := 5; success := true |} ] = Throw TypeError.
Proof. reflexivity. Qed.

End SummaryFacts.

Module LoadFacts.
Import Executor Progress Summary Load Samples.
Import ExecutorFacts ProgressFacts.

Section run.
Variable config : RunConfig.
Variable collection : list jsval.

Local Abbreviation n := (Z.to_nat (users config)).
Local Abbreviation R := (Z.to_nat (repetitions config)).
Local Abbreviation L := (length collection).
Local Abbreviation total := (totalRequests config collection).
Local Abbreviation step := (step config collection).
Local Abbreviation run := (run config collection).
Local Abbreviation next := (next config collection).
Local Abbreviation enter := (enter config collection).
Local Abbreviation resolves_upto := (resolves_upto collection).
Local Abbreviation ok := (ok config collection).
Local Abbreviation inv := (inv config collection).
Local Abbreviation inv_completed := (inv_completed config collection).
Local Abbreviation inv_console := (inv_console config collection).
Local Abbreviation inv_lines := (inv_lines config collection).
Local Abbreviation inv_names := (inv_names config collection).
Local Abbreviation session := (session config collection).
Local Abbreviation one_by_one := (one_by_one config collection).


Lemma ok_le (t : task) (c : nat) : ok t c → (c ≤ R * L)%nat.
Proof. destruct t; simpl; intros; nia. Qed.

Lemma sum_bound (ts : list task) (cnt : list nat) :
  Forall2 ok ts cnt → (sum_list cnt ≤ length ts * (R * L))%nat.
Proof.
  induction 1 as [|t c ts cnt Hok _ IH]; simpl; [lia|].
  apply ok_le in Hok. lia.
Qed.

Lemma sum_strict (ts : list task) (cnt : list nat) (u r i : nat) :
  Forall2 ok ts cnt → ts !! u = Some (Awaiting r i) →
  (sum_list cnt + 1 ≤ length ts * (R * L))%nat.
Proof.
  intros Hall. revert u.
  induction Hall as [|t c ts cnt Hok Hall IH]; intros u Hu; [done|].
  destruct u as [|u]; simpl in *.
  - simplify_eq. apply sum_bound in Hall. simpl in Hok. nia.
  - specialize (IH _ Hu). apply ok_le in Hok. lia.
Qed.

Lemma sum_list_insert (cnt : list nat) (u c c' : nat) :
  cnt !! u = Some c →
  (sum_list (<[u := c']> cnt) + c = sum_list cnt + c')%nat.
Proof.
  revert u. induction cnt as [|x cnt IH]; intros u Hu; [done|].
  destruct u as [|u]; simpl in *.
  - simplify_eq. lia.
  - specialize (IH _ Hu). lia.
Qed.

Lemma inv_init : inv (init config).
Proof.
  split; simpl; try done.
  - by rewrite length_replicate.
  - exists (replicate n 0%nat). split.
    + apply Forall2_replicate. done.
    + by rewrite sum_list_replicate.
  - intros res Hres. by apply elem_of_nil in Hres.
Qed.

Lemma ok_issue (item : jsval) (r i : nat) :
  collection !! i = Some item → (r < R)%nat →
  (∀ j, (j < i)%nat → resolves_upto j) →
  ok (issue item r i) (r * L + i)%nat.
Proof.
  intros Hitem Hr Hbefore. apply lookup_lt_Some in Hitem as Hi.
  unfold issue. destruct (resolve item) as [req|e] eqn:Hres; simpl.
  - repeat split; [done..|]. intros j item' Hj Hitem'.
    destruct (decide (j = i)) as [->|Hne].
    + simplify_eq. by exists req.
    + apply (Hbefore j ltac:(lia) j item'); [lia|done].
  - nia.
Qed.

Lemma enter_unfold :
  enter =
    if decide (0 < repetitions config) then
      match collection !! 0%nat with
      | Some item => issue item 0 0
      | None => Done
      end
    else Done.
Proof. unfold Load.enter. destruct (decide _); [|done]. by destruct collection. Qed.

Lemma next_unfold (r i : nat) :
  next r i =
    match collection !! S i with
    | Some item => issue item r (S i)
    | None =>
        if decide (Z.of_nat (S r) < repetitions config) then
          match collection !! 0%nat with
          | Some item => issue item (S r) 0
          | None => Done
          end
        else Done
    end.
Proof.
  unfold Load.next. destruct (collection !! S i); [done|].
  destruct (decide _); [|done]. by destruct collection.
Qed.

Lemma ok_enter : ok enter 0%nat.
Proof.
  rewrite enter_unfold. destruct (decide (0 < repetitions config)) as [Hr|Hr].
  - destruct (collection !! 0%nat) as [item|] eqn:H0.
    + replace 0%nat with (0 * L + 0)%nat by lia.
      apply ok_issue; [done|lia|lia].
    + apply lookup_ge_None in H0. split; [nia|]. intros _.
      rewrite (nil_length_inv collection) by lia. constructor.
  - split; [lia|lia].
Qed.

Lemma ok_next (r i c : nat) : ok (Awaiting r i) c → ok (next r i) (S c).
Proof.
  intros (-> & Hr & Hi & Hup). rewrite next_unfold.
  destruct (collection !! S i) as [item|] eqn:Hnext.
  - replace (S (r * L + i)) with (r * L + S i)%nat by lia.
    apply ok_issue; [done..|].
    intros j Hj j' item' Hj' Hitem'. apply (Hup j' item'); [lia|done].
  - apply lookup_ge_None in Hnext. assert (S i = L) as HL by lia.
    destruct (decide (Z.of_nat (S r) < repetitions config)) as [Hrep|Hrep].
    + destruct (collection !! 0%nat) as [item|] eqn:H0.
      * replace (S (r * L + i)) with (S r * L + 0)%nat by lia.
        apply ok_issue; [done|lia|lia].
      * apply lookup_ge_None in H0. lia.
    + split; [nia|]. intros _. apply Forall_forall. intros item Hitem.
      apply list_elem_of_lookup in Hitem as [j Hj].
      apply lookup_lt_Some in Hj as Hlt. apply (Hup j item); [lia|done].
Qed.

Lemma runRequest_inv (item : jsval) (o : settled) (start now : Z) (res : result) :
  runRequest item o start now = Ok res →
  returns (resolve item) ∧ get item "name" = Ok (name res).
Proof.
  unfold runRequest. intros H.
  apply exc_bind_Ok in H as (req & Hreq & H).
  apply exc_bind_Ok in H as (nm & Hnm & H). simplify_eq.
  split; [by exists req|]. by destruct o.
Qed.

Lemma inv_step (s : state) (ev : event) : inv s → inv (step s ev).
Proof.
  intros [Hc Hcon Hlines Hlen (cnt & Hcnt & Hsum) Hnames].
  destruct ev as [u|u o start now]; simpl.
  - destruct (tasks s !! u) as [[]|] eqn:Hu; try by split; eauto.
    split; simpl; try done.
    + by rewrite length_insert.
    + exists cnt. split; [|done].
      destruct (Forall2_lookup_l _ _ _ _ _ Hcnt Hu) as (c & Hcu & Hok).
      simpl in Hok. subst c.
      rewrite <- (list_insert_id cnt u 0%nat Hcu).
      apply Forall2_insert; [done|apply ok_enter].
  - destruct (tasks s !! u) as [[|r i| |]|] eqn:Hu; try by split; eauto.
    destruct (collection !! i) as [item|] eqn:Hitem; [|by split; eauto].
    destruct (runRequest item o start now) as [res|] eqn:Hrun; [|by split; eauto].
    destruct (Forall2_lookup_l _ _ _ _ _ Hcnt Hu) as (c & Hcu & Hok).
    pose proof (sum_strict _ _ _ _ _ Hcnt Hu) as Hstrict.
    apply lookup_lt_Some in Hu as Hlt.
    assert (Z.of_nat n = users config ∧ Z.of_nat R = repetitions config)
      as [Hn HR].
    { simpl in Hok. lia. }
    assert (total = Z.of_nat (n * (R * L))) as Htotal.
    { unfold totalRequests. rewrite <- Hn, <- HR. lia. }
    destruct (updateProgress_returns (completedRequests s + 1) total)
      as (p & l & Hp & Hup & Hl); [lia|lia|].
    unfold resume. rewrite Hup.
    apply runRequest_inv in Hrun as [Hres Hname].
    split; simpl.
    + rewrite length_app. simpl. lia.
    + rewrite !length_app. simpl. lia.
    + intros k l' Hk. destruct (decide (k < length (console s))%nat) as [Hlt'|Hge].
      * rewrite lookup_app_l in Hk by done. by apply Hlines.
      * rewrite lookup_app_r in Hk by lia.
        destruct (k - length (console s))%nat as [|?] eqn:Hd; [|done].
        simpl in Hk. simplify_eq.
        replace (Z.of_nat (S k)) with (completedRequests s + 1) by lia. done.
    + by rewrite length_insert.
    + exists (<[u := S c]> cnt). split.
      * apply Forall2_insert; [done|by apply ok_next].
      * rewrite length_app. simpl.
        pose proof (sum_list_insert cnt u c (S c) Hcu). lia.
    + intros res' Hres'. apply elem_of_app in Hres' as [Hin|Hin]; [by apply Hnames|].
      apply list_elem_of_singleton in Hin as ->.
      exists item. split; [by eapply list_elem_of_lookup_2|done].
Qed.

Lemma inv_foldl (evs : list event) : ∀ s, inv s → inv (foldl step s evs).
Proof.
  induction evs as [|ev evs IH]; intros s Hs; [done|].
  simpl. apply IH. by apply inv_step.
Qed.

Lemma inv_run (evs : list event) : inv (run evs).
Proof. apply inv_foldl, inv_init. Qed.

(** *** Consequences of the invariant *)

Lemma results_bound (s : state) :
  inv s →
  (length (results s) ≤ n * (R * L))%nat
  ∧ (results s ≠ [] → total = Z.of_nat (n * (R * L)) ∧ 0 < total).
Proof.
  intros [_ _ _ Hlen (cnt & Hcnt & Hsum) _].
  pose proof (sum_bound _ _ Hcnt) as Hb. rewrite Hlen, <- Hsum in Hb.
  split; [done|]. intros Hne.
  assert (0 < length (results s))%nat as Hpos.
  { destruct (results s); [done|simpl; lia]. }
  assert (0 < n ∧ 0 < R ∧ 0 < L)%nat as (Hn & HR & HL) by nia.
  unfold totalRequests. split; [|nia].
  rewrite !Nat2Z.inj_mul, !Z2Nat.id by lia. lia.
Qed.

Lemma all_done_Forall (s : state) :
  all_done s = true → Forall (λ t, t = Done) (tasks s).
Proof.
  unfold all_done. rewrite forallb_forall. intros Hall.
  apply Forall_forall. intros t Ht. apply list_elem_of_In in Ht.
  specialize (Hall t Ht). by destruct t.
Qed.

Lemma done_count (ts : list task) (cnt : list nat) :
  Forall2 ok ts cnt → Forall (λ t, t = Done) ts →
  sum_list cnt = (length ts * (R * L))%nat.
Proof.
  induction 1 as [|t c ts cnt Hok _ IH]; intros Hdone; [done|].
  apply Forall_cons in Hdone as [-> Hdone]. simpl in *.
  destruct Hok as [-> _]. rewrite (IH Hdone). lia.
Qed.

Lemma completed_count (s : state) :
  inv s → all_done s = true → length (results s) = (n * (R * L))%nat.
Proof.
  intros [_ _ _ Hlen (cnt & Hcnt & Hsum) _] Hdone.
  rewrite Hsum, <- Hlen. apply done_count; [done|by apply all_done_Forall].
Qed.

(** C1.  With at least one user and one repetition, a run that
    completes (every user called [resolve()], so [Promise.all] returns)
    has recorded exactly users × repetitions × L results, which is the
    [totalRequests] computed before the run; and each result carries the
    name of a template of the collection. *)
Theorem completed_run_count (evs : list event) :
  1 ≤ users config → 1 ≤ repetitions config →
  all_done (run evs) = true →
  Z.of_nat (length (results (run evs)))
    = users config * repetitions config * Z.of_nat L
  ∧ Z.of_nat (length (results (run evs))) = total
  ∧ ∀ res, res ∈ results (run evs) →
      ∃ item, item ∈ collection ∧ get item "name" = Ok (name res).
Proof.
  intros Hu Hr Hdone. pose proof (inv_run evs) as Hinv.
  rewrite (completed_count _ Hinv Hdone).
  unfold totalRequests. rewrite !Nat2Z.inj_mul, !Z2Nat.id by lia.
  split; [lia|]. split; [lia|].
  intros res Hres. destruct (inv_names _ Hinv res Hres) as (item & ? & ? & _).
  by exists item.
Qed.

(** C9.  At every point of every run the counter equals the number of
    recorded results.  For a configuration with no negative count, once
    all users are done the counter equals [totalRequests], the last
    progress line written (one exists as soon as [totalRequests] is
    positive) shows 100% and the full count. *)
Theorem counter_tracks_results :
  (∀ evs, completedRequests (run evs) = Z.of_nat (length (results (run evs))))
  ∧ (∀ evs, 0 ≤ users config → 0 ≤ repetitions config →
       all_done (run evs) = true →
       completedRequests (run evs) = total
       ∧ (∀ l, last (console (run evs)) = Some l →
            percentage l = Finite 100
            ∧ shown_completed l = total ∧ shown_total l = total
            ∧ last_line l = true)
       ∧ (0 < total → is_Some (last (console (run evs))))).
Proof.
  split; [intros evs; apply (inv_completed _ (inv_run evs))|].
  intros evs Hu Hr Hdone. pose proof (inv_run evs) as Hinv.
  pose proof (completed_count _ Hinv Hdone) as Hcount.
  assert (Z.of_nat (length (results (run evs))) = total) as Htotal.
  { rewrite Hcount. unfold totalRequests.
    rewrite !Nat2Z.inj_mul, !Z2Nat.id by lia. lia. }
  split; [by rewrite (inv_completed _ Hinv)|]. split.
  - intros l Hl. rewrite last_lookup in Hl.
    apply lookup_lt_Some in Hl as Hlt.
    apply (inv_lines _ Hinv) in Hl. rewrite (inv_console _ Hinv) in Hlt, Hl.
    replace (Z.of_nat (S (pred (length (results (run evs)))))) with total
      in Hl by lia.
    destruct (updateProgress_returns total total)
      as (p & l' & Hp & Hup & Hpl & Hsc & Hst & Hll & _); [lia|lia|].
    rewrite Hup in Hl. simplify_eq.
    rewrite percent_full in Hp by lia. simplify_eq.
    rewrite Hpl, Hsc, Hst, Hll. repeat split. by apply bool_decide_eq_true.
  - intros Hpos. rewrite last_lookup. apply lookup_lt_is_Some.
    rewrite (inv_console _ Hinv). lia.
Qed.

(** C6, as the code has it.  The percentage is
    [Math.round((c / t) * 100)], computed on doubles: it is rounded, not
    floored.  For t > 0 it does not decrease when c grows, and for
    counts below 2^44 it is an integer nearest to 100 × c / t (when
    that is halfway between two integers, one of the two).  In a run,
    the line written after the c-th result shows c and that percentage
    of [totalRequests], and no later line shows a smaller percentage. *)
Theorem progress_is_rounded :
  (∀ c c' t : Z, 0 < t → c ≤ c' →
     ∃ p p', percent c t = Finite p ∧ percent c' t = Finite p' ∧ p ≤ p')
  ∧ (∀ c t p : Z, 0 ≤ c < 2 ^ 44 → 0 < t < 2 ^ 53 →
       percent c t = Finite p →
       200 * c - t ≤ 2 * t * p ≤ 200 * c + t)
  ∧ (∀ evs (k : nat) l, console (run evs) !! k = Some l →
       0 < total
       ∧ shown_completed l = Z.of_nat k + 1
       ∧ percentage l = percent (Z.of_nat k + 1) total
       ∧ ∃ p, percentage l = Finite p
           ∧ (total < 2 ^ 44 →
                200 * (Z.of_nat k + 1) - total ≤ 2 * total * p
                  ≤ 200 * (Z.of_nat k + 1) + total)
           ∧ ∀ (k' : nat) l', (k ≤ k')%nat → console (run evs) !! k' = Some l' →
               ∃ p', percentage l' = Finite p' ∧ p ≤ p').
Proof.
  assert (∀ c c' t : Z, 0 < t → c ≤ c' →
     ∃ p p', percent c t = Finite p ∧ percent c' t = Finite p' ∧ p ≤ p')
    as Hmono.
  { intros c c' t Ht Hc.
    destruct (percent_finite c t) as [p Hp]; [lia|].
    destruct (percent_finite c' t) as [p' Hp']; [lia|].
    exists p, p'. split; [done|]. split; [done|].
    by apply (percent_mono c c' t). }
  split; [exact Hmono|]. split; [exact F64Facts.round_pct_nearest|].
  intros evs k l Hl. pose proof (inv_run evs) as Hinv.
  assert (∀ (j : nat) lj, console (run evs) !! j = Some lj →
            0 < total ∧ Z.of_nat j + 1 ≤ total
            ∧ updateProgress (Z.of_nat j + 1) total = Ok lj) as Hline.
  { intros j lj Hj. apply lookup_lt_Some in Hj as Hlt.
    rewrite (inv_console _ Hinv) in Hlt.
    destruct (results_bound _ Hinv) as [Hb Ht].
    destruct Ht as [Ht Hpos]; [by destruct (results (run evs)); [simpl in Hlt; lia|]|].
    apply (inv_lines _ Hinv) in Hj.
    replace (Z.of_nat (S j)) with (Z.of_nat j + 1) in Hj by lia.
    split; [done|]. split; [lia|done]. }
  destruct (Hline k l Hl) as (Hpos & Hk & Hup).
  destruct (updateProgress_returns (Z.of_nat k + 1) total)
    as (p & l0 & Hp & Hup0 & Hpl & Hsc & _); [lia|lia|].
  rewrite Hup in Hup0. simplify_eq.
  split; [done|]. split; [done|]. split; [congruence|].
  exists p. split; [done|]. split.
  - intros Hsmall.
    assert (2 ^ 44 < 2 ^ 53) by (apply Z.pow_lt_mono_r; lia).
    apply (F64Facts.round_pct_nearest (Z.of_nat k + 1) total p); [lia|lia|done].
  - intros k' l' Hkk' Hl'.
    destruct (Hline k' l' Hl') as (_ & Hk' & Hup').
    destruct (updateProgress_returns (Z.of_nat k' + 1) total)
      as (p' & l1 & Hp' & Hup1 & Hpl' & _); [lia|lia|].
    rewrite Hup' in Hup1. simplify_eq. exists p'. split; [done|].
    apply (percent_mono (Z.of_nat k + 1) (Z.of_nat k' + 1) total); [lia|lia|done..].
Qed.

(** *** A template that does not resolve *)

Lemma failed_stays (s : state) (ev : event) (u : nat) (e : js_error) :
  tasks s !! u = Some (Failed e) → tasks (step s ev) !! u = Some (Failed e).
Proof.
  intros Hu. destruct ev as [v|v o start now]; simpl.
  - destruct (tasks s !! v) as [[]|] eqn:Hv; try done. simpl.
    rewrite list_lookup_insert_ne; [done|]. intros ->. congruence.
  - destruct (tasks s !! v) as [[|r i| |]|] eqn:Hv; try done.
    destruct (collection !! i); [|done].
    destruct (runRequest _ _ _ _); [|done].
    unfold resume. destruct (updateProgress _ _); simpl;
      (rewrite list_lookup_insert_ne; [done|]; intros ->; congruence).
Qed.

Lemma failed_forever (evs evs' : list event) (u : nat) (e : js_error) :
  tasks (run evs) !! u = Some (Failed e) →
  tasks (run (evs ++ evs')) !! u = Some (Failed e).
Proof.
  unfold Load.run. rewrite foldl_app. generalize (foldl step (init config) evs).
  induction evs' as [|ev evs' IH]; intros s Hs; [done|].
  simpl. apply IH. by apply failed_stays.
Qed.

Lemma never_completes (item : jsval) (evs : list event) :
  item ∈ collection → ¬ returns (resolve item) →
  1 ≤ users config → 1 ≤ repetitions config →
  all_done (run evs) = false.
Proof.
  intros Hitem Hres Hu Hr.
  destruct (all_done (run evs)) eqn:Hdone; [exfalso|done].
  pose proof (inv_run evs) as [_ _ _ Hlen (cnt & Hcnt & _) _].
  apply all_done_Forall in Hdone.
  destruct (tasks (run evs)) as [|t ts] eqn:Hts; [simpl in Hlen; lia|].
  apply Forall_cons in Hdone as [-> _].
  apply Forall2_cons_inv_l in Hcnt as (c & cnt' & [_ Hall] & _).
  apply Hres. eapply Forall_forall in Hall; [done|lia|done].
Qed.

(** C4, as the code has it.  An entry without a [request] field is not
    skipped.  [runRequest] throws a [TypeError] on it before anything is
    sent; the user that reaches it fails there and stays failed, so it
    records nothing for the entry and runs none of the later templates;
    every recorded result comes from a template that resolved; and with
    at least one user and one repetition the run never completes: no
    summary is produced, and nothing is thrown to the caller of
    [simulateLoad] either. *)
Theorem missing_request_stalls (item : jsval) (i : nat) :
  collection !! i = Some item → get item "request" = Ok VUndef →
  resolve item = Throw TypeError
  ∧ (∀ o start now, runRequest item o start now = Throw TypeError)
  ∧ (∀ r, issue item r i = Failed TypeError)
  ∧ (∀ evs evs' u e, tasks (run evs) !! u = Some (Failed e) →
       tasks (run (evs ++ evs')) !! u = Some (Failed e))
  ∧ (∀ evs res, res ∈ results (run evs) →
       ∃ item', item' ∈ collection ∧ returns (resolve item')
         ∧ get item' "name" = Ok (name res))
  ∧ (1 ≤ users config → 1 ≤ repetitions config →
       ∀ evs, simulateLoad config collection evs = None).
Proof.
  intros Hi Hreq.
  assert (resolve item = Throw TypeError) as Hres.
  { unfold resolve. by rewrite Hreq. }
  split; [done|]. split; [|split; [|split; [|split]]].
  - intros o start now. unfold runRequest. by rewrite Hres.
  - intros r. unfold issue. by rewrite Hres.
  - intros evs evs' u e. apply failed_forever.
  - intros evs res Hin.
    destruct (inv_names _ (inv_run evs) res Hin) as (item' & ? & ? & ?).
    by exists item'.
  - intros Hu Hr evs. unfold simulateLoad.
    rewrite (never_completes item evs); [done| |  |done..].
    + by eapply list_elem_of_lookup_2.
    + intros [req Hreq']. congruence.
Qed.

(** *** A run without requests *)

Lemma timers_fire (m : nat) : ∀ (a : nat) (s : state),
  enter = Done →
  tasks s = replicate a Done ++ replicate m Waiting →
  foldl step s (Timer <$> seq a m) =
    {| results := results s;
       completedRequests := completedRequests s;
       console := console s;
       tasks := replicate (a + m) Done |}.
Proof.
  induction m as [|m IH]; intros a s Henter Hs.
  - simpl. rewrite Nat.add_0_r. simpl in Hs. rewrite app_nil_r in Hs.
    destruct s; simpl in *. by subst.
  - simpl.
    assert (tasks s !! a = Some Waiting) as Ha.
    { rewrite Hs, lookup_app_r by (rewrite length_replicate; lia).
      rewrite length_replicate, Nat.sub_diag. done. }
    rewrite Ha, Henter. rewrite IH; [|done|]; simpl.
    + f_equal. replace (a + S m)%nat with (S (a + m)) by lia. done.
    + rewrite Hs. replace a with (length (replicate a Done) + 0)%nat at 1
        by (rewrite length_replicate; lia).
      rewrite insert_app_r. simpl.
      rewrite (cons_middle Done (replicate a Done)), app_assoc.
      by rewrite <- replicate_S_end.
Qed.


(** C7.  When [totalRequests] is 0 no request is ever issued: whatever
    the events, no result is recorded and no progress percentage is
    computed; firing the timers completes the run; and a completed run
    reports no rows, 0 requests, 0 errors, with a success rate and an
    average time that are 0 / 0, [NaN], not an exception. *)
Theorem degenerate_run :
  total = 0 →
  (∀ evs, results (run evs) = [] ∧ console (run evs) = []
     ∧ completedRequests (run evs) = 0)
  ∧ simulateLoad config collection (Timer <$> seq 0 n) = Some (Ok empty_report)
  ∧ (∀ evs out, simulateLoad config collection evs = Some out →
       out = Ok empty_report)
  ∧ rows empty_report = ∅
  ∧ (globalSuccessRate empty_report = NaN ∨ globalSuccessRate empty_report = Finite 0)
  ∧ (globalAvgTime empty_report = NaN ∨ globalAvgTime empty_report = Finite 0).
Proof.
  intros Htotal.
  assert (∀ evs, results (run evs) = [] ∧ console (run evs) = []
     ∧ completedRequests (run evs) = 0) as Hnone.
  { intros evs. pose proof (inv_run evs) as Hinv.
    destruct (results (run evs)) as [|res rs] eqn:Hrs.
    - pose proof (inv_console _ Hinv) as Hcon.
      pose proof (inv_completed _ Hinv) as Hc. rewrite Hrs in Hcon, Hc.
      split; [done|]. split; [by apply nil_length_inv|done].
    - destruct (results_bound _ Hinv) as [_ Hpos].
      rewrite Hrs in Hpos. destruct Hpos as [_ Hpos]; [done|lia]. }
  split; [done|]. split; [|split; [|by auto]].
  - unfold simulateLoad, Load.run.
    assert (n = 0%nat ∨ enter = Done) as [Hn|Henter].
    { unfold totalRequests in Htotal. unfold Load.enter.
      destruct (decide (0 < repetitions config)); [|by right].
      destruct collection; [by right|]. left. simpl length in Htotal. nia. }
    + rewrite Hn. simpl. unfold init. rewrite Hn. reflexivity.
    + rewrite (timers_fire n 0 (init config) Henter) by done. simpl.
      unfold all_done. simpl.
      replace (forallb _ (replicate n Done)) with true; [done|].
      symmetry. apply forallb_forall. intros t Ht.
      apply list_elem_of_In, elem_of_replicate in Ht as [-> _]. done.
  - intros evs out. unfold simulateLoad.
    destruct (all_done (run evs)); [|done].
    destruct (Hnone evs) as [-> _]. by intros [= <-].
Qed.

(** *** Runs that complete

    When every template resolves, letting each user in turn start and
    receive all its responses brings the run to completion. *)


Lemma step_settles (s : state) (u r i : nat) (o : settled) (start now : Z) :
  inv s → tasks s !! u = Some (Awaiting r i) →
  ∃ res l,
    step s (Settles u o start now) =
      {| results := results s ++ [res];
         completedRequests := completedRequests s + 1;
         console := console s ++ [l];
         tasks := <[u := next r i]> (tasks s) |}.
Proof.
  intros [Hc _ _ Hlen (cnt & Hcnt & Hsum) _] Hu.
  destruct (Forall2_lookup_l _ _ _ _ _ Hcnt Hu) as (c & Hcu & Hok).
  pose proof (sum_strict _ _ _ _ _ Hcnt Hu) as Hstrict.
  apply lookup_lt_Some in Hu as Hlt.
  destruct Hok as (-> & Hr & Hi & Hup).
  destruct (lookup_lt_is_Some_2 collection i Hi) as [item Hitem].
  destruct (runRequest_returns item o start now) as (nm & _ & Hrun).
  { by apply (Hup i item). }
  assert (total = Z.of_nat (n * (R * L))) as Htotal.
  { unfold totalRequests. rewrite !Nat2Z.inj_mul, !Z2Nat.id by lia. lia. }
  destruct (updateProgress_returns (completedRequests s + 1) total)
    as (p & l & _ & Hprog & _); [lia|lia|].
  exists (settle nm o start now), l.
  simpl. rewrite Hu, Hitem, Hrun. unfold resume.
  by rewrite Hprog.
Qed.

Lemma enter_cases :
  enter = Done ∨ ∃ item, item ∈ collection ∧ enter = issue item 0 0.
Proof.
  rewrite enter_unfold. destruct (decide _); [|by left].
  destruct (collection !! 0%nat) as [item|] eqn:H0; [|by left].
  right. exists item. split; [by eapply list_elem_of_lookup_2|done].
Qed.

Lemma next_cases (r i : nat) :
  next r i = Done
  ∨ ∃ item r' i', item ∈ collection ∧ next r i = issue item r' i'.
Proof.
  rewrite next_unfold. destruct (collection !! S i) as [item|] eqn:Hi.
  - right. exists item, r, (S i). split; [|done].
    by eapply list_elem_of_lookup_2.
  - destruct (decide _); [|by left].
    destruct (collection !! 0%nat) as [item|] eqn:H0; [|by left].
    right. exists item, (S r), 0%nat.
    split; [by eapply list_elem_of_lookup_2|done].
Qed.

Section all_resolve.
Hypothesis Hresolve : Forall (λ item, returns (resolve item)) collection.

Lemma issue_live (item : jsval) (r i : nat) :
  item ∈ collection → live (issue item r i).
Proof.
  intros Hitem. unfold issue.
  pose proof Hresolve as Hall. rewrite Forall_forall in Hall.
  destruct (Hall item Hitem) as [req ->]. done.
Qed.

Lemma enter_live : live enter.
Proof.
  destruct enter_cases as [->|(item & Hitem & ->)]; [done|].
  by apply issue_live.
Qed.

Lemma next_live (r i : nat) : live (next r i).
Proof.
  destruct (next_cases r i) as [->|(item & r' & i' & Hitem & ->)]; [done|].
  by apply issue_live.
Qed.

Lemma session_settles (k : nat) : ∀ (s : state) (u : nat) (t : task) (c : nat),
  inv s → tasks s !! u = Some t → live t → ok t c → (c + k = R * L)%nat →
  inv (foldl step s (replicate k (Settles u (Responded 200) 0 0)))
  ∧ tasks (foldl step s (replicate k (Settles u (Responded 200) 0 0)))
      = <[u := Done]> (tasks s).
Proof.
  induction k as [|k IH]; intros s u t c Hinv Hu Hlive Hok Hk.
  - simpl. split; [done|]. destruct t as [|r i| |]; try done.
    + simpl in Hok. nia.
    + by rewrite list_insert_id.
  - destruct t as [|r i| |]; try done; [|simpl in Hok; lia].
    destruct (step_settles s u r i (Responded 200) 0 0 Hinv Hu)
      as (res & l & Hstep).
    pose proof (inv_step s (Settles u (Responded 200) 0 0) Hinv) as Hinv'.
    apply lookup_lt_Some in Hu as Hlt.
    destruct (IH (step s (Settles u (Responded 200) 0 0)) u (next r i) (S c))
      as [Hinv'' Htasks]; [done| |apply next_live|by apply ok_next|lia|].
    { rewrite Hstep. simpl. by apply list_lookup_insert_eq. }
    change (foldl step s (replicate (S k) (Settles u (Responded 200) 0 0)))
      with (foldl step (step s (Settles u (Responded 200) 0 0))
              (replicate k (Settles u (Responded 200) 0 0))).
    split; [done|]. rewrite Htasks, Hstep. simpl.
    by rewrite list_insert_insert_eq.
Qed.

Lemma sessions_run (m : nat) : ∀ (a : nat) (s : state),
  inv s → tasks s = replicate a Done ++ replicate m Waiting →
  tasks (foldl step s (concat (session <$> seq a m))) = replicate (a + m) Done.
Proof.
  induction m as [|m IH]; intros a s Hinv Hs.
  - simpl. rewrite Nat.add_0_r. simpl in Hs. by rewrite app_nil_r in Hs.
  - change (concat (session <$> seq a (S m)))
      with (session a ++ concat (session <$> seq (S a) m)).
    rewrite foldl_app.
    assert (tasks s !! a = Some Waiting) as Ha.
    { rewrite Hs, lookup_app_r by (rewrite length_replicate; lia).
      rewrite length_replicate, Nat.sub_diag. done. }
    apply lookup_lt_Some in Ha as Hlt.
    pose proof (inv_step s (Timer a) Hinv) as Hinv'.
    assert (tasks (step s (Timer a)) = <[a := enter]> (tasks s)) as Htimer.
    { simpl. by rewrite Ha. }
    destruct (session_settles (R * L) (step s (Timer a)) a enter 0%nat)
      as [Hinv'' Htasks]; [done| |apply enter_live|apply ok_enter|lia|].
    { rewrite Htimer. by apply list_lookup_insert_eq. }
    change (foldl step s (session a))
      with (foldl step (step s (Timer a))
              (replicate (R * L) (Settles a (Responded 200) 0 0))).
    rewrite IH; [f_equal; lia|done|].
    rewrite Htasks, Htimer, list_insert_insert_eq, Hs.
    replace a with (length (replicate a Done) + 0)%nat at 1
      by (rewrite length_replicate; lia).
    rewrite insert_app_r. simpl.
    rewrite (cons_middle Done (replicate a Done)), app_assoc.
    by rewrite <- replicate_S_end.
Qed.

Lemma run_completes : all_done (run one_by_one) = true.
Proof.
  unfold all_done, Load.run, one_by_one.
  rewrite (sessions_run n 0 (init config)); [|apply inv_init|done].
  apply forallb_forall. intros t Ht.
  apply list_elem_of_In, elem_of_replicate in Ht as [-> _]. done.
Qed.

End all_resolve.

End run.

(** *** Instances *)

Lemma completed_run_count_witness :
  Z.of_nat (length (results (run (users_times 2 1) [ping] both_answer)))
    = users (users_times 2 1) * repetitions (users_times 2 1)
      * Z.of_nat (length [ping])
  ∧ Z.of_nat (length (results (run (users_times 2 1) [ping] both_answer)))
    = totalRequests (users_times 2 1) [ping]
  ∧ ∀ res, res ∈ results (run (users_times 2 1) [ping] both_answer) →
      ∃ item, item ∈ [ping] ∧ get item "name" = Ok (name res).
Proof.
  apply (completed_run_count (users_times 2 1) [ping] both_answer).
  - simpl. lia.
  - simpl. lia.
  - vm_compute. reflexivity.
Defined.

Lemma counter_tracks_results_witness :
  completedRequests (run (users_times 2 1) [ping] both_answer)
    = totalRequests (users_times 2 1) [ping]
  ∧ (∀ l, last (console (run (users_times 2 1) [ping] both_answer)) = Some l →
       percentage l = Finite 100
       ∧ shown_completed l = totalRequests (users_times 2 1) [ping]
       ∧ shown_total l = totalRequests (users_times 2 1) [ping]
       ∧ last_line l = true)
  ∧ (0 < totalRequests (users_times 2 1) [ping] →
       is_Some (last (console (run (users_times 2 1) [ping] both_answer)))).
Proof.
  destruct (counter_tracks_results (users_times 2 1) [ping]) as [_ Hdone].
  apply (Hdone both_answer).
  - simpl. lia.
  - simpl. lia.
  - vm_compute. reflexivity.
Defined.

Lemma progress_is_rounded_witness :
  (∃ p p', percent 2 3 = Finite p ∧ percent 3 3 = Finite p' ∧ p ≤ p')
  ∧ 200 * 2 - 3 ≤ 2 * 3 * 67 ≤ 200 * 2 + 3.
Proof.
  destruct (progress_is_rounded (users_times 3 1) [ping])
    as (Hmono & Hnear & _).
  split.
  - apply (Hmono 2 3 3); lia.
  - apply (Hnear 2 3 67); [split; [lia|reflexivity]
                          |split; [lia|reflexivity]
                          |vm_compute; reflexivity].
Defined.

(** C6 as stated fails: after the second of three results the
    indicator shows 67, and the floor of 2 / 3 × 100 is 66. *)
Lemma progress_not_floored :
  (2 * 100) `div` 3 = 66
  ∧ percent 2 3 = Finite 67
  ∧ ∃ l, console (run (users_times 3 1) [ping] two_of_three) !! 1%nat = Some l
      ∧ shown_completed l = 2 ∧ shown_total l = 3
      ∧ percentage l = Finite 67
      ∧ percentage l ≠ Finite ((2 * 100) `div` 3).
Proof.
  split; [reflexivity|]. split; [vm_compute; reflexivity|].
  eexists. split; [vm_compute; reflexivity|]. simpl.
  repeat split. discriminate.
Qed.

(** Where 100 × c / t is halfway between two integers, the rounding of
    the quotient decides: 23 / 40 and 203 / 200 are rounded down to
    doubles and the percentages are 57 and 101, not 58 and 102; 1 / 8 is
    a double and 12.5 goes up to 13. *)
Lemma progress_halfway :
  percent 23 40 = Finite 57 ∧ percent 203 200 = Finite 101
  ∧ percent 29 200 = Finite 14 ∧ percent 1 8 = Finite 13.
Proof. repeat split; vm_compute; reflexivity. Qed.

Lemma missing_request_stalls_witness :
  resolve norequest = Throw TypeError
  ∧ (∀ o start now, runRequest norequest o start now = Throw TypeError)
  ∧ (∀ r, issue norequest r 0 = Failed TypeError)
  ∧ (∀ evs evs' u e,
       tasks (run (users_times 1 1) [norequest; ping] evs) !! u
         = Some (Failed e) →
       tasks (run (users_times 1 1) [norequest; ping] (evs ++ evs')) !! u
         = Some (Failed e))
  ∧ (∀ evs res, res ∈ results (run (users_times 1 1) [norequest; ping] evs) →
       ∃ item', item' ∈ [norequest; ping] ∧ returns (resolve item')
         ∧ get item' "name" = Ok (name res))
  ∧ (1 ≤ users (users_times 1 1) → 1 ≤ repetitions (users_times 1 1) →
       ∀ evs, simulateLoad (users_times 1 1) [norequest; ping] evs = None).
Proof.
  apply (missing_request_stalls (users_times 1 1) [norequest; ping] norequest 0).
  - reflexivity.
  - reflexivity.
Defined.

Lemma broken_first_stuck (evs : list event) :
  results (run (users_times 1 1) [norequest; ping] evs) = []
  ∧ (tasks (run (users_times 1 1) [norequest; ping] evs) = [Waiting]
     ∨ tasks (run (users_times 1 1) [norequest; ping] evs) = [Failed TypeError]).
Proof.
  unfold run.
  assert (results (init (users_times 1 1)) = []
          ∧ (tasks (init (users_times 1 1)) = [Waiting]
             ∨ tasks (init (users_times 1 1)) = [Failed TypeError])) as Hinit.
  { split; [done|by left]. }
  revert Hinit. generalize (init (users_times 1 1)).
  induction evs as [|ev evs IH]; intros s Hs; [done|].
  simpl. apply IH. clear IH.
  destruct s as [res c con ts]. simpl in Hs. destruct Hs as [-> Hts].
  assert (enter (users_times 1 1) [norequest; ping] = Failed TypeError)
    as Henter by reflexivity.
  destruct ev as [u|u o start now]; simpl.
  - destruct Hts as [->| ->]; destruct u as [|[|u]]; simpl; auto.
  - destruct Hts as [->| ->]; destruct u as [|[|u]]; simpl; auto.
Qed.

(** C4 as stated fails: with the broken template first, the only user
    fails on it when its timer fires; whatever happens next, the next
    template is never requested (no result is ever recorded) and the run
    never completes. *)
Lemma missing_request_not_skipped :
  tasks (run (users_times 1 1) [norequest; ping] [Timer 0])
    = [Failed TypeError]
  ∧ ∀ evs,
      results (run (users_times 1 1) [norequest; ping] evs) = []
      ∧ all_done (run (users_times 1 1) [norequest; ping] evs) = false
      ∧ simulateLoad (users_times 1 1) [norequest; ping] evs = None.
Proof.
  split; [reflexivity|]. intros evs.
  assert (all_done (run (users_times 1 1) [norequest; ping] evs) = false)
    as Hnot.
  { apply (never_completes _ _ norequest).
    - left.
    - intros [req Hreq]. discriminate.
    - simpl. lia.
    - simpl. lia. }
  split; [apply broken_first_stuck|]. split; [done|].
  unfold simulateLoad. by rewrite Hnot.
Qed.

Lemma degenerate_run_witness :
  (∀ evs, results (run (users_times 2 1) [] evs) = []
     ∧ console (run (users_times 2 1) [] evs) = []
     ∧ completedRequests (run (users_times 2 1) [] evs) = 0)
  ∧ simulateLoad (users_times 2 1) []
      (Timer <$> seq 0 (Z.to_nat (users (users_times 2 1))))
      = Some (Ok empty_report)
  ∧ (∀ evs out, simulateLoad (users_times 2 1) [] evs = Some out →
       out = Ok empty_report)
  ∧ rows empty_report = ∅
  ∧ (globalSuccessRate empty_report = NaN
     ∨ globalSuccessRate empty_report = Finite 0)
  ∧ (globalAvgTime empty_report = NaN ∨ globalAvgTime empty_report = Finite 0).
Proof.
  apply (degenerate_run (users_times 2 1) []). reflexivity.
Defined.

(** The scenario of two users and one template answering 200 in 50 ms. *)
Lemma two_users_scenario :
  simulateLoad (users_times 2 1) [ping] both_answer =
    Some (Ok {| rows := {[ "ping" := {| count := 2; row_errors := 0;
                                        avg := Finite 50; max := Finite 50;
                                        min := Finite 50; p95 := Some 50;
                                        successRate := Finite 100 |} ]};
                Summary.totalRequests := 2;
                totalErrors := 0;
                globalSuccessRate := Finite 100;
                globalAvgTime := Finite 50 |}).
Proof. vm_compute. reflexivity. Qed.

End LoadFacts.

Module IeeeFacts.
Import Progress Summary Ieee.

(** On doubles [0.95 * n] floors to the same index as 19 n / 20, for
    every group size up to 4000; so do the two sizes named in C3. *)
Lemma p95_index_f64_agrees (n : nat) :
  (n ≤ 4000)%nat → p95_index_f64 n = Finite (Z.of_nat (p95_index n)).
Proof.
  intros Hn.
  assert (forallb p95_index_agrees (seq 0 4001) = true) as Hall
    by (vm_compute; reflexivity).
  rewrite forallb_forall in Hall.
  specialize (Hall n). unfold p95_index_agrees in Hall.
  apply bool_decide_eq_true in Hall; [done|]. apply in_seq. lia.
Qed.

Lemma p95_index_f64_1_20 :
  p95_index_f64 1 = Finite 0 ∧ p95_index_f64 20 = Finite 19.
Proof. split; vm_compute; reflexivity. Qed.

(** The machine computes the percentages of the model: for every total
    up to 60 and every count from 0 to five past the total, and for a
    few larger or negative counts; 2 of 3 is 67 and 23 of 40 is 57 on
    both sides. *)
Lemma percent_f64_agrees (c t : nat) :
  (t ≤ 60)%nat → (c ≤ t + 5)%nat →
  percent_f64 (Z.of_nat c) (Z.of_nat t) = percent (Z.of_nat c) (Z.of_nat t).
Proof.
  intros Ht Hc.
  assert (forallb percent_agrees_upto (seq 0 61) = true) as Hall
    by (vm_compute; reflexivity).
  rewrite forallb_forall in Hall.
  specialize (Hall t ltac:(apply in_seq; lia)).
  unfold percent_agrees_upto in Hall. rewrite forallb_forall in Hall.
  specialize (Hall c ltac:(apply in_seq; lia)).
  by apply bool_decide_eq_true in Hall.
Qed.

(** Before [Math.round] already, the quotient and its product by 100
    are the same numbers on the machine and in [F64], for all counts
    and totals up to 40. *)
Lemma quotient_f64_agrees (a b : nat) :
  (a ≤ 40)%nat → (1 ≤ b ≤ 40)%nat →
  quotient_agrees (Z.of_nat a) (Z.of_nat b) = true.
Proof.
  intros Ha Hb.
  assert (forallb quotient_agrees_upto (seq 1 40) = true) as Hall
    by (vm_compute; reflexivity).
  rewrite forallb_forall in Hall.
  specialize (Hall b ltac:(apply in_seq; lia)).
  unfold quotient_agrees_upto in Hall. rewrite forallb_forall in Hall.
  apply (Hall a). apply in_seq. lia.
Qed.

Lemma percent_f64_points :
  Forall (λ ct, percent_f64 ct.1 ct.2 = percent ct.1 ct.2) percent_points.
Proof.
  assert (forallb (λ ct, percent_agrees ct.1 ct.2) percent_points = true)
    as Hall by (vm_compute; reflexivity).
  rewrite forallb_forall in Hall. apply Forall_forall. intros ct Hct.
  apply list_elem_of_In in Hct. specialize (Hall ct Hct).
  by apply bool_decide_eq_true in Hall.
Qed.

Lemma percent_f64_2_3 :
  percent_f64 2 3 = Finite 67 ∧ percent_f64 23 40 = Finite 57
  ∧ percent_f64 203 200 = Finite 101.
Proof. repeat split; vm_compute; reflexivity. Qed.

(** [Math.round(a / b)] on the machine is the rounding of the exact
    quotient, for every divisor up to 100 and dividend up to five times
    the divisor. *)
Lemma round_div_f64_agrees (a b : nat) :
  (b ≤ 100)%nat → (a ≤ 5 * b)%nat →
  round_div_f64 (Z.of_nat a) (Z.of_nat b) = round_div (Z.of_nat a) (Z.of_nat b).
Proof.
  intros Hb Ha.
  assert (forallb round_div_agrees_upto (seq 0 101) = true) as Hall
    by (vm_compute; reflexivity).
  rewrite forallb_forall in Hall.
  specialize (Hall b ltac:(apply in_seq; lia)).
  unfold round_div_agrees_upto in Hall. rewrite forallb_forall in Hall.
  specialize (Hall a ltac:(apply in_seq; lia)).
  by apply bool_decide_eq_true in Hall.
Qed.

End IeeeFacts.

(** * More properties of the code *)

Module ExecutorMore.
Import Executor Samples ExecutorFacts.

Lemma get_returns_iff (v : jsval) (k : string) :
  returns (get v k) ↔ ¬ nullish v.
Proof.
  unfold nullish. split.
  - intros [a Ha] [-> | ->]; discriminate.
  - intros Hn. destruct v; try (eexists; reflexivity); exfalso; apply Hn; auto.
Qed.

Lemma reduce_headers_returns_iff (h : jsval) :
  returns (reduce_headers h) ↔
    truthy h = false ∨ ∃ l, h = VArr l ∧ Forall fileable l.
Proof.
  unfold reduce_headers, or_else. destruct (truthy h) eqn:Ht.
  - split.
    + intros [m Hm]. right. destruct h; try discriminate.
      eexists. split; [done|]. apply (reduce_returns_iff _ ∅). by eexists.
    + intros [?|(l & -> & Hl)]; [done|]. by apply reduce_returns_iff.
  - split; [by left|]. intros _. by eexists.
Qed.

Lemma reduce_headers_throws (h : jsval) (e : js_error) :
  reduce_headers h = Throw e → e = TypeError.
Proof.
  unfold reduce_headers. destruct (or_else h (VArr [])); try by intros [= <-].
  apply reduce_throws.
Qed.

(** X1.  The statements of [runRequest] that run before the request is
    sent go through without a [TypeError] exactly when the template has
    a [request] that is neither [undefined] nor [null], whose [url] is
    neither, and whose [header] is falsy or an array of entries that can
    all be filed: none is [undefined] or [null], and the key of each
    converts to a property name.  Nothing else in a template stops a
    request: neither the method, nor the body, nor the name. *)
Theorem resolve_returns_iff (item : jsval) :
  returns (resolve item) ↔
    ∃ req u h, get item "request" = Ok req
      ∧ get req "url" = Ok u ∧ ¬ nullish u
      ∧ get req "header" = Ok h
      ∧ (truthy h = false
         ∨ ∃ l, h = VArr l
             ∧ Forall (λ e, ¬ nullish e
                            ∧ ∃ kv, get e "key" = Ok kv
                                ∧ returns (toPropertyKey kv)) l).
Proof.
  assert (∀ l, Forall fileable l ↔
            Forall (λ e, ¬ nullish e
                         ∧ ∃ kv, get e "key" = Ok kv
                             ∧ returns (toPropertyKey kv)) l) as Hfile.
  { intros l. apply Forall_iff. intros e. split.
    - intros (k & kv & Hk & Hkey). split.
      + apply (get_returns_iff e "key"). by eexists.
      + exists kv. split; [done|]. by exists k.
    - intros (_ & kv & Hk & k & Hkey). by exists k, kv. }
  split.
  - intros [rq Hrq]. unfold resolve in Hrq.
    apply exc_bind_Ok in Hrq as (req & Hreq & Hrq).
    apply exc_bind_Ok in Hrq as (u & Hu & Hrq).
    apply exc_bind_Ok in Hrq as (url & Hurl & Hrq).
    apply exc_bind_Ok in Hrq as (m & Hm & Hrq).
    apply exc_bind_Ok in Hrq as (h & Hh & Hrq).
    apply exc_bind_Ok in Hrq as (hs & Hhs & Hrq).
    exists req, u, h. split; [done|]. split; [done|]. split.
    + destruct u; try (intros [?|?]; discriminate); simpl in Hurl; discriminate.
    + split; [done|].
      destruct (proj1 (reduce_headers_returns_iff h)) as [?|(l & -> & Hl)];
        [by eexists|by left|].
      right. exists l. split; [done|]. by apply Hfile.
  - intros (req & u & h & Hreq & Hu & Hnu & Hh & Hhs).
    assert (¬ nullish req) as Hnreq.
    { apply (get_returns_iff req "url"). by eexists. }
    assert (returns (reduce_headers h)) as [hs Hhs'].
    { apply reduce_headers_returns_iff.
      destruct Hhs as [?|(l & -> & Hl)]; [by left|].
      right. exists l. split; [done|]. by apply Hfile. }
    destruct (proj2 (get_returns_iff req "method") Hnreq) as [m Hm].
    destruct (proj2 (get_returns_iff req "body") Hnreq) as [b Hb].
    destruct (proj2 (get_returns_iff u "raw") Hnu) as [raw Hraw].
    unfold resolve. rewrite Hreq. simpl. rewrite Hu. simpl.
    assert (∃ url, (match u with VStr _ => Ok u | _ => get u "raw" end) = Ok url)
      as [url ->].
    { destruct u; eauto. }
    simpl. rewrite Hm. simpl. rewrite Hh. simpl. rewrite Hhs'. simpl.
    rewrite Hb. simpl.
    assert (∃ r, (match b with VUndef | VNull => Ok VUndef | _ => get b "raw" end)
                 = Ok r) as [r ->].
    { destruct b; simpl; eauto. }
    simpl. by eexists.
Qed.

Lemma resolve_returns_iff_witness :
  returns (resolve ping)
  ∧ ¬ returns (resolve (VObj {[ "request" :=
        VObj {[ "url" := VStr "http://example.test/";
                "header" := VArr [keyed stringly "x"] ]} ]})).
Proof.
  split.
  - apply (resolve_returns_iff ping).
    eexists _, _, _. split; [vm_compute; reflexivity|].
    split; [vm_compute; reflexivity|]. split; [by intros [?|?]|].
    split; [vm_compute; reflexivity|]. by left.
  - intros Hret. apply resolve_returns_iff in Hret
      as (req & u & h & Hreq & Hu & _ & Hh & Hhs).
    vm_compute in Hreq. injection Hreq as <-.
    vm_compute in Hh. injection Hh as <-.
    destruct Hhs as [Hf|(l & Hl & Hall)]; [discriminate|].
    injection Hl as <-.
    apply Forall_cons in Hall as [(_ & kv & Hk & k & Hkey) _].
    vm_compute in Hk. injection Hk as <-. discriminate.
Defined.

(** A failure of those statements is always a [TypeError]. *)
Lemma resolve_throws (item : jsval) (e : js_error) :
  resolve item = Throw e → e = TypeError.
Proof.
  unfold resolve. intros H.
  apply exc_bind_Throw in H as [H|(req & _ & H)]; [by eapply get_throws|].
  apply exc_bind_Throw in H as [H|(u & _ & H)]; [by eapply get_throws|].
  apply exc_bind_Throw in H as [H|(url & _ & H)].
  { destruct u; try discriminate; by eapply get_throws. }
  apply exc_bind_Throw in H as [H|(m & _ & H)]; [by eapply get_throws|].
  apply exc_bind_Throw in H as [H|(h & _ & H)]; [by eapply get_throws|].
  apply exc_bind_Throw in H as [H|(hs & _ & H)]; [by eapply reduce_headers_throws|].
  apply exc_bind_Throw in H as [H|(b & _ & H)]; [by eapply get_throws|].
  apply exc_bind_Throw in H as [H|(r & _ & H)]; [|done].
  destruct b; try discriminate; by eapply get_throws.
Qed.

(** X2.  What is handed to axios for a template that resolved: the
    [url] field itself when it is a string, its [raw] property
    otherwise; the template's method when it is truthy, "GET"
    otherwise, so the method is never empty; and a body that is either
    [null] or truthy, never [undefined] nor the empty string. *)
Theorem resolved_request_shape (item : jsval) (rq : request) :
  resolve item = Ok rq →
  truthy (method rq) = true
  ∧ (data rq = VNull ∨ truthy (data rq) = true)
  ∧ ∃ req u m, get item "request" = Ok req
      ∧ get req "url" = Ok u ∧ get req "method" = Ok m
      ∧ (∀ s, u = VStr s → url rq = VStr s)
      ∧ ((∀ s, u ≠ VStr s) → get u "raw" = Ok (url rq))
      ∧ (truthy m = true → method rq = m)
      ∧ (truthy m = false → method rq = VStr "GET").
Proof.
  unfold resolve. intros Hrq.
  apply exc_bind_Ok in Hrq as (req & Hreq & Hrq).
  apply exc_bind_Ok in Hrq as (u & Hu & Hrq).
  apply exc_bind_Ok in Hrq as (url0 & Hurl & Hrq).
  apply exc_bind_Ok in Hrq as (m & Hm & Hrq).
  apply exc_bind_Ok in Hrq as (h & Hh & Hrq).
  apply exc_bind_Ok in Hrq as (hs & Hhs & Hrq).
  apply exc_bind_Ok in Hrq as (b & Hb & Hrq).
  apply exc_bind_Ok in Hrq as (raw & Hraw & Hrq).
  simplify_eq. simpl. unfold or_else. split; [|split].
  - by destruct (truthy m) eqn:Ht.
  - destruct (truthy raw) eqn:Ht; [by right|by left].
  - exists req, u, m. split; [done|]. split; [done|]. split; [done|].
    split; [|split; [|split]].
    + intros s ->. simpl in Hurl. by simplify_eq.
    + intros Hns. destruct u; try done. by destruct (Hns s).
    + by intros ->.
    + by intros ->.
Qed.

Lemma resolved_request_shape_witness :
  ∃ rq, resolve ping = Ok rq
    ∧ truthy (method rq) = true
    ∧ url rq = VStr "http://example.test/ok"
    ∧ data rq = VNull.
Proof.
  destruct (resolve ping) as [rq|] eqn:Hrq; [|vm_compute in Hrq; discriminate].
  destruct (resolved_request_shape ping rq Hrq)
    as (Hm & _ & req & u & m & Hreq & Hu & _ & Hurl & _).
  exists rq. split; [reflexivity|]. split; [exact Hm|]. split.
  - apply Hurl. vm_compute in Hreq. injection Hreq as <-.
    vm_compute in Hu. by injection Hu as <-.
  - vm_compute in Hrq. by injection Hrq as <-.
Defined.

Lemma reduce_domain (l : list jsval) : ∀ (acc m : gmap string jsval),
  reduce l acc = Ok m →
  (∀ k, is_Some (m !! k) →
        is_Some (acc !! k) ∨ Exists (λ h, filed_under h k) l)
  ∧ (size m ≤ size acc + length l)%nat.
Proof.
  induction l as [|h l IH]; intros acc m Hm; simpl in Hm.
  - simplify_eq. split; [by left|simpl; lia].
  - apply exc_bind_Ok in Hm as (acc' & Hstep & Hm).
    apply header_step_inv in Hstep as (k0 & v0 & Hk0 & _ & ->).
    destruct (IH _ _ Hm) as [Hdom Hsize]. split.
    + intros k Hmk. destruct (Hdom k Hmk) as [Hacc|Hex].
      * destruct (decide (k0 = k)) as [<-|Hne].
        -- right. by left.
        -- left. by rewrite lookup_insert_ne in Hacc.
      * right. by right.
    + simpl. destruct (acc !! k0) as [v1|] eqn:Hacc.
      * rewrite map_size_insert_Some in Hsize by (by eexists). lia.
      * rewrite map_size_insert_None in Hsize by done. lia.
Qed.

(** X3.  When the fold over a header list returns, the mapping has
    exactly the names under which the entries of the list are filed
    ("undefined" for a missing key, the printed form of a key that is
    not a string), and no more entries than the list has; when it does
    not, what is thrown is a [TypeError]. *)
Theorem headers_domain (l : list jsval) :
  (∀ m : gmap string jsval, reduce_headers (VArr l) = Ok m →
     (∀ k, is_Some (m !! k) ↔ Exists (λ h, filed_under h k) l)
     ∧ (size m ≤ length l)%nat)
  ∧ (∀ e, reduce_headers (VArr l) = Throw e →
       e = TypeError ∧ Exists (λ h, ¬ fileable h) l).
Proof.
  split.
  - intros m Hm.
    destruct (reduce_spec l ∅ m Hm) as (_ & _ & Hpresent).
    destruct (reduce_domain l ∅ m Hm) as [Hdom Hsize]. split.
    + intros k. split.
      * intros Hk. destruct (Hdom k Hk) as [Hempty|Hex]; [|done].
        rewrite lookup_empty in Hempty. by destruct Hempty.
      * intros Hex. apply Hpresent. by right.
    + by rewrite map_size_empty in Hsize.
  - intros e He. split; [by eapply reduce_headers_throws|].
    apply not_Forall_Exists.
    + intros h. unfold fileable, filed_under.
      destruct (get h "key") as [kv|] eqn:Hk.
      * destruct (toPropertyKey kv) as [k|] eqn:Hkey.
        -- left. by exists k, kv.
        -- right. intros (k & kv' & Hk' & Hkey'). congruence.
      * right. intros (k & kv' & Hk' & _). congruence.
    + intros Hall. apply (reduce_returns_iff l ∅) in Hall as [m Hm].
      change (reduce l ∅ = Throw e) in He. congruence.
Qed.

Lemma headers_domain_witness :
  ∃ m : gmap string jsval,
    reduce_headers (VArr [header "a" "1"; unkeyed "x"; header "a" "2"]) = Ok m
    ∧ (∀ k, is_Some (m !! k) ↔
         Exists (λ h, filed_under h k)
           [header "a" "1"; unkeyed "x"; header "a" "2"])
    ∧ (size m ≤ 3)%nat.
Proof.
  destruct (headers_domain [header "a" "1"; unkeyed "x"; header "a" "2"])
    as [Hmap _].
  eexists. split; [vm_compute; reflexivity|]. apply Hmap.
  vm_compute. reflexivity.
Defined.

End ExecutorMore.

Module ProgressMore.
Import Progress ProgressFacts.

Lemma half_range (p : Z) :
  (p `div` 2 < 0 ↔ p < 0) ∧ (50 - p `div` 2 < 0 ↔ 101 < p).
Proof.
  split; split; intros H.
  - destruct (decide (p < 0)); [done|].
    assert (0 ≤ p `div` 2) by (apply Z.div_pos; lia). lia.
  - apply Z.div_lt_upper_bound; lia.
  - destruct (decide (101 < p)); [done|].
    assert (p `div` 2 < 51) by (apply Z.div_lt_upper_bound; lia). lia.
  - assert (51 ≤ p `div` 2) by (apply Z.div_le_lower_bound; lia). lia.
Qed.

(** What [updateProgress] does with each percentage. *)
Lemma updateProgress_cases (c t : Z) :
  match percent c t with
  | Finite p =>
      if decide (0 ≤ p ≤ 101) then
        updateProgress c t =
          Ok {| percentage := Finite p;
                filled := Z.to_nat (p `div` 2);
                remaining := Z.to_nat (50 - p `div` 2);
                shown_completed := c;
                shown_total := t;
                last_line := bool_decide (c = t) |}
      else updateProgress c t = Throw RangeError
  | NaN =>
      updateProgress c t =
        Ok {| percentage := NaN; filled := 0; remaining := 0;
              shown_completed := c; shown_total := t;
              last_line := bool_decide (c = t) |}
  | PosInf | NegInf => updateProgress c t = Throw RangeError
  end.
Proof.
  unfold updateProgress. destruct (percent c t) as [p| | |]; try done.
  destruct (half_range p) as [Hlow Hhigh]. simpl.
  destruct (decide (0 ≤ p ≤ 101)) as [Hin|Hout].
  - destruct (decide (p `div` 2 < 0)); [lia|]. simpl.
    destruct (decide (50 - p `div` 2 < 0)); [lia|]. done.
  - destruct (decide (p `div` 2 < 0)); [done|]. simpl.
    destruct (decide (50 - p `div` 2 < 0)); [done|]. lia.
Qed.

(** X4.  [updateProgress] draws its bar exactly when the percentage it
    computes is [NaN] or lies between 0 and 101; otherwise one of the
    two [repeat] calls gets a negative or infinite count and a
    [RangeError] is thrown, and nothing else is ever thrown.  A bar
    that is drawn for a percentage p has [floor(p / 2)] full cells out
    of 50.  For a positive total t, the bar is drawn for every count
    from 0 to t, and it is not for a count of 1.02 t or more, nor for a
    count of -t / 100 or less. *)
Theorem updateProgress_returns_iff (c t : Z) :
  (returns (updateProgress c t) ↔
     percent c t = NaN ∨ ∃ p, percent c t = Finite p ∧ 0 ≤ p ≤ 101)
  ∧ (∀ l, updateProgress c t = Ok l →
       percentage l = percent c t
       ∧ ∀ p, percentage l = Finite p →
           Z.of_nat (filled l) = p `div` 2
           ∧ (filled l + remaining l = 50)%nat)
  ∧ (∀ e, updateProgress c t = Throw e → e = RangeError)
  ∧ (0 < t → 0 ≤ c ≤ t → returns (updateProgress c t))
  ∧ (0 < t → 102 * t ≤ 100 * c → updateProgress c t = Throw RangeError)
  ∧ (0 < t → 100 * c ≤ - t → updateProgress c t = Throw RangeError).
Proof.
  pose proof (updateProgress_cases c t) as Hcases.
  split; [|split; [|split; [|split; [|split]]]].
  - destruct (percent c t) as [p| | |].
    + destruct (decide (0 ≤ p ≤ 101)) as [Hin|Hout]; rewrite Hcases.
      * split; [|by eexists]. intros _. right. by exists p.
      * split; [by intros [? ?]|]. intros [?|(q & [= <-] & ?)]; done.
    + rewrite Hcases. split; [by left|by eexists].
    + rewrite Hcases. split; [by intros [? ?]|].
      intros [?|(q & ? & _)]; done.
    + rewrite Hcases. split; [by intros [? ?]|].
      intros [?|(q & ? & _)]; done.
  - intros l Hl. destruct (percent c t) as [p| | |].
    + destruct (decide (0 ≤ p ≤ 101)) as [Hin|Hout];
        rewrite Hcases in Hl; [|done]. simplify_eq. simpl.
      split; [done|]. intros q [= <-].
      assert (0 ≤ p `div` 2 < 51) as Hh.
      { split; [apply Z.div_pos; lia|]. apply Z.div_lt_upper_bound; lia. }
      split; lia.
    + rewrite Hcases in Hl. by simplify_eq.
    + rewrite Hcases in Hl. done.
    + rewrite Hcases in Hl. done.
  - intros e He. destruct (percent c t) as [p| | |].
    + destruct (decide (0 ≤ p ≤ 101)); rewrite Hcases in He; by simplify_eq.
    + rewrite Hcases in He. done.
    + rewrite Hcases in He. by simplify_eq.
    + rewrite Hcases in He. by simplify_eq.
  - intros Ht Hc.
    destruct (updateProgress_returns c t Ht Hc) as (p & l & _ & Hl & _).
    by exists l.
  - intros Ht Hc.
    destruct (F64Facts.round_pct_high c t Ht Hc) as (p & Hp & Hge).
    unfold percent in Hcases. rewrite Hp in Hcases.
    destruct (decide (0 ≤ p ≤ 101)); [lia|done].
  - intros Ht Hc.
    destruct (F64Facts.round_pct_low c t Ht Hc) as (p & Hp & Hle).
    unfold percent in Hcases. rewrite Hp in Hcases.
    destruct (decide (0 ≤ p ≤ 101)); [lia|done].
Qed.

Lemma updateProgress_returns_iff_witness :
  returns (updateProgress 203 200)
  ∧ updateProgress 204 200 = Throw RangeError
  ∧ updateProgress (-2) 200 = Throw RangeError.
Proof.
  destruct (updateProgress_returns_iff 203 200) as (Hiff & _).
  destruct (updateProgress_returns_iff 204 200) as (_ & _ & _ & _ & Hhigh & _).
  destruct (updateProgress_returns_iff (-2) 200) as (_ & _ & _ & _ & _ & Hlow).
  split; [|split].
  - apply Hiff. right. exists 101. split; [vm_compute; reflexivity|lia].
  - apply Hhigh; lia.
  - apply Hlow; lia.
Defined.

(** X5.  With a total of 0 the percentage is not a number: for a count
    of 0 the line is written with an empty bar ([repeat(NaN)] is the
    empty string), for any other count the percentage is infinite and
    [repeat] throws a [RangeError]. *)
Theorem updateProgress_zero_total (c : Z) :
  (c = 0 → ∃ l, updateProgress c 0 = Ok l ∧ percentage l = NaN
             ∧ filled l = 0%nat ∧ remaining l = 0%nat ∧ last_line l = true)
  ∧ (c ≠ 0 → updateProgress c 0 = Throw RangeError).
Proof.
  split.
  - intros ->. eexists. split; [reflexivity|]. done.
  - intros Hc. unfold updateProgress, percent, round_pct. simpl.
    destruct (decide (c = 0)); [lia|].
    by destruct (decide (0 < c)).
Qed.

Lemma updateProgress_zero_total_witness :
  (∃ l, updateProgress 0 0 = Ok l ∧ percentage l = NaN
     ∧ filled l = 0%nat ∧ remaining l = 0%nat ∧ last_line l = true)
  ∧ updateProgress 3 0 = Throw RangeError.
Proof.
  split.
  - apply (updateProgress_zero_total 0). reflexivity.
  - apply (updateProgress_zero_total 3). lia.
Defined.

End ProgressMore.

Module ConfigMore.
Import Config ConfigFacts.

(** X6.  Whatever [./config.json] holds, the configuration returned has
    the four keys of the defaults; and a file that is missing,
    unreadable, not JSON, or that parses to [null], a number or a
    boolean gives the defaults unchanged. *)
Theorem loadConfig_keeps_default_keys :
  (∀ f k, is_Some (DEFAULT_CONFIG !! k) → is_Some (loadConfig f !! k))
  ∧ (∀ f, f = Missing ∨ f = Unusable ∨ f = Parsed VNull
          ∨ (∃ z, f = Parsed (VNum z)) ∨ (∃ b, f = Parsed (VBool b)) →
          loadConfig f = DEFAULT_CONFIG)
  ∧ (∀ k, is_Some (DEFAULT_CONFIG !! k) ↔
          k = "collectionPath" ∨ k = "users" ∨ k = "repetitions"
          ∨ k = "delayMsBetweenUsers").
Proof.
  split; [|split].
  - intros f k [d Hd]. destruct f as [| |v]; simpl; [by eexists..|].
    rewrite lookup_union. destruct (spread v !! k); rewrite Hd; by eexists.
  - intros f [->|[->|[->|[[z ->]|[b ->]]]]]; simpl; try done;
      by rewrite (left_id_L ∅ (∪)).
  - intros k. unfold DEFAULT_CONFIG. split.
    + intros [v Hv].
      repeat (apply lookup_insert_Some in Hv as [[<- _]|[_ Hv]]; [by auto|]).
      apply lookup_singleton_Some in Hv as [<- _]. auto.
    + intros [->|[->|[->| ->]]]; by eexists.
Qed.

Lemma loadConfig_keeps_default_keys_witness :
  is_Some (loadConfig (Parsed (VStr "ab")) !! "users")
  ∧ loadConfig (Parsed (VNum 7)) = DEFAULT_CONFIG.
Proof.
  destruct loadConfig_keeps_default_keys as (Hkeys & Hdef & _). split.
  - apply Hkeys. by eexists.
  - apply Hdef. right. right. right. left. by eexists.
Defined.

End ConfigMore.

Module CollectionMore.
Import Executor Load ExecutorFacts ExecutorMore.

(** X7.  [loadCollection] returns for every parsed file but [null],
    where it throws a [TypeError]; what it returns is never falsy: the
    [item] of the file when that is truthy, the empty array when [item]
    is absent or falsy. *)
Theorem loadCollection_never_falsy :
  (∀ json, returns (loadCollection json) ↔ ¬ nullish json)
  ∧ (∀ json e, loadCollection json = Throw e → e = TypeError)
  ∧ (∀ json c, loadCollection json = Ok c → truthy c = true)
  ∧ (∀ json item, get json "item" = Ok item →
       (truthy item = true → loadCollection json = Ok item)
       ∧ (truthy item = false → loadCollection json = Ok (VArr []))).
Proof.
  unfold loadCollection. split; [|split; [|split]].
  - intros json. rewrite <- (get_returns_iff json "item"). split.
    + intros [c Hc]. apply ExecutorFacts.exc_bind_Ok in Hc as (item & -> & _).
      by eexists.
    + intros [item ->]. simpl. by eexists.
  - intros json e H. apply exc_bind_Throw in H as [H|(item & _ & H)]; [|done].
    by eapply get_throws.
  - intros json c Hc. apply ExecutorFacts.exc_bind_Ok in Hc as (item & _ & Hc).
    simplify_eq. unfold or_else. by destruct (truthy item) eqn:Ht.
  - intros json item ->. simpl. unfold or_else. split; by intros ->.
Qed.

Lemma loadCollection_never_falsy_witness :
  loadCollection (VObj {[ "info" := VStr "x" ]}) = Ok (VArr [])
  ∧ truthy (VArr []) = true.
Proof.
  destruct loadCollection_never_falsy as (_ & _ & Htruthy & Hitem).
  destruct (Hitem (VObj {[ "info" := VStr "x" ]}) VUndef) as [_ Hfalsy];
    [vm_compute; reflexivity|].
  split; [apply Hfalsy; reflexivity|].
  apply (Htruthy (VObj {[ "info" := VStr "x" ]})). apply Hfalsy. reflexivity.
Defined.

End CollectionMore.

Module SummaryMore.
Import Executor Summary Samples ExecutorFacts ProgressFacts SummaryFacts.

(** A name under which a result can be filed. *)
Lemma not_unfileable (v : jsval) :
  ¬ unfileable v ↔ ∃ k, toPropertyKey v = Ok k ∧ k ∉ inherited.
Proof.
  unfold unfileable. split.
  - intros Hn. destruct (toPropertyKey v) as [k|] eqn:Hk.
    + exists k. split; [done|]. intros Hin. apply Hn. by intros k' [= <-].
    + exfalso. apply Hn. intros k' Hk'. discriminate.
  - intros (k & Hk & Hout) Hall. by apply Hout, Hall.
Qed.

Lemma tally_returns_iff (summary : gmap string group) (r : result) :
  returns (tally summary r) ↔ ¬ unfileable (name r).
Proof.
  rewrite not_unfileable. unfold tally. split.
  - intros [m Hm]. apply exc_bind_Ok in Hm as (k & Hk & Hm).
    destruct (decide (k ∈ inherited)); [discriminate|]. by exists k.
  - intros (k & -> & Hout). simpl.
    destruct (decide (k ∈ inherited)); [done|]. by eexists.
Qed.

Lemma tally_throws (summary : gmap string group) (r : result) (e : js_error) :
  tally summary r = Throw e → e = TypeError.
Proof.
  unfold tally. intros H.
  apply exc_bind_Throw in H as [H|(k & _ & H)]; [by eapply toString_throws|].
  destruct (decide (k ∈ inherited)); by simplify_eq.
Qed.

Lemma tally_all_returns_iff (results : list result) :
  ∀ summary : gmap string group,
    returns (tally_all results summary) ↔
      Forall (λ r, ¬ unfileable (name r)) results.
Proof.
  induction results as [|r rs IH]; intros summary; simpl.
  - split; [constructor|]. intros _. by eexists.
  - rewrite Forall_cons, <- (tally_returns_iff summary r). split.
    + intros [m Hm]. apply exc_bind_Ok in Hm as (m' & Hm' & Hm).
      split; [by eexists|]. apply (IH m'). by eexists.
    + intros [[m' ->] Hrs]. simpl. by apply IH.
Qed.

Lemma tally_all_throws (results : list result) :
  ∀ (summary : gmap string group) e,
    tally_all results summary = Throw e → e = TypeError.
Proof.
  induction results as [|r rs IH]; intros summary e; simpl; [done|].
  intros H. apply exc_bind_Throw in H as [H|(m' & _ & H)]; [|by eapply IH].
  by eapply tally_throws.
Qed.

(** X8.  [showSummary] throws a [TypeError] as soon as one result
    carries a name under which nothing can be filed: a name that does
    not convert to a property key (an object with a property [toString]
    of its own), or that converts to the name of a property of
    [Object.prototype] ("constructor", "toString", "__proto__", ...),
    whatever the other results are.  So when a report is returned, every
    result has a name that converts to a key outside that list, and the
    report has a row under that key. *)
Theorem showSummary_rejects_names (results : list result) :
  (Exists (λ r, unfileable (name r)) results →
     showSummary results = Throw TypeError)
  ∧ (∀ rep, showSummary results = Ok rep →
       Forall (λ r, ∃ k, toPropertyKey (name r) = Ok k ∧ (k ∉ inherited)
                      ∧ is_Some (rows rep !! k)) results).
Proof.
  split.
  - intros Hex. unfold showSummary.
    destruct (tally_all results ∅) as [m|e] eqn:Hm; simpl.
    + exfalso. apply Exists_exists in Hex as (r & Hin & Hr).
      assert (Forall (λ r, ¬ unfileable (name r)) results) as Hall.
      { apply (tally_all_returns_iff results ∅). by eexists. }
      rewrite Forall_forall in Hall. by apply (Hall r Hin).
    + by rewrite (tally_all_throws _ _ _ Hm).
  - intros rep Hrep. apply Forall_forall. intros r Hin.
    assert (¬ unfileable (name r)) as Hr.
    { unfold showSummary in Hrep.
      apply exc_bind_Ok in Hrep as (m & Hm & _).
      assert (Forall (λ r, ¬ unfileable (name r)) results) as Hall.
      { apply (tally_all_returns_iff results ∅). by eexists. }
      rewrite Forall_forall in Hall. by apply Hall. }
    apply not_unfileable in Hr as (k & Hk & Hout).
    exists k. split; [done|]. split; [done|].
    unfold showSummary in Hrep.
    apply exc_bind_Ok in Hrep as (m & Hm & Hrep). simplify_eq. simpl.
    rewrite lookup_fmap, (tally_all_spec _ _ _ Hm k), lookup_empty.
    assert (r ∈ named k results) as Hnamed.
    { unfold named. by apply list_elem_of_filter. }
    destruct (named k results); [by apply elem_of_nil in Hnamed|].
    by eexists.
Qed.

Lemma showSummary_rejects_names_witness :
  showSummary [ {| name := VStr "ping"; status := 200;
                   duration := 5; success := true |};
                {| name := stringly; status := 200;
                   duration := 5; success := true |} ] = Throw TypeError
  ∧ showSummary [ {| name := VStr "valueOf"; status := 200;
                     duration := 5; success := true |} ] = Throw TypeError.
Proof.
  split.
  - apply showSummary_rejects_names. apply Exists_cons_tl, Exists_cons_hd.
    intros k Hk. vm_compute in Hk. discriminate.
  - apply showSummary_rejects_names. apply Exists_cons_hd.
    intros k Hk. vm_compute in Hk. injection Hk as <-.
    apply list_elem_of_In. simpl. tauto.
Defined.

Lemma failures_range (rs : list result) :
  0 ≤ failures rs ≤ Z.of_nat (length rs).
Proof. unfold failures. pose proof (length_filter (λ r, success r = false) rs). lia. Qed.

Lemma round_div_exact (b m : Z) : 0 < b → round_div (b * m) b = Finite m.
Proof.
  intros Hb. rewrite round_div_pos by done. f_equal.
  replace (2 * (b * m) + b) with (b + m * (2 * b)) by lia.
  rewrite Z.div_add by lia. rewrite Z.div_small; lia.
Qed.

(** X9.  In a report there is a row for a name exactly when some result
    is filed under it.  The row counts those results and, as errors,
    those of them that failed, so 0 ≤ errors ≤ count and count ≥ 1; its
    success rate is a percentage between 0 and 100, 100 without errors
    and 0 when every request failed. *)
Theorem report_row_counts (results : list result) (rep : report) (k : string) :
  showSummary results = Ok rep →
  (rows rep !! k = None ↔ named k results = [])
  ∧ ∀ r, rows rep !! k = Some r →
      count r = Z.of_nat (length (named k results))
      ∧ row_errors r = failures (named k results)
      ∧ 1 ≤ count r ∧ 0 ≤ row_errors r ≤ count r
      ∧ ∃ p, successRate r = Finite p ∧ 0 ≤ p ≤ 100
          ∧ (row_errors r = 0 → p = 100)
          ∧ (row_errors r = count r → p = 0).
Proof.
  intros Hrep. split.
  - unfold showSummary in Hrep.
    apply exc_bind_Ok in Hrep as (m & Hm & Hrep). simplify_eq. simpl.
    rewrite lookup_fmap, (tally_all_spec _ _ _ Hm k), lookup_empty.
    by destruct (named k results).
  - intros r Hr.
    destruct (report_rows _ _ _ _ Hrep Hr) as (data & -> & Ht & He & Hne).
    pose proof (failures_range (named k results)) as Hf.
    assert (length (times data) = length (named k results)) as Hlen.
    { by rewrite Ht, length_fmap. }
    assert (1 ≤ Z.of_nat (length (times data))) as Hpos.
    { destruct (times data); [done|simpl; lia]. }
    simpl. rewrite Hlen in *. rewrite He.
    split; [done|]. split; [done|]. split; [done|]. split; [done|].
    set (c := Z.of_nat (length (named k results))) in *.
    destruct (percent_finite (c - failures (named k results)) c)
      as [p Hp]; [lia|].
    exists p. split; [done|]. split; [|split].
    + apply (percent_range (c - failures (named k results)) c); [lia|lia|done].
    + intros H0. rewrite H0, Z.sub_0_r in Hp.
      rewrite percent_full in Hp by lia. by simplify_eq.
    + intros H0. rewrite H0, Z.sub_diag in Hp.
      rewrite percent_zero in Hp by lia. by simplify_eq.
Qed.

Lemma report_row_counts_witness :
  ∃ rep r, showSummary two_pings = Ok rep ∧ rows rep !! "ping" = Some r
    ∧ count r = 2 ∧ row_errors r = 1.
Proof.
  assert (∃ rep, showSummary two_pings = Ok rep) as [rep Hrep]
    by (eexists; vm_compute; reflexivity).
  destruct (report_row_counts two_pings rep "ping" Hrep) as [Hnone Hrow].
  destruct (rows rep !! "ping") as [r|] eqn:Hr.
  - exists rep, r. destruct (Hrow r eq_refl) as (Hc & He & _).
    split; [exact Hrep|]. split; [exact Hr|]. split.
    + rewrite Hc. reflexivity.
    + rewrite He. reflexivity.
  - exfalso. pose proof (proj1 Hnone eq_refl) as Hn.
    vm_compute in Hn. discriminate.
Defined.
Lemma foldl_max_spec (l : list Z) : ∀ a,
  foldl Z.max a l ∈ a :: l ∧ ∀ x, x ∈ a :: l → x ≤ foldl Z.max a l.
Proof.
  induction l as [|y l IH]; intros a; simpl.
  - split; [left|]. intros x Hx. apply list_elem_of_singleton in Hx. lia.
  - destruct (IH (Z.max a y)) as [Hin Hle]. split.
    + apply elem_of_cons in Hin as [Heq|Hin]; [|by right; right].
      rewrite Heq. destruct (Z.max_spec a y) as [[_ ->]|[_ ->]];
        [right; left|left].
    + intros x Hx. apply elem_of_cons in Hx as [->|Hx].
      * pose proof (Hle (Z.max a y) ltac:(left)). lia.
      * apply elem_of_cons in Hx as [->|Hx].
        -- pose proof (Hle (Z.max a y) ltac:(left)). lia.
        -- apply Hle. by right.
Qed.

Lemma foldl_min_spec (l : list Z) : ∀ a,
  foldl Z.min a l ∈ a :: l ∧ ∀ x, x ∈ a :: l → foldl Z.min a l ≤ x.
Proof.
  induction l as [|y l IH]; intros a; simpl.
  - split; [left|]. intros x Hx. apply list_elem_of_singleton in Hx. lia.
  - destruct (IH (Z.min a y)) as [Hin Hle]. split.
    + apply elem_of_cons in Hin as [Heq|Hin]; [|by right; right].
      rewrite Heq. destruct (Z.min_spec a y) as [[_ ->]|[_ ->]];
        [left|right; left].
    + intros x Hx. apply elem_of_cons in Hx as [->|Hx].
      * pose proof (Hle (Z.min a y) ltac:(left)). lia.
      * apply elem_of_cons in Hx as [->|Hx].
        -- pose proof (Hle (Z.min a y) ltac:(left)). lia.
        -- apply Hle. by right.
Qed.

Lemma maximum_spec (l : list Z) :
  l ≠ [] → ∃ m, maximum l = Finite m ∧ m ∈ l ∧ ∀ x, x ∈ l → x ≤ m.
Proof.
  destruct l as [|a l]; [done|]. intros _.
  destruct (foldl_max_spec l a) as [Hin Hle]. by eexists.
Qed.

Lemma minimum_spec (l : list Z) :
  l ≠ [] → ∃ m, minimum l = Finite m ∧ m ∈ l ∧ ∀ x, x ∈ l → m ≤ x.
Proof.
  destruct l as [|a l]; [done|]. intros _.
  destruct (foldl_min_spec l a) as [Hin Hle]. by eexists.
Qed.

Lemma sum_foldl (l : list Z) : ∀ a, foldl Z.add a l = a + sum l.
Proof.
  unfold sum. induction l as [|x l IH]; intros a; simpl; [lia|].
  rewrite (IH (a + x)), (IH (0 + x)). lia.
Qed.

Lemma sum_cons (x : Z) (l : list Z) : sum (x :: l) = x + sum l.
Proof. unfold sum at 1. simpl. by rewrite sum_foldl. Qed.

Lemma sum_bounds (l : list Z) (lo hi : Z) :
  (∀ x, x ∈ l → lo ≤ x ≤ hi) →
  Z.of_nat (length l) * lo ≤ sum l ≤ Z.of_nat (length l) * hi.
Proof.
  induction l as [|x l IH]; intros Hl; [by cbn|].
  rewrite sum_cons. pose proof (Hl x ltac:(left)).
  specialize (IH (λ y Hy, Hl y ltac:(by right))). simpl length. lia.
Qed.

(** X10.  In every row of a report the minimum and the maximum are
    durations of the group that bound all its durations, and both the
    average and the p95 lie between them. *)
Theorem report_row_bounds (results : list result) (rep : report)
    (k : string) (r : row) :
  showSummary results = Ok rep → rows rep !! k = Some r →
  ∃ lo hi a q,
    min r = Finite lo ∧ max r = Finite hi ∧ avg r = Finite a ∧ p95 r = Some q
    ∧ lo ∈ duration <$> named k results
    ∧ hi ∈ duration <$> named k results
    ∧ (∀ d, d ∈ duration <$> named k results → lo ≤ d ≤ hi)
    ∧ lo ≤ a ≤ hi ∧ lo ≤ q ≤ hi.
Proof.
  intros Hrep Hr.
  destruct (report_rows _ _ _ _ Hrep Hr) as (data & -> & Ht & _ & Hne).
  rewrite <- Ht.
  destruct (minimum_spec _ Hne) as (lo & Hmin & Hlo & Hlow).
  destruct (maximum_spec _ Hne) as (hi & Hmax & Hhi & Hhigh).
  destruct (p95_of_group data (sort (times data)) Hne)
    as (i & q & _ & _ & Hq & Hp95).
  { apply merge_sort_Permutation. }
  { apply Sorted_merge_sort. apply _. }
  assert (q ∈ times data) as Hqin.
  { apply list_elem_of_lookup_2 in Hq. unfold sort in Hq.
    by rewrite merge_sort_Permutation in Hq. }
  assert (0 < Z.of_nat (length (times data))) as Hpos.
  { destruct (times data); [done|simpl; lia]. }
  pose proof (sum_bounds (times data) lo hi
                (λ x Hx, conj (Hlow x Hx) (Hhigh x Hx))) as Hsum.
  destruct (round_div (sum (times data)) (Z.of_nat (length (times data))))
    as [a| | |] eqn:Ha; try (rewrite round_div_pos in Ha by done; discriminate).
  exists lo, hi, a, q. simpl. rewrite Ha.
  do 6 (split; [done|]). split; [|split].
  - intros d Hd. split; [by apply Hlow|by apply Hhigh].
  - split.
    + apply (round_div_mono (Z.of_nat (length (times data)) * lo)
               (sum (times data)) (Z.of_nat (length (times data))));
        [done|lia|by apply round_div_exact|done].
    + apply (round_div_mono (sum (times data))
               (Z.of_nat (length (times data)) * hi)
               (Z.of_nat (length (times data))));
        [done|lia|done|by apply round_div_exact].
  - split; [by apply Hlow|by apply Hhigh].
Qed.

Lemma report_row_bounds_witness :
  ∃ rep r lo hi a q, showSummary two_pings = Ok rep
    ∧ rows rep !! "ping" = Some r
    ∧ min r = Finite lo ∧ max r = Finite hi ∧ avg r = Finite a ∧ p95 r = Some q
    ∧ lo ≤ a ≤ hi ∧ lo ≤ q ≤ hi.
Proof.
  assert (∃ rep r, showSummary two_pings = Ok rep
                   ∧ rows rep !! "ping" = Some r) as (rep & r & Hrep & Hr)
    by (eexists _, _; split; vm_compute; reflexivity).
  destruct (report_row_bounds two_pings rep "ping" r Hrep Hr)
    as (lo & hi & a & q & Hmin & Hmax & Havg & Hq & _ & _ & _ & Ha & Hqb).
  exists rep, r, lo, hi, a, q. repeat (split; [assumption|]). exact Hqb.
Defined.

(** Sums over the entries of [summary]. *)
Lemma weigh_insert (μ : group → Z) (m : gmap string group) (k : string)
    (g' : group) :
  map_fold (λ _ g acc, acc + μ g) 0 (<[k := g']> m) =
    map_fold (λ _ g acc, acc + μ g) 0 m - from_option μ 0 (m !! k) + μ g'.
Proof.
  destruct (m !! k) as [g|] eqn:Hk; simpl.
  - rewrite <- insert_delete_eq.
    rewrite map_fold_insert_L; [|intros; lia|apply lookup_delete_eq].
    rewrite (map_fold_delete_L _ _ k g m); [lia|intros; lia|done].
  - rewrite map_fold_insert_L; [lia|intros; lia|done].
Qed.

Lemma tally_all_weigh (μ : group → Z) (δ : result → Z) :
  μ {| times := []; errors := 0 |} = 0 →
  (∀ g r, μ {| times := times g ++ [duration r];
               errors := if success r then errors g else errors g + 1 |}
          = μ g + δ r) →
  ∀ (results : list result) (summary m : gmap string group),
    tally_all results summary = Ok m →
    map_fold (λ _ g acc, acc + μ g) 0 m =
      map_fold (λ _ g acc, acc + μ g) 0 summary + foldr (λ r acc, δ r + acc) 0 results.
Proof.
  intros Hμ0 Hμ. induction results as [|r rs IH]; intros summary m Hm.
  - simpl in *. simplify_eq. lia.
  - simpl in Hm. apply tally_inv in Hm as (kr & m' & _ & _ & -> & Hm).
    rewrite (IH _ _ Hm), weigh_insert, Hμ. simpl.
    destruct (summary !! kr); simpl; [lia|].
    rewrite Hμ0. lia.
Qed.

Lemma failures_foldr (rs : list result) :
  foldr (λ r acc, (if success r then 0 else 1) + acc) 0 rs = failures rs.
Proof.
  induction rs as [|r rs IH]; [done|]. simpl. by rewrite IH, failures_cons.
Qed.

Lemma length_foldr (rs : list result) :
  foldr (λ (_ : result) acc, 1 + acc) 0 rs = Z.of_nat (length rs).
Proof. induction rs as [|r rs IH]; [done|]. simpl foldr. rewrite IH. simpl length. lia. Qed.

Lemma total_errors_spec (results : list result) (m : gmap string group) :
  tally_all results ∅ = Ok m →
  map_fold (λ _ data acc, acc + errors data) 0 m = failures results.
Proof.
  intros Hm.
  rewrite (tally_all_weigh errors (λ r, if success r then 0 else 1)
             eq_refl ltac:(by intros g r; simpl; destruct (success r); lia)
             _ _ _ Hm).
  by rewrite map_fold_empty, failures_foldr.
Qed.

(** X11.  The global figures of a report: the number of requests is
    the number of results and the sum of the counts of the rows; the
    number of errors is the number of failed results and the sum of the
    errors of the rows; and with at least one result the global success
    rate is a percentage between 0 and 100 and the global average is a
    number. *)
Theorem report_totals (results : list result) (rep : report) :
  showSummary results = Ok rep →
  totalRequests rep = Z.of_nat (length results)
  ∧ totalErrors rep = failures results
  ∧ 0 ≤ totalErrors rep ≤ totalRequests rep
  ∧ map_fold (λ _ r acc, acc + count r) 0 (rows rep) = totalRequests rep
  ∧ map_fold (λ _ r acc, acc + row_errors r) 0 (rows rep) = totalErrors rep
  ∧ (results ≠ [] →
       ∃ p a, globalSuccessRate rep = Finite p ∧ 0 ≤ p ≤ 100
         ∧ globalAvgTime rep = Finite a).
Proof.
  unfold showSummary. intros Hrep.
  apply exc_bind_Ok in Hrep as (m & Hm & Hrep). simplify_eq. simpl.
  rewrite (total_errors_spec _ _ Hm).
  pose proof (failures_range results) as Hf.
  split; [done|]. split; [done|]. split; [done|]. split; [|split].
  - rewrite map_fold_fmap.
    pose proof (tally_all_weigh (λ g, Z.of_nat (length (times g))) (λ _, 1)
                  eq_refl
                  ltac:(by intros g r; simpl; rewrite length_app; simpl; lia)
                  _ _ _ Hm) as Hcount.
    rewrite map_fold_empty, length_foldr in Hcount. exact Hcount.
  - rewrite map_fold_fmap. exact (total_errors_spec _ _ Hm).
  - intros Hne.
    assert (0 < Z.of_nat (length results)) as Hpos.
    { destruct results; [done|simpl; lia]. }
    rewrite length_fmap.
    destruct (percent_finite (Z.of_nat (length results) - failures results)
                (Z.of_nat (length results))) as [p Hp]; [lia|].
    exists p. eexists. split; [done|]. split; [|by apply round_div_pos].
    apply (percent_range (Z.of_nat (length results) - failures results)
             (Z.of_nat (length results))); [done|lia|done].
Qed.

Lemma report_totals_witness :
  ∃ rep, showSummary two_pings = Ok rep
    ∧ totalRequests rep = Z.of_nat (length two_pings)
    ∧ totalErrors rep = failures two_pings
    ∧ 0 ≤ totalErrors rep ≤ totalRequests rep.
Proof.
  assert (∃ rep, showSummary two_pings = Ok rep) as [rep Hrep]
    by (eexists; vm_compute; reflexivity).
  destruct (report_totals two_pings rep Hrep) as (Hn & He & Hr & _).
  exists rep. repeat (split; [assumption|]). exact Hr.
Defined.

(** *** The order of the results *)

Lemma sum_perm (l l' : list Z) : l ≡ₚ l' → sum l = sum l'.
Proof.
  induction 1 as [|x l l' _ IH|x y l|l1 l2 l3 _ IH1 _ IH2];
    rewrite ?sum_cons; lia.
Qed.

Lemma maximum_perm (l l' : list Z) : l ≡ₚ l' → maximum l = maximum l'.
Proof.
  intros Hp. destruct l as [|a l].
  { apply Permutation_nil_l in Hp. by subst. }
  assert (l' ≠ []) as Hne'.
  { intros ->. by apply Permutation_nil_r in Hp. }
  destruct (maximum_spec (a :: l)) as (m & -> & Hm & Hle); [done|].
  destruct (maximum_spec l' Hne') as (m' & -> & Hm' & Hle').
  f_equal. rewrite Hp in Hm. rewrite <- Hp in Hm'.
  specialize (Hle _ Hm'). specialize (Hle' _ Hm). lia.
Qed.

Lemma minimum_perm (l l' : list Z) : l ≡ₚ l' → minimum l = minimum l'.
Proof.
  intros Hp. destruct l as [|a l].
  { apply Permutation_nil_l in Hp. by subst. }
  assert (l' ≠ []) as Hne'.
  { intros ->. by apply Permutation_nil_r in Hp. }
  destruct (minimum_spec (a :: l)) as (m & -> & Hm & Hle); [done|].
  destruct (minimum_spec l' Hne') as (m' & -> & Hm' & Hle').
  f_equal. rewrite Hp in Hm. rewrite <- Hp in Hm'.
  specialize (Hle _ Hm'). specialize (Hle' _ Hm). lia.
Qed.

Lemma sort_perm (l l' : list Z) : l ≡ₚ l' → sort l = sort l'.
Proof.
  intros Hp. apply sort_unique.
  - unfold sort. by rewrite merge_sort_Permutation.
  - apply Sorted_merge_sort. apply _.
Qed.

Lemma row_of_perm (d d' : group) :
  times d ≡ₚ times d' → errors d = errors d' → row_of d = row_of d'.
Proof.
  intros Hp He. unfold row_of.
  rewrite (sum_perm _ _ Hp), (maximum_perm _ _ Hp), (minimum_perm _ _ Hp),
    (sort_perm _ _ Hp), (Permutation_length Hp), He. done.
Qed.

Lemma failures_perm (rs rs' : list result) : rs ≡ₚ rs' → failures rs = failures rs'.
Proof. intros Hp. unfold failures. by rewrite Hp. Qed.

(** X12.  The report does not depend on the order in which the results
    arrived: two result lists that are permutations of each other give
    the same outcome of [showSummary], row for row and figure for
    figure. *)
Theorem showSummary_order_insensitive (results results' : list result) :
  results ≡ₚ results' → showSummary results = showSummary results'.
Proof.
  intros Hp. unfold showSummary.
  destruct (tally_all results ∅) as [m|e] eqn:Hm;
    destruct (tally_all results' ∅) as [m'|e'] eqn:Hm'; simpl.
  - f_equal. rewrite (total_errors_spec _ _ Hm), (total_errors_spec _ _ Hm').
    rewrite (failures_perm _ _ Hp), (Permutation_length Hp).
    rewrite !length_fmap, (Permutation_length Hp).
    rewrite (sum_perm (duration <$> results) (duration <$> results'))
      by (by rewrite Hp).
    f_equal. apply map_eq. intros k. rewrite !lookup_fmap.
    rewrite (tally_all_spec _ _ _ Hm k), (tally_all_spec _ _ _ Hm' k).
    rewrite lookup_empty.
    assert (named k results ≡ₚ named k results') as Hn.
    { unfold named. by rewrite Hp. }
    destruct (named k results) as [|r rs] eqn:H1.
    { apply Permutation_nil_l in Hn. by rewrite <- Hn. }
    destruct (named k results') as [|r' rs'] eqn:H2.
    { by apply Permutation_nil_r in Hn. }
    simpl. f_equal. apply row_of_perm; simpl.
    + change (duration <$> r :: rs ≡ₚ duration <$> r' :: rs').
      by apply fmap_Permutation.
    + by rewrite (failures_perm _ _ Hn).
  - exfalso.
    assert (returns (tally_all results' ∅)) as [? ?]; [|congruence].
    apply tally_all_returns_iff. rewrite <- Hp.
    apply (tally_all_returns_iff results ∅). by eexists.
  - exfalso.
    assert (returns (tally_all results ∅)) as [? ?]; [|congruence].
    apply tally_all_returns_iff. rewrite Hp.
    apply (tally_all_returns_iff results' ∅). by eexists.
  - apply tally_all_throws in Hm, Hm'. by subst.
Qed.

Lemma showSummary_order_insensitive_witness :
  showSummary two_pings = showSummary (reverse two_pings).
Proof.
  apply (showSummary_order_insensitive two_pings (reverse two_pings)).
  apply perm_swap.
Defined.


End SummaryMore.

Module LoadMore.
Import Executor Progress Summary Load Samples.
Import ExecutorFacts ProgressFacts SummaryFacts LoadFacts ExecutorMore.

Section run.
Variable config : RunConfig.
Variable collection : list jsval.

Local Abbreviation n := (Z.to_nat (users config)).
Local Abbreviation R := (Z.to_nat (repetitions config)).
Local Abbreviation L := (length collection).
Local Abbreviation total := (totalRequests config collection).
Local Abbreviation step := (step config collection).
Local Abbreviation run := (run config collection).
Local Abbreviation next := (next config collection).
Local Abbreviation enter := (enter config collection).
Local Abbreviation inv := (inv config collection).
Local Abbreviation filed := (filed config collection).
Local Abbreviation tallied := (tallied config collection).
Local Abbreviation blamed := (blamed collection).

(** *** Results are only ever appended *)

Lemma step_extends (s : state) (ev : event) :
  results s `prefix_of` results (step s ev)
  ∧ console s `prefix_of` console (step s ev)
  ∧ completedRequests s ≤ completedRequests (step s ev).
Proof.
  destruct ev as [u|u o start now]; simpl.
  - destruct (tasks s !! u) as [[]|]; simpl; done.
  - destruct (tasks s !! u) as [[|r i| |]|]; try done.
    destruct (collection !! i); [|done].
    destruct (runRequest _ _ _ _); [|done].
    unfold resume. destruct (updateProgress _ _); simpl.
    + split; [by eexists|]. split; [by eexists|lia].
    + split; [by eexists|]. split; [done|lia].
Qed.

(** X13.  Results and progress lines are only ever appended, and the
    counter never decreases: what a run has recorded at some point is a
    prefix of what it has recorded at any later point. *)
Theorem results_append_only (evs evs' : list event) :
  results (run evs) `prefix_of` results (run (evs ++ evs'))
  ∧ console (run evs) `prefix_of` console (run (evs ++ evs'))
  ∧ completedRequests (run evs) ≤ completedRequests (run (evs ++ evs')).
Proof.
  unfold Load.run. rewrite foldl_app.
  generalize (foldl step (init config) evs).
  induction evs' as [|ev evs' IH]; intros s; [done|].
  simpl. destruct (IH (step s ev)) as (Hr & Hc & Hn).
  destruct (step_extends s ev) as (Hr' & Hc' & Hn').
  split; [by etrans|]. split; [by etrans|lia].
Qed.

(** *** After completion *)

Lemma step_done (s : state) (ev : event) :
  all_done s = true → step s ev = s.
Proof.
  intros Hdone. apply all_done_Forall in Hdone.
  assert (∀ u t, tasks s !! u = Some t → t = Done) as Hall.
  { intros u t Hu. by eapply (Forall_lookup_1 _ _ _ _ Hdone). }
  destruct ev as [u|u o start now]; simpl.
  - destruct (tasks s !! u) as [t|] eqn:Hu; [|done].
    by rewrite (Hall u t Hu).
  - destruct (tasks s !! u) as [t|] eqn:Hu; [|done].
    by rewrite (Hall u t Hu).
Qed.

(** X14.  A completed run is final: once every user has called
    [resolve()], no event changes the state any more; in particular no
    further request is recorded. *)
Theorem completed_is_final (evs evs' : list event) :
  all_done (run evs) = true → run (evs ++ evs') = run evs.
Proof.
  unfold Load.run. rewrite foldl_app.
  generalize (foldl step (init config) evs).
  induction evs' as [|ev evs' IH]; intros s Hdone; [done|].
  simpl. rewrite (step_done s ev Hdone). by apply IH.
Qed.

(** *** Progress stays within bounds *)

(** X15.  At any point of any run the number of recorded results is at
    most users × repetitions × L, and every progress line written
    shows a count between 1 and the total, a percentage between 0 and
    100 and a bar of exactly 50 cells. *)
Theorem progress_within_bounds (evs : list event) :
  (length (results (run evs)) ≤ n * R * L)%nat
  ∧ ∀ l, l ∈ console (run evs) →
      1 ≤ shown_completed l ≤ shown_total l
      ∧ shown_total l = total
      ∧ (filled l + remaining l = 50)%nat
      ∧ ∃ p, percentage l = Finite p ∧ 0 ≤ p ≤ 100.
Proof.
  pose proof (inv_run config collection evs) as Hinv.
  destruct (results_bound _ _ _ Hinv) as [Hb Ht].
  split; [lia|]. intros l Hl.
  apply list_elem_of_lookup in Hl as [k Hk].
  apply lookup_lt_Some in Hk as Hlt.
  rewrite (inv_console _ _ _ Hinv) in Hlt.
  destruct Ht as [Ht Hpos].
  { destruct (results (run evs)); [simpl in Hlt; lia|done]. }
  apply (inv_lines _ _ _ Hinv) in Hk.
  destruct (updateProgress_returns (Z.of_nat (S k)) total)
    as (p & l' & Hp & Hup & Hpl & Hsc & Hst & _ & Hbar); [lia|lia|].
  rewrite Hk in Hup. simplify_eq.
  rewrite Hsc, Hst. split; [lia|]. split; [done|]. split; [done|].
  exists p. split; [done|].
  apply (percent_range (Z.of_nat (S k)) total); [lia|lia|done].
Qed.
(** *** How a user can fail *)

Lemma issue_failed (item : jsval) (r i : nat) (e : js_error) :
  issue item r i = Failed e → resolve item = Throw e.
Proof. unfold issue. destruct (resolve item); by intros [= <-]. Qed.

Lemma blamed_task (t : task) :
  (t = Done ∨ ∃ item r i, item ∈ collection ∧ t = issue item r i) →
  ∀ e, t = Failed e →
    e = TypeError ∧ ∃ item, item ∈ collection ∧ resolve item = Throw TypeError.
Proof.
  intros [->|(item & r & i & Hin & ->)] e He; [done|].
  apply issue_failed in He. pose proof (resolve_throws _ _ He) as ->.
  split; [done|]. by exists item.
Qed.

Lemma blamed_insert (s : state) (u : nat) (t : task) :
  blamed s →
  (t = Done ∨ ∃ item r i, item ∈ collection ∧ t = issue item r i) →
  ∀ v e, <[u := t]> (tasks s) !! v = Some (Failed e) →
    e = TypeError ∧ ∃ item, item ∈ collection ∧ resolve item = Throw TypeError.
Proof.
  intros Hs Ht v e Hv. destruct (decide (u = v)) as [->|Hne].
  - apply list_lookup_insert_Some in Hv as [(_ & Heq & _)|[? _]]; [|done].
    by apply (blamed_task _ Ht).
  - rewrite list_lookup_insert_ne in Hv by done. by apply (Hs v e).
Qed.

Lemma blamed_step (s : state) (ev : event) :
  inv s → blamed s → blamed (step s ev).
Proof.
  intros Hinv Hs. destruct ev as [u|u o start now].
  - simpl. destruct (tasks s !! u) as [[]|] eqn:Hu; try done.
    intros v e. simpl. apply blamed_insert; [done|].
    destruct (enter_cases config collection) as [->|(item & Hin & ->)];
      [by left|]. right. by exists item, 0%nat, 0%nat.
  - destruct (tasks s !! u) as [[|r i| |]|] eqn:Hu;
      try (simpl; rewrite Hu; done).
    destruct (step_settles config collection s u r i o start now Hinv Hu)
      as (res & l & ->).
    intros v e. simpl. apply blamed_insert; [done|].
    destruct (next_cases config collection r i)
      as [->|(item & r' & i' & Hin & ->)]; [by left|].
    right. by exists item, r', i'.
Qed.

Lemma blamed_run (evs : list event) : blamed (run evs).
Proof.
  unfold Load.run.
  assert (inv (init config) ∧ blamed (init config)) as Hinit.
  { split; [apply inv_init|]. intros u e Hu. simpl in Hu.
    apply lookup_replicate in Hu as [? _]. done. }
  revert Hinit. generalize (init config).
  induction evs as [|ev evs IH]; intros s [Hinv Hs]; [done|].
  simpl. apply IH. split; [by apply inv_step|by apply blamed_step].
Qed.

(** X16.  A user only ever fails with a [TypeError], and only because
    some template of the collection does not resolve: drawing the
    progress bar never throws in a run.  When every template resolves,
    no user ever fails. *)
Theorem users_fail_on_templates_only (evs : list event) :
  (∀ u e, tasks (run evs) !! u = Some (Failed e) →
     e = TypeError ∧ ∃ item, item ∈ collection ∧ resolve item = Throw TypeError)
  ∧ (Forall (λ item, returns (resolve item)) collection →
     ∀ u e, tasks (run evs) !! u ≠ Some (Failed e)).
Proof.
  split; [apply blamed_run|].
  intros Hall u e Hu.
  destruct (blamed_run evs u e Hu) as (_ & item & Hin & Hres).
  rewrite Forall_forall in Hall. destruct (Hall item Hin) as [req Hreq].
  congruence.
Qed.

(** *** Whether a run can complete *)

(** X17.  When every template resolves, serving the users one after
    the other completes the run, whatever the configuration.  With at
    least one user and one repetition the converse holds: a run can
    complete only if every template resolves. *)
Theorem run_can_complete :
  (Forall (λ item, returns (resolve item)) collection →
   all_done (run (one_by_one config collection)) = true)
  ∧ (1 ≤ users config → 1 ≤ repetitions config →
     (∃ evs, all_done (run evs) = true) →
     Forall (λ item, returns (resolve item)) collection).
Proof.
  split; [apply run_completes|].
  intros Hu Hr [evs Hdone]. apply Forall_forall. intros item Hin.
  destruct (resolve item) as [req|e] eqn:Hres; [by eexists|].
  rewrite (never_completes config collection item evs) in Hdone;
    [done|done| |done..].
  intros [req Hreq]. congruence.
Qed.

(** *** Results per name *)

Lemma hits_take_S (k : string) (i : nat) (item : jsval) :
  collection !! i = Some item →
  hits k (take (S i) collection) =
    (hits k (take i collection) + if decide (key_of item = Ok k) then 1 else 0)%nat.
Proof.
  intros Hi. unfold hits. rewrite (take_S_r _ _ _ Hi), filter_app, length_app.
  f_equal. rewrite filter_cons, filter_nil. by destruct (decide _).
Qed.

Lemma hits_take_all (k : string) (i : nat) :
  (L ≤ i)%nat → hits k (take i collection) = hits k collection.
Proof. intros Hi. by rewrite take_ge. Qed.

Lemma filed_issue (k : string) (item : jsval) (r i : nat) :
  filed k (issue item r i)
    (r * hits k collection + hits k (take i collection))%nat.
Proof. unfold issue. by destruct (resolve item). Qed.

Lemma filed_enter (k : string) : filed k enter 0%nat.
Proof.
  rewrite enter_unfold. destruct (decide (0 < repetitions config)) as [Hr|Hr].
  - destruct (collection !! 0%nat) as [item|] eqn:H0.
    + apply (filed_issue k item 0 0).
    + apply lookup_ge_None in H0. simpl.
      rewrite (nil_length_inv collection) by lia. unfold hits. simpl. lia.
  - simpl. replace R with 0%nat by lia. done.
Qed.

Lemma filed_next (k : string) (r i c : nat) (item : jsval) :
  (r < R)%nat → collection !! i = Some item →
  filed k (Awaiting r i) c →
  filed k (next r i) (c + if decide (key_of item = Ok k) then 1 else 0)%nat.
Proof.
  intros Hr Hi Hc. simpl in Hc. subst c.
  rewrite <- Nat.add_assoc, <- (hits_take_S k i item Hi).
  rewrite next_unfold. destruct (collection !! S i) as [item'|] eqn:Hnext.
  - apply filed_issue.
  - apply lookup_ge_None in Hnext. rewrite (hits_take_all k (S i)) by done.
    apply lookup_lt_Some in Hi.
    destruct (decide (Z.of_nat (S r) < repetitions config)) as [Hrep|Hrep].
    + destruct (collection !! 0%nat) as [item0|] eqn:H0.
      * pose proof (filed_issue k item0 (S r) 0) as Hf.
        replace (r * hits k collection + hits k collection)%nat
          with (S r * hits k collection + hits k (take 0 collection))%nat;
          [done|]. unfold hits at 2. simpl. lia.
      * apply lookup_ge_None in H0. lia.
    + simpl. replace R with (S r) by lia. lia.
Qed.

Lemma step_settles_named (s : state) (u r i : nat) (o : settled) (start now : Z) :
  inv s → tasks s !! u = Some (Awaiting r i) →
  ∃ item res l,
    collection !! i = Some item ∧ (r < R)%nat
    ∧ toPropertyKey (name res) = key_of item
    ∧ step s (Settles u o start now) =
        {| results := results s ++ [res];
           completedRequests := completedRequests s + 1;
           console := console s ++ [l];
           tasks := <[u := next r i]> (tasks s) |}.
Proof.
  intros Hinv Hu.
  destruct (step_settles config collection s u r i o start now Hinv Hu)
    as (res & l & Hstep).
  destruct Hinv as [_ _ _ _ (cnt & Hcnt & _) _].
  destruct (Forall2_lookup_l _ _ _ _ _ Hcnt Hu) as (c & _ & Hok).
  destruct Hok as (_ & Hr & Hi & Hup).
  destruct (lookup_lt_is_Some_2 collection i Hi) as [item Hitem].
  exists item, res, l. split; [done|]. split; [done|]. split; [|done].
  destruct (runRequest_returns item o start now) as (nm & Hnm & Hrun).
  { by apply (Hup i item). }
  simpl in Hstep. rewrite Hu, Hitem, Hrun in Hstep. unfold resume in Hstep.
  destruct (updateProgress _ _); apply (f_equal results) in Hstep;
    simpl in Hstep; apply app_inj_tail in Hstep as [_ <-];
    unfold key_of; rewrite Hnm; by destruct o.
Qed.

Lemma tallied_step (k : string) (s : state) (ev : event) :
  inv s → tallied k s → tallied k (step s ev).
Proof.
  intros Hinv (cnt & Hcnt & Hsum). destruct ev as [u|u o start now].
  - simpl. destruct (tasks s !! u) as [[]|] eqn:Hu; try by exists cnt.
    exists cnt. split; [|done]. simpl.
    destruct (Forall2_lookup_l _ _ _ _ _ Hcnt Hu) as (c & Hcu & Hc).
    simpl in Hc. subst c.
    rewrite <- (list_insert_id cnt u 0%nat Hcu).
    apply Forall2_insert; [done|apply filed_enter].
  - destruct (tasks s !! u) as [[|r i| |]|] eqn:Hu;
      try (simpl; rewrite Hu; by exists cnt).
    destruct (step_settles_named s u r i o start now Hinv Hu)
      as (item & res & l & Hitem & Hr & Hkey & ->).
    destruct (Forall2_lookup_l _ _ _ _ _ Hcnt Hu) as (c & Hcu & Hc).
    exists (<[u := (c + if decide (key_of item = Ok k) then 1 else 0)%nat]> cnt).
    simpl. split.
    + apply Forall2_insert; [done|by apply filed_next].
    + unfold named. rewrite filter_app, length_app, filter_cons, filter_nil.
      fold (named k (results s)). rewrite Hsum, Hkey.
      pose proof (sum_list_insert cnt u c
        (c + if decide (key_of item = Ok k) then 1 else 0)%nat Hcu) as Hins.
      destruct (decide (key_of item = Ok k)); simpl; lia.
Qed.

Lemma tallied_run (k : string) (evs : list event) : tallied k (run evs).
Proof.
  unfold Load.run.
  assert (inv (init config) ∧ tallied k (init config)) as Hinit.
  { split; [apply inv_init|]. exists (replicate n 0%nat). split.
    - apply Forall2_replicate. done.
    - simpl. by rewrite sum_list_replicate. }
  revert Hinit. generalize (init config).
  induction evs as [|ev evs IH]; intros s [Hinv Hs]; [done|].
  simpl. apply IH. split; [by apply inv_step|by apply tallied_step].
Qed.

Lemma tallied_done (k : string) (ts : list task) (cnt : list nat) :
  Forall2 (filed k) ts cnt → Forall (λ t, t = Done) ts →
  sum_list cnt = (length ts * (R * hits k collection))%nat.
Proof.
  induction 1 as [|t c ts cnt Hc _ IH]; intros Hdone; [done|].
  apply Forall_cons in Hdone as [-> Hdone]. simpl in *.
  rewrite Hc, (IH Hdone). lia.
Qed.

Lemma named_count (k : string) (evs : list event) :
  all_done (run evs) = true →
  length (named k (results (run evs))) = (n * (R * hits k collection))%nat.
Proof.
  intros Hdone. destruct (tallied_run k evs) as (cnt & Hcnt & ->).
  rewrite <- (inv_tasks _ _ _ (inv_run config collection evs)).
  apply tallied_done; [done|by apply all_done_Forall].
Qed.

(** X18.  In a completed run every template is requested users ×
    repetitions times: the results filed under a name number users ×
    repetitions × (templates of that name).  So the report has a row
    for a name exactly when that product is positive, the row counts
    that many requests, and the report counts users × repetitions × L
    requests in all. *)
Theorem per_name_counts (evs : list event) (k : string) :
  all_done (run evs) = true →
  length (named k (results (run evs))) = (n * R * hits k collection)%nat
  ∧ ∀ rep, simulateLoad config collection evs = Some (Ok rep) →
      Summary.totalRequests rep = Z.of_nat (n * R * L)
      ∧ (rows rep !! k = None ↔ (n * R * hits k collection = 0)%nat)
      ∧ ∀ r, rows rep !! k = Some r →
          count r = Z.of_nat (n * R * hits k collection).
Proof.
  intros Hdone. pose proof (named_count k evs Hdone) as Hk.
  split; [lia|]. intros rep Hrep.
  unfold simulateLoad in Hrep. rewrite Hdone in Hrep.
  injection Hrep as Hrep.
  assert (Summary.totalRequests rep = Z.of_nat (length (results (run evs))))
    as Htot.
  { unfold showSummary in Hrep.
    apply exc_bind_Ok in Hrep as (m & _ & Hrep). by simplify_eq. }
  rewrite Htot, (completed_count _ _ _ (inv_run config collection evs) Hdone).
  split; [f_equal; lia|]. split.
  - unfold showSummary in Hrep.
    apply exc_bind_Ok in Hrep as (m & Hm & Hrep). simplify_eq. simpl.
    rewrite lookup_fmap, (tally_all_spec _ _ _ Hm k), lookup_empty.
    destruct (named k (results (run evs))) eqn:Hn; simpl in *.
    + split; [lia|done].
    + split; [done|lia].
  - intros r Hr.
    destruct (report_rows _ _ _ _ Hrep Hr) as (data & -> & Ht & _).
    simpl. rewrite Ht, length_fmap, Hk. f_equal. lia.
Qed.


End run.

Lemma completed_is_final_witness :
  run (users_times 2 1) [ping] (both_answer ++ [Timer 0; Timer 5])
    = run (users_times 2 1) [ping] both_answer.
Proof.
  apply (completed_is_final (users_times 2 1) [ping] both_answer).
  vm_compute. reflexivity.
Defined.

Lemma users_fail_on_templates_only_witness :
  tasks (run (users_times 2 1) ping_pong_ping two_of_three) !! 0%nat
    ≠ Some (Failed TypeError).
Proof.
  destruct (users_fail_on_templates_only (users_times 2 1) ping_pong_ping
              two_of_three) as [_ Hnone].
  apply Hnone. repeat constructor; eexists; vm_compute; reflexivity.
Defined.

Lemma run_can_complete_witness :
  all_done (run (users_times 2 1) ping_pong_ping
              (one_by_one (users_times 2 1) ping_pong_ping)) = true.
Proof.
  destruct (run_can_complete (users_times 2 1) ping_pong_ping) as [Hcan _].
  apply Hcan. repeat constructor; eexists; vm_compute; reflexivity.
Defined.

Lemma per_name_counts_witness :
  length (named "ping"
            (results (run (users_times 2 1) ping_pong_ping
                        (one_by_one (users_times 2 1) ping_pong_ping))))
    = (Z.to_nat (users (users_times 2 1))
       * Z.to_nat (repetitions (users_times 2 1))
       * hits "ping" ping_pong_ping)%nat
  ∧ hits "ping" ping_pong_ping = 2%nat.
Proof.
  split; [|vm_compute; reflexivity].
  apply (per_name_counts (users_times 2 1) ping_pong_ping
           (one_by_one (users_times 2 1) ping_pong_ping) "ping").
  vm_compute. reflexivity.
Defined.

End LoadMore.
